(** * Audio pipeline of pollinations-ai-text-generation

  A shallow embedding of the audio code of the repository:

  - [Worklet]: the [PCMProcessor] audio worklet (audio-worklet.js), the
    playback buffer fed by [port.onmessage] and drained by [process];
  - [Wav]: [bufferToWav] (src/utils/audio-utils.js) and [writeWav]
    (wav-worker.js), the two WAV encoders;
  - [Pcm]: [convertPCM16ToFloat32] and [resampleFloat32]
    (src/utils/audio-utils.js).

  JavaScript numbers are IEEE-754 binary64 values and are modelled by Rocq's
  primitive [float]; integer-valued quantities that the code uses as sizes,
  rates and indices are modelled in [Z] or [nat].  A thrown exception
  ([TypeError], [RangeError]) is the result [None]. *)

From Stdlib Require Import ZArith Lia List Floats Uint63 String.
From Stdlib Require Import Reals Lra.
From coqutil Require Import Byte Word.LittleEndianList.
From stdpp Require Import base option list.
Import ListNotations.

Set Default Proof Using "Type".

(** ** Typed arrays

  A [Float32Array] or [Uint8Array] is a list of its elements.  Only the
  operations the sources call are modelled. *)
Module TypedArray.
Section Ops.
Context {A : Type}.

(** [target.set(source)]: copies [source] over the start of [target];
    [RangeError] when [source] is longer than [target]. *)
Definition set (target source : list A) : option (list A) :=
  if decide (length source ≤ length target)
  then Some (source ++ drop (length source) target)
  else None.

(** [target.set(source, offset)]. *)
Definition set_at (target source : list A) (offset : nat) : option (list A) :=
  if decide (offset + length source ≤ length target)
  then Some (take offset target ++ source ++ drop (offset + length source) target)
  else None.

(** [target.fill(v, start)]: every element from [start] on becomes [v]. *)
Definition fill (target : list A) (v : A) (start : nat) : list A :=
  take start target ++ replicate (length target - start) v.

(** [a.subarray(0, n)] and [a.subarray(n)]. *)
Definition subarray_to (a : list A) (n : nat) : list A := take n a.
Definition subarray_from (a : list A) (n : nat) : list A := drop n a.

End Ops.
End TypedArray.

(** ** The playback buffer: [PCMProcessor] of audio-worklet.js *)
Module Worklet.

(** The fields set by the constructor. *)
Record PCMProcessor := mkPCMProcessor {
  bufferQueue : list (list float);
  buffer : list float;
  shouldStop : bool
}.

Definition constructor : PCMProcessor :=
  {| bufferQueue := []; buffer := []; shouldStop := false |}.

(** What [port.onmessage] receives: the string "STOP" or a chunk. *)
Inductive message :=
| STOP
| Chunk (data : list float).

Definition onmessage (st : PCMProcessor) (m : message) : PCMProcessor :=
  match m with
  | STOP =>
      {| bufferQueue := bufferQueue st; buffer := buffer st; shouldStop := true |}
  | Chunk data =>
      {| bufferQueue := bufferQueue st ++ [data];
         buffer := buffer st;
         shouldStop := shouldStop st |}
  end.

(** The [while] loop of [process]: chunks are shifted from the queue and
    appended to [buffer] while it is shorter than [outputLength]. *)
Fixpoint refill (outputLength : nat) (buf : list float) (queue : list (list float))
  : list float * list (list float) :=
  match queue with
  | newBuffer :: rest =>
      if decide (length buf < outputLength)
      then refill outputLength (buf ++ newBuffer) rest
      else (buf, queue)
  | [] => (buf, [])
  end.

(** [process(inputs, outputs, parameters)], with [output = outputs[0]] the
    list of channel arrays.  The result is the new state, the channel
    arrays as written, and the returned flag. *)
Definition process (st : PCMProcessor) (output : list (list float))
  : option (PCMProcessor * list (list float) * bool) :=
  match output with
  | [] => None
  | channel0 :: _ =>
      let outputLength := length channel0 in
      let '(buf, queue) := refill outputLength (buffer st) (bufferQueue st) in
      written ← (if decide (outputLength ≤ length buf) then
            out ← mapM (λ ch, TypedArray.set ch (TypedArray.subarray_to buf outputLength)) output;
            Some (out, TypedArray.subarray_from buf outputLength)
          else if decide (0 < length buf) then
            out ← mapM (λ ch, (λ t, TypedArray.fill t 0%float (length buf))
                                <$> TypedArray.set ch buf) output;
            Some (out, [])
          else
            Some ((λ ch, TypedArray.fill ch 0%float 0) <$> output, buf));
      let '(out, buf') := written in
      let st' := {| bufferQueue := queue; buffer := buf'; shouldStop := shouldStop st |} in
      if shouldStop st && bool_decide (length queue = 0) && bool_decide (length buf' = 0)
      then Some (st', out, false)
      else Some (st', out, true)
  end.

(** All samples held by the processor, in push order. *)
Definition buffered (st : PCMProcessor) : list float :=
  buffer st ++ concat (bufferQueue st).

(** The block a pull of [n] samples is specified to return: the first [n]
    buffered samples, then zeros for the shortfall. *)
Definition pull_block (n : nat) (data : list float) : list float :=
  take n data ++ replicate (n - length data) 0%float.

(** A run of pulls of one channel of [n] samples that ends with the
    terminal flag: the blocks written, in order. *)
Inductive drains (n : nat) : PCMProcessor -> list (list float) -> PCMProcessor -> Prop :=
| drains_last st st' block :
    process st [replicate n 0%float] = Some (st', [block], false) ->
    drains n st [block] st'
| drains_more st st1 st' block blocks :
    process st [replicate n 0%float] = Some (st1, [block], true) ->
    drains n st1 blocks st' ->
    drains n st (block :: blocks) st'.

End Worklet.

(** ** JavaScript numbers

  The operations of the language and of [Math] that the audio code uses,
  on binary64 floats.  The integer part of a float is read off its
  decomposition [Prim2SF] into sign, mantissa and exponent. *)
Module JS.
Local Open Scope Z_scope.

(** The number whose value is the integer [z] (the nearest double). *)
Definition of_Z (z : Z) : float := SF2Prim (binary_normalize prec emax z 0 false).
Definition of_nat (n : nat) : float := of_Z (Z.of_nat n).

(** Truncation toward zero and floor of a finite float. *)
Definition trunc_SF (x : spec_float) : option Z :=
  match x with
  | S754_zero _ => Some 0
  | S754_finite s m e => Some (cond_Zopp s (Z.shiftl (Zpos m) e))
  | _ => None
  end.

Definition floor_SF (x : spec_float) : option Z :=
  match x with
  | S754_zero _ => Some 0
  | S754_finite s m e => Some (Z.shiftl (cond_Zopp s (Zpos m)) e)
  | _ => None
  end.

(** The value of [x] when it is an integer ([+0] and [-0] are [0]). *)
Definition integer_SF (x : spec_float) : option Z :=
  match x with
  | S754_zero _ => Some 0
  | S754_finite s m e =>
      if (0 <=? e) || (Zpos m mod 2 ^ (- e) =? 0)
      then Some (cond_Zopp s (Z.shiftl (Zpos m) e))
      else None
  | _ => None
  end.

Definition trunc (x : float) : option Z := trunc_SF (Prim2SF x).
Definition to_integer (x : float) : option Z := integer_SF (Prim2SF x).

(** [Math.floor(x)]. *)
Definition Math_floor (x : float) : float :=
  match Prim2SF x with
  | S754_finite s m e =>
      if e <? 0 then of_Z (Z.shiftl (cond_Zopp s (Zpos m)) e) else x
  | _ => x
  end.

(** [Math.round(x)]: the integer nearest to [x], ties toward +infinity;
    a result of zero keeps the sign of [x]. *)
Definition Math_round (x : float) : float :=
  match Prim2SF x with
  | S754_finite s m e =>
      if e <? 0 then
        let z := Z.shiftl (2 * cond_Zopp s (Zpos m) + 2 ^ (- e)) (e - 1) in
        if z =? 0 then (if s then neg_zero else zero) else of_Z z
      else x
  | _ => x
  end.

(** [Math.min(x, y)] and [Math.max(x, y)]: NaN if either is NaN, and
    [-0] is below [+0]. *)
Definition Math_min (x y : float) : float :=
  if is_nan x || is_nan y then nan
  else if (x <? y)%float then x
  else if (y <? x)%float then y
  else if get_sign x then x else y.

Definition Math_max (x y : float) : float :=
  if is_nan x || is_nan y then nan
  else if (x <? y)%float then y
  else if (y <? x)%float then x
  else if get_sign x then y else x.

(** [Math.fround]: the value a [Float32Array] element holds after a store
    of [x], rounded to binary32 (ties to even). *)
Definition fround (x : float) : float :=
  match Prim2SF x with
  | S754_finite s m e => SF2Prim (binary_round 24 128 s m e)
  | _ => x
  end.

(** The value an [Int16Array] element holds after a store of [x]
    (ToInt16): NaN and the infinities give 0, a finite [x] is truncated
    toward zero and reduced modulo 2^16 into [-32768, 32767]. *)
Definition wrap16 (z : Z) : Z :=
  let u := z mod 65536 in
  if 32768 <=? u then u - 65536 else u.

Definition ToInt16 (x : float) : Z :=
  match trunc x with
  | Some z => wrap16 z
  | None => 0
  end.

(** The value [setUint16] and [setUint32] of a [DataView] store for the
    number [x] (ToUint16, ToUint32): NaN and the infinities give 0, a
    finite [x] is truncated toward zero and reduced modulo 2^16, 2^32. *)
Definition ToUint16 (x : float) : Z :=
  match trunc x with
  | Some z => z mod 2 ^ 16
  | None => 0
  end.

Definition ToUint32 (x : float) : Z :=
  match trunc x with
  | Some z => z mod 2 ^ 32
  | None => 0
  end.

(** ToIndex, as applied to the length given to a typed array constructor:
    NaN is 0; a negative, infinite or too large length is a [RangeError]. *)
Definition ToIndex (x : float) : option nat :=
  match Prim2SF x with
  | S754_nan => Some 0%nat
  | S754_infinity _ => None
  | sf =>
      z ← trunc_SF sf;
      if (0 <=? z) && (z <=? 2 ^ 53 - 1) then Some (Z.to_nat z) else None
  end.

(** [new Float32Array(length)].  The allocation itself is taken to
    succeed: an engine also throws a [RangeError] for a length it has no
    memory for, at a size that depends on the engine.  Where the size of
    an output is bounded neither by the size of the input nor by a
    constant, the theorems are therefore about the outputs that are
    returned. *)
Definition new_Float32Array (len : float) : option (list float) :=
  n ← ToIndex len; Some (replicate n 0%float).

(** [a[index]] for a [Float32Array] [a] and a number [index], as an
    operand of arithmetic: a read that is not at an integer index of the
    array gives [undefined], which arithmetic converts to NaN. *)
Definition get (a : list float) (index : float) : float :=
  match to_integer index with
  | Some z => if 0 <=? z then default nan (a !! Z.to_nat z) else nan
  | None => nan
  end.

(** Whether [a[index]] reads an element of [a]. *)
Definition in_bounds (a : list float) (index : float) : bool :=
  match to_integer index with
  | Some z => (0 <=? z) && (z <? Z.of_nat (length a))
  | None => false
  end.

(** An integer-valued number, or NaN. *)
Inductive intnum :=
| NaN
| Int (z : Z).

(** [a % b] on integer-valued numbers: the sign of the dividend, and NaN
    for a zero divisor. *)
Definition rem (a b : intnum) : intnum :=
  match a, b with
  | Int x, Int y => if y =? 0 then NaN else Int (Z.rem x y)
  | _, _ => NaN
  end.

Definition lift2 (f : Z -> Z -> Z) (a b : intnum) : intnum :=
  match a, b with
  | Int x, Int y => Int (f x y)
  | _, _ => NaN
  end.

(** [new Uint8Array(length)] for an integer-valued or NaN length.  As for
    [new_Float32Array], the allocation itself is taken to succeed. *)
Definition new_Uint8Array (len : intnum) : option (list byte) :=
  match len with
  | NaN => Some []
  | Int z => if 0 <=? z then Some (replicate (Z.to_nat z) Byte.x00) else None
  end.
End JS.

#[global] Instance byte_eq_decision : EqDecision byte := Byte.byte_eq_dec.

(** ** [DataView]: little-endian stores and loads on a byte buffer *)
Module DataView.
Local Open Scope Z_scope.

(** [view.setUint8(offset, v)], [view.setUint16(offset, v, true)] and
    [view.setUint32(offset, v, true)]: the value modulo 2^8, 2^16, 2^32,
    least significant byte first; [RangeError] outside the buffer. *)
Definition setBytes (view : list byte) (offset : Z) (bs : list byte)
  : option (list byte) :=
  if 0 <=? offset then TypedArray.set_at view bs (Z.to_nat offset) else None.

Definition setUint8 (view : list byte) (offset v : Z) : option (list byte) :=
  setBytes view offset (le_split 1 v).
Definition setUint16 (view : list byte) (offset v : Z) : option (list byte) :=
  setBytes view offset (le_split 2 v).
Definition setUint32 (view : list byte) (offset v : Z) : option (list byte) :=
  setBytes view offset (le_split 4 v).

(** [view.getUint16(offset, true)], [view.getUint32(offset, true)] and
    [view.getInt16(offset, true)]. *)
Definition getBytes (view : list byte) (offset : Z) (n : nat) : option (list byte) :=
  if (0 <=? offset) && (offset + Z.of_nat n <=? Z.of_nat (length view))
  then Some (take n (drop (Z.to_nat offset) view))
  else None.

Definition getUint16 (view : list byte) (offset : Z) : option Z :=
  le_combine <$> getBytes view offset 2.
Definition getUint32 (view : list byte) (offset : Z) : option Z :=
  le_combine <$> getBytes view offset 4.
Definition getInt16 (view : list byte) (offset : Z) : option Z :=
  JS.wrap16 <$> getUint16 view offset.

(** [writeString(view, offset, str)]: one [setUint8] per character code. *)
Fixpoint writeString_from (view : list byte) (offset : Z) (codes : list byte)
  : option (list byte) :=
  match codes with
  | [] => Some view
  | c :: rest =>
      view' ← setUint8 view offset (byte.unsigned c);
      writeString_from view' (offset + 1) rest
  end.

Definition writeString (view : list byte) (offset : Z) (str : string)
  : option (list byte) :=
  writeString_from view offset (list_byte_of_string str).
End DataView.

(** ** The WAV encoders *)
Module Wav.
Import JS DataView.
Local Open Scope Z_scope.

(** The header both encoders write into the first 44 bytes of [view],
    field by field as in the sources ([bytesPerSample] is [sampleSize] in
    [bufferToWav] and the constant 2 in [writeWav]).  The products
    [sampleRate * numChannels * bytesPerSample] and
    [numChannels * bytesPerSample] are computed on numbers, in binary64,
    and rounded when they pass 2^53. *)
Definition writeHeader (view : list byte)
    (totalSize numChannels sampleRate bytesPerSample bitsPerSample dataSize : Z)
  : option (list byte) :=
  view ← writeString view 0 "RIFF";
  view ← setUint32 view 4 (totalSize - 8);
  view ← writeString view 8 "WAVE";
  view ← writeString view 12 "fmt ";
  view ← setUint32 view 16 16;
  view ← setUint16 view 20 1;
  view ← setUint16 view 22 numChannels;
  view ← setUint32 view 24 sampleRate;
  view ← setUint32 view 28
    (ToUint32 (of_Z sampleRate * of_Z numChannels * of_Z bytesPerSample)%float);
  view ← setUint16 view 32 (ToUint16 (of_Z numChannels * of_Z bytesPerSample)%float);
  view ← setUint16 view 34 bitsPerSample;
  view ← writeString view 36 "data";
  setUint32 view 40 dataSize.

(** [combinedChunks.slice(0, combinedChunks.length - 1)] when the length
    is odd. *)
Definition trimToEven (combinedChunks : list byte) : list byte :=
  if decide (length combinedChunks mod 2 ≠ 0)%nat
  then take (length combinedChunks - 1) combinedChunks
  else combinedChunks.

(** [bufferToWav(combinedChunks, sampleRate, numChannels, bitsPerSample)]
    of src/utils/audio-utils.js.  The numeric parameters are integers and
    the sizes are computed on integers, which is what the code computes
    in binary64 as long as [bitsPerSample] is 8 or 16 (so that
    [bitsPerSample / 8] and [length / sampleSize] are exact divisions)
    and the parameters and sizes stay below 2^53.  The properties of the
    encoder are stated for 16 bits and, where the output is padded, for
    parameters below 2^53. *)
Definition bufferToWav (combinedChunks : list byte)
    (sampleRate numChannels bitsPerSample : Z) : option (list byte) :=
  let combinedChunks := trimToEven combinedChunks in
  let sampleSize := bitsPerSample / 8 in
  let expectedSamples := Z.of_nat (length combinedChunks) / sampleSize in
  let remainder := rem (Int expectedSamples) (Int sampleRate) in
  let missingSamples := rem (lift2 Z.sub (Int sampleRate) remainder) (Int sampleRate) in
  let paddingSize :=
    lift2 Z.mul (lift2 Z.mul missingSamples (Int numChannels)) (Int sampleSize) in
  padding ← new_Uint8Array paddingSize;
  paddedData ← new_Uint8Array
    (lift2 Z.add (Int (Z.of_nat (length combinedChunks))) paddingSize);
  paddedData ← TypedArray.set_at paddedData combinedChunks 0;
  paddedData ← TypedArray.set_at paddedData padding (length combinedChunks);
  let headerSize := 44 in
  let dataSize := Z.of_nat (length paddedData) in
  let totalSize := headerSize + dataSize in
  header ← new_Uint8Array (Int headerSize);
  header ← writeHeader header totalSize numChannels sampleRate sampleSize
             bitsPerSample dataSize;
  wavData ← new_Uint8Array (Int totalSize);
  wavData ← TypedArray.set_at wavData header 0;
  TypedArray.set_at wavData paddedData (Z.to_nat headerSize).

(** The object [writeWav] receives from the worker's [onmessage]. *)
Module AudioBuffer.
Record t := mk {
  channelData : list (list float);
  sampleRate : Z;
  numberOfChannels : Z;
  length : Z
}.
End AudioBuffer.

(** The conversion of one sample in [writeWav]:
    [s = Math.max(-1, Math.min(1, channel[j]))] and then
    [output[j] = s < 0 ? s * 0x8000 : s * 0x7FFF] on an [Int16Array]. *)
Definition clampSample (v : float) : float :=
  Math_max (-1)%float (Math_min 1%float v).

Definition scaleSample (s : float) : float :=
  if (s <? 0)%float then (s * 32768)%float else (s * 32767)%float.

Definition floatTo16BitPCM (v : float) : Z :=
  ToInt16 (scaleSample (clampSample v)).

(** The bytes of an [Int16Array] seen through [new Uint8Array(output.buffer)],
    on a little-endian platform. *)
Definition int16Bytes (output : list Z) : list byte :=
  flat_map (le_split 2) output.

(** The channel loop of [writeWav]: channel [i] is converted and copied to
    [view] at [offset], byte by byte. *)
Fixpoint writeChannels (channelData : list (list float)) (view : list byte)
    (offset : Z) (i count : nat) : option (list byte) :=
  match count with
  | O => Some view
  | S count' =>
      channel ← channelData !! i;
      let output := floatTo16BitPCM <$> channel in
      let bytes := int16Bytes output in
      view ← writeString_from view offset bytes;
      writeChannels channelData view (offset + Z.of_nat (List.length bytes))
        (S i) count'
  end.

(** [writeWav(audioBuffer)] of wav-worker.js. *)
Definition writeWav (audioBuffer : AudioBuffer.t) : option (list byte) :=
  let numOfChan := AudioBuffer.numberOfChannels audioBuffer in
  let length := AudioBuffer.length audioBuffer * numOfChan * 2 + 44 in
  view ← new_Uint8Array (Int length);
  view ← writeHeader view length numOfChan (AudioBuffer.sampleRate audioBuffer)
           2 16 (length - 44);
  writeChannels (AudioBuffer.channelData audioBuffer) view 44 0
    (Z.to_nat (AudioBuffer.numberOfChannels audioBuffer)).

(** Re-parsing a header: the fields at their canonical offsets. *)
Record header := mkHeader {
  ChunkSize : Z;
  Subchunk1Size : Z;
  AudioFormat : Z;
  NumChannels : Z;
  SampleRate : Z;
  ByteRate : Z;
  BlockAlign : Z;
  BitsPerSample : Z;
  Subchunk2Size : Z
}.

Definition parseHeader (wav : list byte) : option header :=
  riff ← getBytes wav 0 4;
  chunkSize ← getUint32 wav 4;
  wave ← getBytes wav 8 4;
  fmt ← getBytes wav 12 4;
  subchunk1Size ← getUint32 wav 16;
  audioFormat ← getUint16 wav 20;
  numChannels ← getUint16 wav 22;
  sampleRate ← getUint32 wav 24;
  byteRate ← getUint32 wav 28;
  blockAlign ← getUint16 wav 32;
  bitsPerSample ← getUint16 wav 34;
  data ← getBytes wav 36 4;
  subchunk2Size ← getUint32 wav 40;
  if decide (riff = list_byte_of_string "RIFF" ∧ wave = list_byte_of_string "WAVE"
             ∧ fmt = list_byte_of_string "fmt " ∧ data = list_byte_of_string "data")
  then Some (mkHeader chunkSize subchunk1Size audioFormat numChannels sampleRate
               byteRate blockAlign bitsPerSample subchunk2Size)
  else None.

(** The data payload: what follows the 44-byte header. *)
Definition payload (wav : list byte) : list byte := drop 44 wav.

(** The 44 bytes [writeHeader] leaves in the buffer, field after field. *)
Definition headerBytes
    (totalSize numChannels sampleRate bytesPerSample bitsPerSample dataSize : Z)
  : list byte :=
  list_byte_of_string "RIFF" ++ le_split 4 (totalSize - 8)
  ++ list_byte_of_string "WAVE" ++ list_byte_of_string "fmt "
  ++ le_split 4 16 ++ le_split 2 1 ++ le_split 2 numChannels
  ++ le_split 4 sampleRate
  ++ le_split 4 (ToUint32 (of_Z sampleRate * of_Z numChannels * of_Z bytesPerSample)%float)
  ++ le_split 2 (ToUint16 (of_Z numChannels * of_Z bytesPerSample)%float)
  ++ le_split 2 bitsPerSample
  ++ list_byte_of_string "data" ++ le_split 4 dataSize.

(** The number of padding bytes [bufferToWav] appends to [len] bytes of
    16-bit samples: [missingSamples * numChannels * sampleSize]. *)
Definition paddingSize16 (len sampleRate numChannels : Z) : Z :=
  Z.rem (sampleRate - Z.rem (len / 2) sampleRate) sampleRate * numChannels * 2.
End Wav.

(** ** PCM16 to Float32 conversion and resampling *)
Module Pcm.
Import JS DataView.

(** One iteration of the loop of [resampleFloat32]: the source position
    [srcIndex], the two indices [index0] and [index1] it reads the input
    at, and the value stored at [outputArray[i]]. *)
Definition srcIndex (ratio : float) (i : nat) : float := (of_nat i / ratio)%float.

Definition index0 (ratio : float) (i : nat) : float := Math_floor (srcIndex ratio i).

Definition index1 (inputArray : list float) (ratio : float) (i : nat) : float :=
  Math_min (index0 ratio i + 1)%float (of_nat (length inputArray) - 1)%float.

Definition interpolate (inputArray : list float) (ratio : float) (i : nat) : float :=
  let t := (srcIndex ratio i - index0 ratio i)%float in
  fround ((1 - t) * get inputArray (index0 ratio i)
          + t * get inputArray (index1 inputArray ratio i))%float.

(** [resampleFloat32(inputArray, originalRate, targetRate)].  The loop
    [for (let i = 0; i < newLength; i++)] runs over the indices of the
    allocated [outputArray]. *)
Definition resampleFloat32 (inputArray : list float) (originalRate targetRate : float)
  : option (list float) :=
  if (originalRate =? targetRate)%float then Some inputArray
  else
    let ratio := (targetRate / originalRate)%float in
    let newLength := Math_round (of_nat (length inputArray) * ratio)%float in
    outputArray ← new_Float32Array newLength;
    Some (foldl (λ out i, <[i := interpolate inputArray ratio i]> out)
            outputArray (seq 0 (length outputArray))).

(** The decoding loop of [convertPCM16ToFloat32]:
    [float32Array[i] = dataView.getInt16(i * 2, true) / 32768.0]. *)
Definition decodeSample (pcmData : list byte) (i : nat) : option float :=
  int16 ← getInt16 pcmData (Z.of_nat i * 2);
  Some (fround (of_Z int16 / 32768)%float).

Fixpoint decodeLoop (pcmData : list byte) (float32Array : list float) (i count : nat)
  : option (list float) :=
  match count with
  | O => Some float32Array
  | S count' =>
      v ← decodeSample pcmData i;
      decodeLoop pcmData (<[i := v]> float32Array) (S i) count'
  end.

(** [convertPCM16ToFloat32(pcmData, originalSampleRate, targetSampleRate)]. *)
Definition convertPCM16ToFloat32 (pcmData : list byte)
    (originalSampleRate targetSampleRate : float) : option (list float) :=
  if decide (length pcmData mod 2 ≠ 0)%nat then Some []
  else
    let samples := (length pcmData / 2)%nat in
    float32Array ← decodeLoop pcmData (replicate samples 0%float) 0 samples;
    resampleFloat32 float32Array originalSampleRate targetSampleRate.

(** The input of the resampling scenario: the ten-sample ramp
    [0, 1, ..., 9] / 9 held in a [Float32Array]. *)
Definition ramp : list float :=
  (λ k, fround (of_nat k / 9)%float) <$> seq 0 10.
End Pcm.

(** ** The PCM16 round trip, sample by sample *)
Module RoundTrip.
Import JS.
Local Open Scope Z_scope.

(** A 16-bit sample decoded by [convertPCM16ToFloat32]
    ([int16 / 32768.0] stored in a [Float32Array]) and converted back by
    [writeWav]. *)
Definition roundTripSample (x : Z) : Z :=
  Wav.floatTo16BitPCM (fround (of_Z x / 32768)%float).

(** What the round trip is checked against: a positive sample comes back
    one lower, any other sample unchanged. *)
Definition roundTripSample_ok (x : Z) : bool :=
  roundTripSample x =? (if 0 <? x then x - 1 else x).

(** [p] holds on the [n] integers from [lo] on. *)
Fixpoint forall_range (p : Z -> bool) (lo : Z) (n : nat) : bool :=
  match n with
  | O => true
  | S n' => p lo && forall_range p (lo + 1) n'
  end.
End RoundTrip.

(** ** Integers as binary64 floats

    The canonical binary64 representation of a positive integer below
    2^53: a mantissa of 53 bits and the matching exponent. *)
Module Binary64.
Local Open Scope Z_scope.

Definition canon (c : positive) : spec_float :=
  S754_finite false
    (Z.to_pos (Zpos c * 2 ^ (53 - Zpos (digits2_pos c))))
    (Zpos (digits2_pos c) - 53).

Definition Zcanon (z : Z) : spec_float :=
  match z with
  | Zpos c => canon c
  | _ => S754_zero false
  end.

(** The real value of a mantissa and exponent, and of a float (0 for the
    infinities and NaN). *)
Definition F2R (m e : Z) : R := (IZR m * powerRZ 2 e)%R.

Definition SF2R (x : spec_float) : R :=
  match x with
  | S754_finite s m e => F2R (cond_Zopp s (Zpos m)) e
  | _ => 0%R
  end.
End Binary64.


(** ** Driving the playback buffer

  audio-worklet-setup.js posts the messages the processor receives, and
  the audio thread calls [process] once per block.  An
  [AudioWorkletNode] is identified with the state of its processor: a
  message posted on [workletNode.port] is handed to [port.onmessage], in
  posting order. *)
Module WorkletSetup.
Import Worklet.

(** [enqueueAudioData(workletNode, audioData)]:
    [workletNode.port.postMessage(audioData)]. *)
Definition enqueueAudioData (workletNode : PCMProcessor) (audioData : list float)
  : PCMProcessor :=
  onmessage workletNode (Chunk audioData).

(** [stopAudioWorklet(workletNodeRef)]: posts ["STOP"] when
    [workletNodeRef.current] is set, and does nothing otherwise.  The
    result is the content of the reference afterwards. *)
Definition stopAudioWorklet (workletNodeRef : option PCMProcessor)
  : option PCMProcessor :=
  match workletNodeRef with
  | Some node => Some (onmessage node STOP)
  | None => None
  end.

(** The samples a message adds to the queue. *)
Definition chunkData (m : message) : list float :=
  match m with
  | STOP => []
  | Chunk data => data
  end.

Definition isSTOP (m : message) : bool :=
  match m with
  | STOP => true
  | Chunk _ => false
  end.

(** [k] successive calls of [process] on an output of one channel of [n]
    samples: the final state, the blocks written and the flags returned,
    in call order. *)
Fixpoint pulls (n k : nat) (st : PCMProcessor)
  : option (PCMProcessor * list (list float) * list bool) :=
  match k with
  | O => Some (st, [], [])
  | S k' =>
      match process st [replicate n 0%float] with
      | Some (st1, [block], continue) =>
          '(st', blocks, flags) ← pulls n k' st1;
          Some (st', block :: blocks, continue :: flags)
      | _ => None
      end
  end.
End WorkletSetup.

(** ** The WAV worker and its client

  wav-worker.js answers a ['convert'] message with the file [writeWav]
  builds; [convertToWav] of src/utils/audio-utils.js posts that message
  and resolves with the answer. *)
Module WavWorker.
Import Wav.

(** The bytes of one channel in the file: its samples converted to
    16-bit integers, in sample order. *)
Definition channelBytes (channel : list float) : list byte :=
  int16Bytes (floatTo16BitPCM <$> channel).

(** The data of a message to the worker. *)
Record request := mkRequest {
  type : string;
  channelData : list (list float);
  sampleRate : Z;
  numberOfChannels : Z;
  length : Z
}.

(** The data of the worker's answer. *)
Record response := mkResponse {
  response_type : string;
  wav : list byte
}.

(** [self.onmessage]: a message whose type is not ['convert'] is ignored
    ([Some None]: no answer is posted); an exception of [writeWav] is the
    result [None]. *)
Definition onmessage (data : request) : option (option response) :=
  if String.eqb (type data) "convert" then
    wavBuffer ← writeWav (AudioBuffer.mk (channelData data) (sampleRate data)
                            (numberOfChannels data) (length data));
    Some (Some {| response_type := "wav"; wav := wavBuffer |})
  else Some None.

(** The state of the promise [convertToWav] returns once the worker has
    handled the message. *)
Inductive promise (A : Type) :=
| Resolved (a : A)
| Rejected
| Pending.
Arguments Resolved {A} a.
Arguments Rejected {A}.
Arguments Pending {A}.

Record Blob := mkBlob {
  blobParts : list byte;
  blob_type : string
}.

(** The loop [channelData.push(audioBuffer.getChannelData(i))] for
    [i < audioBuffer.numberOfChannels]; [getChannelData] throws for a
    channel the buffer does not have. *)
Definition collectChannels (audioBuffer : AudioBuffer.t) : option (list (list float)) :=
  mapM (λ i, AudioBuffer.channelData audioBuffer !! i)
    (seq 0 (Z.to_nat (AudioBuffer.numberOfChannels audioBuffer))).

(** [convertToWav(audioBuffer)]: an exception in the [try] block rejects
    ([catch]), an exception in the worker rejects ([worker.onerror]), an
    answer of type ['wav'] resolves with a blob of type ['audio/wav']. *)
Definition convertToWav (audioBuffer : AudioBuffer.t) : promise Blob :=
  match collectChannels audioBuffer with
  | None => Rejected
  | Some channelData =>
      match onmessage {| type := "convert";
                         channelData := channelData;
                         sampleRate := AudioBuffer.sampleRate audioBuffer;
                         numberOfChannels := AudioBuffer.numberOfChannels audioBuffer;
                         length := AudioBuffer.length audioBuffer |} with
      | None => Rejected
      | Some None => Pending
      | Some (Some data) =>
          if String.eqb (response_type data) "wav"
          then Resolved {| blobParts := wav data; blob_type := "audio/wav" |}
          else Pending
      end
  end.
End WavWorker.

(** ** Decoded samples, one by one *)
Module DecodedSample.
Import JS.
Local Open Scope Z_scope.

(** The float [convertPCM16ToFloat32] stores for the 16-bit sample [x]:
    [int16 / 32768.0] held in a [Float32Array]. *)
Definition decodedSample (x : Z) : float := fround (of_Z x / 32768)%float.

(** What the decoded value is checked against: it lies in [-1, 1) and
    multiplying it by 32768 gives back the number [x]. *)
Definition decodedSample_ok (x : Z) : bool :=
  let int16 := of_Z x in
  let v := fround (int16 / 32768)%float in
  (-1 <=? v)%float && (v <? 1)%float && (v * 32768 =? int16)%float.
End DecodedSample.

(** * Properties *)

(** ** Typed array operations *)
Section TypedArrayFacts.
Context {A : Type}.
Implicit Types target source : list A.

Lemma set_full target source :
  length source = length target -> TypedArray.set target source = Some source.
Proof.
  intros Hlen. unfold TypedArray.set. rewrite decide_True by lia.
  rewrite drop_ge by lia. by rewrite app_nil_r.
Qed.

Lemma fill_from_0 target (v : A) :
  TypedArray.fill target v 0 = replicate (length target) v.
Proof. unfold TypedArray.fill. by rewrite take_0, Nat.sub_0_r. Qed.

Lemma set_then_fill target source (v : A) :
  length source ≤ length target ->
  (λ t, TypedArray.fill t v (length source)) <$> TypedArray.set target source
  = Some (source ++ replicate (length target - length source) v).
Proof.
  intros Hle. unfold TypedArray.set. rewrite decide_True by done. simpl.
  unfold TypedArray.fill. rewrite take_app_length.
  rewrite length_app, length_drop. do 3 f_equal. lia.
Qed.

Lemma mapM_constant {B : Type} (f : A -> option B) (l : list A) (b : B) :
  Forall (λ a, f a = Some b) l -> mapM f l = Some (replicate (length l) b).
Proof.
  induction 1 as [|a l Ha _ IH]; [done|].
  cbn. rewrite Ha. cbn. by rewrite IH.
Qed.
End TypedArrayFacts.

(** ** The playback buffer *)
Section WorkletFacts.
Import Worklet.

Lemma refill_buffered n buf queue :
  let '(buf', queue') := refill n buf queue in
  buf' ++ concat queue' = buf ++ concat queue
  ∧ (length buf' < n -> queue' = []).
Proof.
  revert buf. induction queue as [|chunk queue IH]; intros buf; cbn.
  - done.
  - case_decide as Hlt.
    + specialize (IH (buf ++ chunk)).
      destruct (refill n (buf ++ chunk) queue) as [buf' queue'].
      destruct IH as [-> IH]. split; [by rewrite <- (assoc_L (++)) | done].
    + split; [done | lia].
Qed.

Lemma pull_block_length n data : length (pull_block n data) = n.
Proof.
  unfold pull_block. rewrite length_app, length_take, length_replicate. lia.
Qed.

Lemma pull_block_enough n data :
  n ≤ length data -> pull_block n data = take n data.
Proof.
  intros Hle. unfold pull_block.
  replace (n - length data) with 0 by lia. apply app_nil_r.
Qed.

Lemma pull_block_short n data :
  length data ≤ n -> pull_block n data = data ++ replicate (n - length data) 0%float.
Proof. intros Hle. unfold pull_block. by rewrite take_ge. Qed.

Lemma stop_flag {X : Type} (b : bool) (queue : list (list float)) (buf : list float) (x : X) :
  (if b && bool_decide (length queue = 0) && bool_decide (length buf = 0)
   then Some (x, false) else Some (x, true))
  = Some (x, negb (b && bool_decide (queue = []) && bool_decide (buf = []))).
Proof.
  rewrite (bool_decide_ext (length queue = 0) (queue = [])) by apply length_zero_iff_nil.
  rewrite (bool_decide_ext (length buf = 0) (buf = [])) by apply length_zero_iff_nil.
  by destruct (_ && _ && _).
Qed.

(** What one call of [process] does, for channel arrays of length [n]. *)
Lemma process_spec st output n :
  output ≠ [] ->
  Forall (λ ch, length ch = n) output ->
  ∃ st',
    process st output
    = Some (st', replicate (length output) (pull_block n (buffered st)),
            negb (shouldStop st && bool_decide (bufferQueue st' = [])
                  && bool_decide (buffer st' = [])))
    ∧ buffered st' = drop n (buffered st)
    ∧ shouldStop st' = shouldStop st.
Proof.
  intros Hne Hlen. unfold process, buffered.
  destruct output as [|channel0 chans]; [done|].
  assert (length channel0 = n) as -> by by inversion Hlen.
  pose proof (refill_buffered n (buffer st) (bufferQueue st)) as Hre.
  destruct (refill n (buffer st) (bufferQueue st)) as [buf queue].
  destruct Hre as [<- Hq].
  set (output := channel0 :: chans) in *.
  destruct (decide (n ≤ length buf)) as [Hge|Hge].
  - rewrite (mapM_constant _ _ (take n buf)).
    2:{ eapply Forall_impl; [exact Hlen|]. intros ch Hch. cbn in Hch.
        apply set_full. unfold TypedArray.subarray_to. rewrite length_take. lia. }
    cbn -[output]. rewrite stop_flag.
    exists (mkPCMProcessor queue (TypedArray.subarray_from buf n) (shouldStop st)).
    split; [|split].
    + rewrite pull_block_enough by (rewrite length_app; lia).
      rewrite take_app_le by done. reflexivity.
    + cbn. unfold TypedArray.subarray_from. by rewrite drop_app_le.
    + done.
  - rewrite Hq in * by lia. rewrite app_nil_r.
    destruct (decide (0 < length buf)) as [Hpos|Hpos].
    + rewrite (mapM_constant _ _ (buf ++ replicate (n - length buf) 0%float)).
      2:{ eapply Forall_impl; [exact Hlen|]. intros ch Hch. cbn in Hch.
          rewrite set_then_fill by lia. by rewrite Hch. }
      cbn -[output].
      exists (mkPCMProcessor [] [] (shouldStop st)).
      split; [|split].
      * rewrite pull_block_short by lia. by destruct (shouldStop st).
      * cbn. rewrite drop_ge by lia. done.
      * done.
    + destruct buf; [|cbn in Hpos; lia]. cbn -[output].
      exists (mkPCMProcessor [] [] (shouldStop st)).
      split; [|split]; [| |done].
      *
        rewrite pull_block_short by (cbn; lia). cbn -[output].
        rewrite Nat.sub_0_r.
        replace ((λ ch, TypedArray.fill ch 0%float 0) <$> output)
          with (replicate (length output) (replicate n 0%float));
          [by destruct (shouldStop st)|].
        clear -Hlen. induction Hlen as [|ch l Hch _ IH]; [done|].
        cbn. rewrite fill_from_0, Hch. by f_equal.
      * cbn. by rewrite drop_nil.
Qed.

Lemma buffered_push st data :
  buffered (onmessage st (Chunk data)) = buffered st ++ data.
Proof.
  unfold buffered. cbn. rewrite concat_app. cbn.
  by rewrite app_nil_r, (assoc_L (++)).
Qed.

Lemma buffered_pushes chunks :
  buffered (foldl onmessage constructor (Chunk <$> chunks)) = concat chunks.
Proof.
  change (concat chunks) with (buffered constructor ++ concat chunks).
  generalize constructor. induction chunks as [|c chunks IH]; intros st.
  - cbn. by rewrite app_nil_r.
  - rewrite fmap_cons. cbn [foldl concat].
    rewrite IH, buffered_push. by rewrite <- (assoc_L (++)).
Qed.
End WorkletFacts.

Section PlaybackBuffer.
Import Worklet.

Lemma process_flag st output st' out continue :
  process st output = Some (st', out, continue) ->
  continue = negb (shouldStop st && bool_decide (bufferQueue st' = [])
                   && bool_decide (buffer st' = []))
  ∧ shouldStop st' = shouldStop st.
Proof.
  unfold process. destruct output as [|channel0 chans]; [done|].
  destruct (refill _ _ _) as [buf queue].
  match goal with |- context [mbind _ ?w] => destruct w as [[out0 buf']|] end;
    [|done].
  cbn. rewrite stop_flag. intros [= <- <- <-]. done.
Qed.

Lemma drains_all n st blocks st' :
  drains n st blocks st' ->
  ∃ k, concat blocks = buffered st ++ replicate k 0%float.
Proof.
  induction 1 as [st st' block Hp | st st1 st' block blocks Hp _ [k IH]].
  - destruct (process_spec st [replicate n 0%float] n) as (st2 & Hp2 & Hbuf & _);
      [done | by repeat constructor; rewrite length_replicate |].
    rewrite Hp in Hp2. injection Hp2 as -> -> Hflag.
    symmetry in Hflag. apply negb_false_iff in Hflag.
    apply andb_prop in Hflag as [Hflag Hb]. apply andb_prop in Hflag as [_ Hq].
    apply bool_decide_eq_true in Hb, Hq.
    unfold buffered in Hbuf at 1. rewrite Hb, Hq in Hbuf. cbn in Hbuf.
    symmetry in Hbuf. apply drop_nil_inv in Hbuf.
    exists (n - length (buffered st)). cbn. rewrite app_nil_r.
    by apply pull_block_short.
  - destruct (process_spec st [replicate n 0%float] n) as (st2 & Hp2 & Hbuf & _);
      [done | by repeat constructor; rewrite length_replicate |].
    rewrite Hp in Hp2. injection Hp2 as -> -> _.
    cbn [concat]. rewrite IH, Hbuf.
    destruct (decide (n ≤ length (buffered st))) as [Hle|Hgt].
    + exists k. rewrite pull_block_enough by done.
      by rewrite (assoc_L (++)), take_drop.
    + exists (n - length (buffered st) + k).
      rewrite pull_block_short, drop_ge by lia. cbn.
      by rewrite replicate_add, (assoc_L (++)).
Qed.

(** C1.  Whatever chunks have been pushed, a pull of [n] samples (a call of
    [process] whose channel arrays have length [n]) writes to every channel
    exactly [n] samples: the first [n] samples of the buffered data in push
    order, followed by zeros for the shortfall, and leaves the rest of the
    data buffered.  In particular a chunk of length at least [n] pushed into
    an empty buffer gives its first [n] samples, and 50 pushed samples
    pulled as 80 give these 50 samples followed by 30 zeros. *)
Theorem pull_returns_prefix_then_zeros
    (st : PCMProcessor) (chunks : list (list float))
    (output : list (list float)) (n : nat)
    (Hout : output ≠ [])
    (Hlen : Forall (λ ch, length ch = n) output) :
  let data := buffered st ++ concat chunks in
  let block := take n data ++ replicate (n - length data) 0%float in
  ∃ st' continue,
    process (foldl onmessage st (Chunk <$> chunks)) output
    = Some (st', replicate (length output) block, continue)
    ∧ length block = n
    ∧ buffered st' = drop n data
    ∧ (∀ chunk, st = constructor -> chunks = [chunk] -> n ≤ length chunk ->
         block = take n chunk)
    ∧ (∀ chunk, st = constructor -> chunks = [chunk] -> length chunk = 50 ->
         n = 80 -> block = chunk ++ replicate 30 0%float).
Proof.
  intros data block.
  assert (buffered (foldl onmessage st (Chunk <$> chunks)) = data) as Hdata.
  { subst data. clear. revert st.
    induction chunks as [|c chunks IH]; intros st.
    - cbn. by rewrite app_nil_r.
    - rewrite fmap_cons. cbn [foldl concat].
      rewrite IH, buffered_push. by rewrite <- (assoc_L (++)). }
  destruct (process_spec (foldl onmessage st (Chunk <$> chunks)) output n Hout Hlen)
    as (st' & Hp & Hbuf & _).
  rewrite Hdata in Hp, Hbuf.
  exists st'. eexists. split; [exact Hp|].
  split; [apply pull_block_length|]. split; [exact Hbuf|].
  split.
  - intros chunk -> -> Hle. subst block data. cbn. rewrite app_nil_r.
    change (pull_block n chunk = take n chunk). by apply pull_block_enough.
  - intros chunk -> -> Hl ->. subst block data. cbn [buffered constructor buffer bufferQueue concat app].
    rewrite app_nil_r, Hl. rewrite take_ge by lia. done.
Qed.

Lemma pull_returns_prefix_then_zeros_witness :
  ∃ st' continue,
    process (foldl onmessage constructor (Chunk <$> [[1; 2; 3]%float]))
      [replicate 2 0%float]
    = Some (st', [[1; 2]%float], continue).
Proof.
  destruct (pull_returns_prefix_then_zeros constructor [[1; 2; 3]%float]
              [replicate 2 0%float] 2) as (st' & continue & Hp & _).
  - discriminate.
  - repeat constructor.
  - exists st', continue. exact Hp.
Defined.

(** A pull of more samples than are buffered empties the processor: the
    flag is [false] exactly when it has been stopped. *)
Lemma process_underrun st n :
  length (buffered st) < n ->
  process st [replicate n 0%float]
  = Some (mkPCMProcessor [] [] (shouldStop st),
          [pull_block n (buffered st)], negb (shouldStop st)).
Proof.
  intros Hlt. unfold process, buffered in *. rewrite length_replicate.
  pose proof (refill_buffered n (buffer st) (bufferQueue st)) as Hre.
  destruct (refill n (buffer st) (bufferQueue st)) as [buf queue].
  destruct Hre as [Heq Hq]. rewrite <- Heq in *.
  rewrite length_app in Hlt. rewrite Hq in * by lia. rewrite app_nil_r in *.
  rewrite decide_False by lia.
  destruct (decide (0 < length buf)) as [Hpos|Hpos].
  - cbn [mapM]. rewrite set_then_fill by (rewrite length_replicate; lia).
    cbn. rewrite length_replicate. rewrite pull_block_short by lia.
    by destruct (shouldStop st).
  - destruct buf; [|cbn in Hpos; lia]. cbn.
    rewrite fill_from_0, length_replicate.
    rewrite pull_block_short by (cbn; lia). cbn. rewrite Nat.sub_0_r.
    by destruct (shouldStop st).
Qed.

Lemma process_block st n :
  ∃ st' continue,
    process st [replicate n 0%float]
    = Some (st', [pull_block n (buffered st)], continue)
    ∧ buffered st' = drop n (buffered st)
    ∧ shouldStop st' = shouldStop st.
Proof.
  destruct (process_spec st [replicate n 0%float] n) as (st' & Hp & Hb & Hs).
  - done.
  - repeat constructor. apply length_replicate.
  - exists st'. eexists. split; [exact Hp|]. done.
Qed.

Lemma pull_block_app n m data :
  pull_block n data ++ pull_block m (drop n data) = pull_block (n + m) data.
Proof.
  unfold pull_block. rewrite length_drop.
  destruct (decide (n ≤ length data)) as [Hle|Hgt].
  - replace (n - length data) with 0 by lia. cbn [replicate].
    rewrite app_nil_r, (assoc_L (++)), <- take_take_drop.
    do 2 f_equal. lia.
  - rewrite (take_ge data n), (take_ge data (n + m)), drop_ge by lia.
    rewrite take_nil. cbn [app]. rewrite <- (assoc_L (++)), <- replicate_add.
    do 2 f_equal. lia.
Qed.

(** After STOP, pulls of [n > 0] samples reach the terminal flag after at
    most [length / n + 1] calls, where [length] is the number of buffered
    samples. *)
Lemma drains_bounded (n : nat) (st : PCMProcessor) :
  0 < n -> shouldStop st = true ->
  ∃ blocks st',
    drains n st blocks st'
    ∧ length blocks ≤ length (buffered st) / n + 1
    ∧ concat blocks
      = buffered st ++ replicate (length blocks * n - length (buffered st)) 0%float
    ∧ length blocks * n - length (buffered st) ≤ n
    ∧ buffered st' = [].
Proof.
  intros Hn. remember (length (buffered st)) as len eqn:Hlen.
  revert st Hlen. induction len as [len IH] using lt_wf_ind. intros st Hlen Hstop.
  destruct (decide (len < n)) as [Hshort|Hlong].
  - exists [pull_block n (buffered st)], (mkPCMProcessor [] [] (shouldStop st)).
    split; [|split; [|split; [|split]]].
    + apply drains_last. rewrite process_underrun by lia. by rewrite Hstop.
    + cbn. lia.
    + cbn. rewrite app_nil_r, Nat.add_0_r, Hlen.
      apply pull_block_short. lia.
    + cbn. lia.
    + done.
  - destruct (process_block st n) as (st1 & c & Hp & Hb & Hs).
    assert (length (buffered st1) = len - n) as Hlen1
      by (rewrite Hb, length_drop; lia).
    destruct c.
    + destruct (IH (len - n) ltac:(lia) st1 ltac:(done) ltac:(congruence))
        as (blocks & st' & Hd & Hcount & Hcat & Hz & Hend).
      exists (pull_block n (buffered st) :: blocks), st'.
      assert (len / n = (len - n) / n + 1) as Hdiv.
      { replace len with ((len - n) + 1 * n) at 1 by lia.
        rewrite Nat.div_add by lia. done. }
      split; [|split; [|split; [|split]]].
      * by apply drains_more with st1.
      * cbn. lia.
      * cbn [concat length]. rewrite Hcat, Hb.
        rewrite pull_block_enough by lia.
        rewrite (assoc_L (++)), take_drop. do 2 f_equal. lia.
      * cbn [length]. lia.
      * done.
    + exists [pull_block n (buffered st)], st1.
      pose proof (process_flag _ _ _ _ _ Hp) as [Hflag _].
      symmetry in Hflag. apply negb_false_iff in Hflag.
      apply andb_prop in Hflag as [Hflag Hbuf]. apply andb_prop in Hflag as [_ Hq].
      apply bool_decide_eq_true in Hbuf, Hq.
      assert (buffered st1 = []) as Hnil by (unfold buffered; by rewrite Hbuf, Hq).
      rewrite Hnil in Hlen1. cbn in Hlen1.
      split; [|split; [|split; [|split]]].
      * by apply drains_last.
      * cbn. lia.
      * cbn [concat length]. rewrite app_nil_r.
        replace (1 * n - len) with 0 by lia. cbn [replicate].
        rewrite app_nil_r, pull_block_enough by lia. apply take_ge. lia.
      * cbn. lia.
      * done.
Qed.

(** A run of pulls ends with the terminal flag only on a stopped
    processor, and leaves it empty. *)
Lemma drains_stopped n st blocks st' :
  drains n st blocks st' -> shouldStop st = true ∧ buffered st' = [].
Proof.
  induction 1 as [st st' block Hp | st st1 st' block blocks Hp _ [IHs IHb]].
  - destruct (process_flag _ _ _ _ _ Hp) as [Hflag _].
    symmetry in Hflag. apply negb_false_iff in Hflag.
    apply andb_prop in Hflag as [Hflag Hb]. apply andb_prop in Hflag as [Hs Hq].
    apply bool_decide_eq_true in Hb, Hq.
    split; [done|]. unfold buffered. by rewrite Hb, Hq.
  - destruct (process_flag _ _ _ _ _ Hp) as [_ Hs].
    split; [congruence | done].
Qed.

(** C7.  A pull of [n] samples returns: it writes the first [n] buffered
    samples (zeros for the shortfall) to every channel and removes them
    from the processor.  The flag it returns is [false] (the terminal
    marker) exactly when STOP has been received and, after this pull,
    both the chunk queue and the contiguous buffer are empty.  Before
    STOP, or while a buffered sample remains, the flag is [true]; a
    stopped processor with nothing buffered returns [false].  Once STOP
    has been received, pulls of [n > 0] samples do reach the terminal
    marker, after at most [length / n + 1] pulls for [length] buffered
    samples, and the blocks written up to there are all the buffered
    samples, in order, followed by at most [n] zeros;
    the processor is then empty.  Every run of pulls that ends with the
    terminal marker is on a stopped processor and has written all the
    buffered samples, in order, followed only by zeros. *)
Theorem terminal_marker_after_drain
    (st : PCMProcessor) (output : list (list float)) (n : nat)
    (Hout : output ≠ [])
    (Hlen : Forall (λ ch, length ch = n) output) :
  ∃ st' continue,
    process st output
    = Some (st', replicate (length output) (pull_block n (buffered st)), continue)
    ∧ buffered st' = drop n (buffered st)
    ∧ shouldStop st' = shouldStop st
    ∧ (continue = false ↔
         shouldStop st = true ∧ bufferQueue st' = [] ∧ buffer st' = [])
    ∧ (shouldStop st = false -> continue = true)
    ∧ (buffered st' ≠ [] -> continue = true)
    ∧ (shouldStop st = true -> bufferQueue st = [] -> buffer st = [] ->
         continue = false)
    ∧ shouldStop (onmessage st STOP) = true
    ∧ (0 < n -> shouldStop st = true ->
         ∃ blocks st'',
           drains n st blocks st''
           ∧ length blocks ≤ length (buffered st) / n + 1
           ∧ concat blocks
             = buffered st
               ++ replicate (length blocks * n - length (buffered st)) 0%float
           ∧ length blocks * n - length (buffered st) ≤ n
           ∧ buffered st'' = [])
    ∧ (∀ blocks st'',
         drains n st blocks st'' ->
         shouldStop st = true
         ∧ buffered st'' = []
         ∧ ∃ k, concat blocks = buffered st ++ replicate k 0%float).
Proof.
  destruct (process_spec st output n Hout Hlen) as (st' & Hp & Hbuf & Hstop).
  exists st'. eexists. split; [exact Hp|].
  set (continue := negb (shouldStop st && bool_decide (bufferQueue st' = [])
                         && bool_decide (buffer st' = []))) in *.
  assert (continue = false ↔
     shouldStop st = true ∧ bufferQueue st' = [] ∧ buffer st' = []) as Hiff.
  { unfold continue.
    rewrite negb_false_iff, !andb_true_iff, !bool_decide_eq_true. tauto. }
  split; [exact Hbuf|]. split; [exact Hstop|]. split; [exact Hiff|].
  split; [|split; [|split; [|split; [|split]]]].
  - intros Hs. unfold continue. by rewrite Hs.
  - intros Hne. destruct continue; [done|].
    destruct Hiff as [Hiff _]. destruct (Hiff eq_refl) as (_ & Hq & Hb).
    contradict Hne. unfold buffered. by rewrite Hq, Hb.
  - intros Hs Hq Hb. apply Hiff. split; [done|].
    clearbody continue. clear -Hp Hq Hb. unfold process in Hp.
    destruct output as [|channel0 chans]; [done|].
    rewrite Hq, Hb in Hp. cbn [refill] in Hp.
    destruct (decide (length channel0 ≤ length (@nil float))) as [Hle|Hgt].
    + destruct (mapM _ _); [|done]. cbn in Hp.
      unfold TypedArray.subarray_from in Hp. rewrite drop_nil in Hp.
      destruct (shouldStop st && _ && _); by simplify_eq.
    + rewrite decide_False in Hp by (cbn; lia). cbn in Hp.
      destruct (shouldStop st && _ && _); by simplify_eq.
  - done.
  - intros Hn Hs. by apply drains_bounded.
  - intros blocks st'' Hd.
    destruct (drains_stopped _ _ _ _ Hd) as [Hs Hb].
    split; [done|]. split; [done|]. by apply (drains_all n st blocks st'').
Qed.

Lemma terminal_marker_after_drain_witness :
  ∃ st' continue,
    process (mkPCMProcessor [[1; 2]%float; [3]%float] [] true) [replicate 5 0%float]
    = Some (st', [[1; 2; 3; 0; 0]%float], continue)
    ∧ (continue = false ↔
         true = true ∧ bufferQueue st' = [] ∧ buffer st' = []).
Proof.
  destruct (terminal_marker_after_drain
              (mkPCMProcessor [[1; 2]%float; [3]%float] [] true)
              [replicate 5 0%float] 5)
    as (st' & continue & Hp & _ & _ & Hiff & _).
  - discriminate.
  - repeat constructor.
  - exists st', continue. split; [exact Hp | exact Hiff].
Defined.
End PlaybackBuffer.

(** ** The WAV header *)
Section WavHeader.
Import JS DataView Wav.
Local Open Scope Z_scope.

Lemma set_at_middle {A : Type} (pre old post source : list A) :
  length old = length source ->
  TypedArray.set_at (pre ++ old ++ post) source (length pre)
  = Some (pre ++ source ++ post).
Proof.
  intros Hlen. unfold TypedArray.set_at.
  rewrite decide_True by (rewrite !length_app; lia).
  rewrite take_app_length. do 3 f_equal.
  rewrite drop_app_ge by lia. rewrite drop_app_ge by lia.
  replace (length pre + length source - length pre - length old)%nat with 0%nat by lia.
  done.
Qed.

Lemma set_at_start {A : Type} (old post source : list A) :
  length old = length source ->
  TypedArray.set_at (old ++ post) source 0 = Some (source ++ post).
Proof. intros Hlen. by apply (set_at_middle [] old post source). Qed.

Lemma writeHeader_bytes (view : list byte)
    (totalSize numChannels sampleRate bytesPerSample bitsPerSample dataSize : Z) :
  (44 <= length view)%nat ->
  writeHeader view totalSize numChannels sampleRate bytesPerSample
    bitsPerSample dataSize
  = Some (headerBytes totalSize numChannels sampleRate bytesPerSample
            bitsPerSample dataSize ++ drop 44 view).
Proof.
  intros Hlen.
  do 44 (destruct view as [|? view]; [cbn in Hlen; lia|]). clear Hlen.
  unfold writeHeader, headerBytes, setUint32, setUint16.
  cbn [le_split].
  generalize (totalSize - 8)
    (ToUint32 (of_Z sampleRate * of_Z numChannels * of_Z bytesPerSample)%float)
    (ToUint16 (of_Z numChannels * of_Z bytesPerSample)%float).
  intros.
  repeat match goal with
         | |- context [byte.of_Z ?x] => generalize (byte.of_Z x); intro
         end.
  reflexivity.
Qed.

Lemma headerBytes_length totalSize numChannels sampleRate bytesPerSample
    bitsPerSample dataSize :
  length (headerBytes totalSize numChannels sampleRate bytesPerSample
            bitsPerSample dataSize) = 44%nat.
Proof. reflexivity. Qed.

Lemma getBytes_in (view : list byte) (offset : Z) (n : nat) :
  0 <= offset -> offset + Z.of_nat n <= Z.of_nat (length view) ->
  getBytes view offset n = Some (take n (drop (Z.to_nat offset) view)).
Proof.
  intros H0 Hn. unfold getBytes.
  destruct (Z.leb_spec 0 offset); [|lia].
  destruct (Z.leb_spec (offset + Z.of_nat n) (Z.of_nat (length view))); [|lia].
  done.
Qed.

Lemma ToUint16_mod (x : float) : ToUint16 x mod 2 ^ 16 = ToUint16 x.
Proof. unfold ToUint16. destruct (trunc x); [by rewrite Z.mod_mod|done]. Qed.

Lemma ToUint32_mod (x : float) : ToUint32 x mod 2 ^ 32 = ToUint32 x.
Proof. unfold ToUint32. destruct (trunc x); [by rewrite Z.mod_mod|done]. Qed.

(** Parsing a buffer laid out as the canonical header reads each field
    back from its own bytes. *)
Lemma parseHeader_fields (f1 f2 f3 f4 f5 f6 f7 f8 f9 rest : list byte) :
  length f1 = 4%nat -> length f2 = 4%nat -> length f3 = 2%nat ->
  length f4 = 2%nat -> length f5 = 4%nat -> length f6 = 4%nat ->
  length f7 = 2%nat -> length f8 = 2%nat -> length f9 = 4%nat ->
  parseHeader (list_byte_of_string "RIFF" ++ f1
               ++ list_byte_of_string "WAVE" ++ list_byte_of_string "fmt "
               ++ f2 ++ f3 ++ f4 ++ f5 ++ f6 ++ f7 ++ f8
               ++ list_byte_of_string "data" ++ f9 ++ rest)
  = Some (mkHeader (le_combine f1) (le_combine f2) (le_combine f3)
            (le_combine f4) (le_combine f5) (le_combine f6) (le_combine f7)
            (le_combine f8) (le_combine f9)).
Proof.
  intros H1 H2 H3 H4 H5 H6 H7 H8 H9.
  repeat match goal with
         | H : length ?f = _ |- _ =>
             destruct f as [|? [|? [|? [|? [|? ?]]]]]; try discriminate H; clear H
         end.
  unfold parseHeader, getUint32, getUint16.
  rewrite !getBytes_in by (cbn; lia).
  cbn -[le_combine]. rewrite decide_True by done. reflexivity.
Qed.

Lemma parseHeader_headerBytes totalSize numChannels sampleRate bytesPerSample
    bitsPerSample dataSize (rest : list byte) :
  parseHeader (headerBytes totalSize numChannels sampleRate bytesPerSample
                 bitsPerSample dataSize ++ rest)
  = Some {| ChunkSize := (totalSize - 8) mod 2 ^ 32;
            Subchunk1Size := 16;
            AudioFormat := 1;
            NumChannels := numChannels mod 2 ^ 16;
            SampleRate := sampleRate mod 2 ^ 32;
            ByteRate :=
              ToUint32 (of_Z sampleRate * of_Z numChannels * of_Z bytesPerSample)%float;
            BlockAlign := ToUint16 (of_Z numChannels * of_Z bytesPerSample)%float;
            BitsPerSample := bitsPerSample mod 2 ^ 16;
            Subchunk2Size := dataSize mod 2 ^ 32 |}.
Proof.
  unfold headerBytes. rewrite <- !(assoc_L (++)).
  rewrite parseHeader_fields by apply length_le_split.
  rewrite !le_combine_split, ToUint16_mod, ToUint32_mod. reflexivity.
Qed.
End WavHeader.

(** ** [bufferToWav] *)
Section BufferToWav.
Import JS DataView Wav.
Local Open Scope Z_scope.

Lemma trimToEven_even (data : list byte) :
  (length data mod 2 = 0)%nat -> trimToEven data = data.
Proof. intros H. unfold trimToEven. by rewrite decide_False by lia. Qed.

Lemma trimToEven_odd (data : list byte) :
  (length data mod 2 ≠ 0)%nat -> trimToEven data = take (length data - 1) data.
Proof. intros H. unfold trimToEven. by rewrite decide_True. Qed.

Lemma trimToEven_length_even (data : list byte) :
  (length (trimToEven data) mod 2 = 0)%nat.
Proof.
  unfold trimToEven. case_decide as H; [|lia].
  rewrite length_take.
  pose proof (Nat.div_mod_eq (length data) 2) as Hdm.
  pose proof (Nat.mod_upper_bound (length data) 2 ltac:(done)) as Hlt.
  rewrite Nat.min_l by lia.
  replace (length data - 1)%nat with (length data / 2 * 2)%nat by lia.
  apply Nat.Div0.mod_mul.
Qed.

Lemma paddingSize16_nonneg len sampleRate numChannels :
  0 <= len -> 0 < sampleRate -> 0 <= numChannels ->
  0 <= paddingSize16 len sampleRate numChannels.
Proof.
  intros Hlen Hsr Hch. unfold paddingSize16.
  assert (0 <= len / 2) as Hs by (apply Z.div_pos; lia).
  pose proof (Z.rem_bound_pos (len / 2) sampleRate Hs Hsr) as Hr.
  assert (0 <= Z.rem (sampleRate - Z.rem (len / 2) sampleRate) sampleRate)
    by (apply Z.rem_nonneg; lia).
  nia.
Qed.

Lemma rem_Int (a b : Z) : b ≠ 0 -> rem (Int a) (Int b) = Int (Z.rem a b).
Proof. intros Hb. unfold rem. by destruct (Z.eqb_spec b 0). Qed.

Lemma new_Uint8Array_Int (z : Z) :
  0 <= z -> new_Uint8Array (Int z) = Some (replicate (Z.to_nat z) Byte.x00).
Proof. intros Hz. unfold new_Uint8Array. by destruct (Z.leb_spec 0 z); [|lia]. Qed.

(** The output of [bufferToWav] for 16-bit samples, in closed form. *)
Lemma bufferToWav_16 (combinedChunks : list byte) (sampleRate numChannels : Z) :
  0 < sampleRate -> 0 <= numChannels ->
  let data := trimToEven combinedChunks in
  let padding := Z.to_nat (paddingSize16 (Z.of_nat (length data)) sampleRate numChannels) in
  let dataSize := Z.of_nat (length data + padding) in
  bufferToWav combinedChunks sampleRate numChannels 16
  = Some (headerBytes (44 + dataSize) numChannels sampleRate 2 16 dataSize
          ++ data ++ replicate padding Byte.x00).
Proof.
  intros Hsr Hch data padding dataSize. unfold bufferToWav.
  fold data. change (16 / 8) with 2.
  assert (0 <= paddingSize16 (Z.of_nat (length data)) sampleRate numChannels) as Hpad
    by (apply paddingSize16_nonneg; lia).
  rewrite (rem_Int _ sampleRate) by lia. cbn [lift2].
  rewrite (rem_Int _ sampleRate) by lia. cbn [lift2].
  change (Z.rem (sampleRate - Z.rem (Z.of_nat (length data) / 2) sampleRate) sampleRate
          * numChannels * 2)
    with (paddingSize16 (Z.of_nat (length data)) sampleRate numChannels).
  set (p := paddingSize16 (Z.of_nat (length data)) sampleRate numChannels) in *.
  rewrite (new_Uint8Array_Int p) by lia. cbn [mbind option_bind].
  rewrite (new_Uint8Array_Int (_ + p)) by lia. cbn [mbind option_bind].
  replace (Z.to_nat (Z.of_nat (length data) + p)) with (length data + padding)%nat
    by (subst padding; lia).
  fold padding.
  rewrite replicate_add.
  rewrite (set_at_start (replicate (length data) Byte.x00) _ data)
    by apply length_replicate.
  cbn [mbind option_bind].
  rewrite <- (app_nil_r (data ++ replicate padding Byte.x00)).
  rewrite <- (assoc_L (++)).
  rewrite (set_at_middle data (replicate padding Byte.x00) [] (replicate padding Byte.x00))
    by done.
  cbn [mbind option_bind]. rewrite app_nil_r.
  replace (Z.of_nat (length (data ++ replicate padding Byte.x00))) with dataSize
    by (subst dataSize; rewrite length_app, length_replicate; lia).
  rewrite (new_Uint8Array_Int 44) by lia. cbn [mbind option_bind].
  rewrite writeHeader_bytes by (rewrite length_replicate; lia).
  cbn [mbind option_bind].
  rewrite (new_Uint8Array_Int (44 + dataSize)) by lia. cbn [mbind option_bind].
  replace (Z.to_nat (44 + dataSize)) with (44 + (length data + padding))%nat
    by (subst dataSize; lia).
  rewrite replicate_add.
  set (hdr := headerBytes _ _ _ _ _ _ ++ _).
  assert (length hdr = 44%nat) as Hhdr by reflexivity.
  rewrite (set_at_start (replicate 44%nat Byte.x00) _ hdr)
    by (by rewrite length_replicate).
  cbn [mbind option_bind].
  rewrite <- (app_nil_r (replicate (length data + padding) Byte.x00)).
  change (Z.to_nat 44) with 44%nat. rewrite <- Hhdr.
  rewrite (set_at_middle hdr _ [] (data ++ replicate padding Byte.x00))
    by (rewrite length_replicate, length_app, length_replicate; lia).
  subst hdr. cbn [drop replicate]. rewrite !app_nil_r. reflexivity.
Qed.
End BufferToWav.

Section BufferToWavClaims.
Import JS DataView Wav.
Local Open Scope Z_scope.

(** C2, as stated, fails: [setUint16] keeps only the low 16 bits of the
    channel count, so 65536 channels are written as 0; and a sample rate
    of 0 makes the encoder throw on a non-empty input. *)
Lemma bufferToWav_header_counterexample :
  (∃ wav h,
     bufferToWav [Byte.x01; Byte.x02] 1 65536 16 = Some wav
     ∧ parseHeader wav = Some h
     ∧ NumChannels h = 0 ∧ NumChannels h ≠ 65536)
  ∧ bufferToWav [Byte.x01; Byte.x02] 0 1 16 = None.
Proof.
  split; [|vm_compute; reflexivity].
  eexists. eexists. split; [vm_compute; reflexivity|].
  split; [vm_compute; reflexivity|]. split; [reflexivity|discriminate].
Qed.

(** For every channel count the input is kept: the payload is the
    (trimmed) input followed by zero bytes only. *)
Lemma bufferToWav_payload (combinedChunks : list byte) (sampleRate numChannels : Z) :
  0 < sampleRate -> 0 <= numChannels ->
  ∃ wav,
    bufferToWav combinedChunks sampleRate numChannels 16 = Some wav
    ∧ payload wav
      = trimToEven combinedChunks
        ++ replicate (Z.to_nat (paddingSize16
                                  (Z.of_nat (length (trimToEven combinedChunks)))
                                  sampleRate numChannels)) Byte.x00.
Proof.
  intros Hrate Hchan. eexists. split; [by apply bufferToWav_16|].
  unfold payload. apply drop_app_length'. reflexivity.
Qed.

(** With one channel the padding does reach the next whole second: the
    payload length is the least multiple of [sampleRate * 2] that is at
    least the input length. *)
Lemma bufferToWav_mono_padding (combinedChunks : list byte) (sampleRate : Z) :
  (length combinedChunks mod 2 = 0)%nat -> 0 < sampleRate ->
  ∃ wav k,
    bufferToWav combinedChunks sampleRate 1 16 = Some wav
    ∧ payload wav = combinedChunks ++ replicate k Byte.x00
    ∧ (sampleRate * 1 * 2 | Z.of_nat (length (payload wav)))
    ∧ Z.of_nat (length combinedChunks) <= Z.of_nat (length (payload wav))
      < Z.of_nat (length combinedChunks) + sampleRate * 1 * 2.
Proof.
  intros Heven Hrate.
  destruct (bufferToWav_payload combinedChunks sampleRate 1) as (wav & Hwav & Hpay);
    [lia..|].
  rewrite (trimToEven_even _ Heven) in Hpay.
  exists wav. eexists. split; [exact Hwav|]. split; [exact Hpay|].
  rewrite Hpay, length_app, length_replicate.
  set (len := length combinedChunks) in *.
  assert (Z.of_nat len = 2 * (Z.of_nat len / 2)) as Hlen.
  { apply Z.div_exact; [lia|].
    change 2 with (Z.of_nat 2). rewrite <- Nat2Z.inj_mod, Heven. done. }
  set (s := Z.of_nat len / 2) in *.
  assert (0 <= s) by lia.
  unfold paddingSize16. fold s.
  rewrite (Z.rem_mod_nonneg s sampleRate) by lia.
  pose proof (Z.mod_pos_bound s sampleRate Hrate) as Hr.
  rewrite (Z.rem_mod_nonneg (sampleRate - _) sampleRate) by lia.
  pose proof (Z.div_mod s sampleRate ltac:(lia)) as Hs.
  set (r := s mod sampleRate) in *. set (q := s / sampleRate) in *.
  destruct (decide (r = 0)) as [Hr0|Hr0].
  - rewrite Hr0, Z.sub_0_r, Z.mod_same by lia.
    split; [exists q; lia | lia].
  - rewrite (Z.mod_small (sampleRate - r)) by lia.
    split; [exists (q + 1); lia | lia].
Qed.

(** C4 fails on the code: with two channels the padding is computed from
    the sample count of both channels together but multiplied by the
    channel count, and the padded payload is no whole number of seconds.
    Six bytes at 10 Hz stereo become 34 bytes, not 40. *)
Lemma bufferToWav_stereo_padding_misaligned :
  ∃ wav,
    bufferToWav (replicate 6 Byte.x01) 10 2 16 = Some wav
    ∧ length (payload wav) = 34%nat
    ∧ ¬ (10 * 2 * 2 | 34)
    ∧ (10 * 2 * 2 | 40) ∧ 6 <= 40 < 6 + 10 * 2 * 2.
Proof.
  eexists. split; [vm_compute; reflexivity|]. split; [reflexivity|].
  split; [|split; [by exists 1 | lia]].
  intros [k Hk]. lia.
Qed.

Lemma paddingSize16_aligned (len sampleRate numChannels : Z) :
  0 < sampleRate -> (sampleRate | len / 2) ->
  paddingSize16 len sampleRate numChannels = 0.
Proof.
  intros Hsr [k Hk]. unfold paddingSize16. rewrite Hk.
  rewrite Z.rem_mul by lia. rewrite Z.sub_0_r, Z.rem_same by lia. lia.
Qed.

(** With one channel, fewer than [2 * sampleRate] bytes are added. *)
Lemma paddingSize16_mono_bound (len sampleRate : Z) :
  0 <= len -> 0 < sampleRate ->
  0 <= paddingSize16 len sampleRate 1 < 2 * sampleRate.
Proof.
  intros Hlen Hsr. unfold paddingSize16.
  assert (0 <= len / 2) as Hs by (apply Z.div_pos; lia).
  pose proof (Z.rem_bound_pos (len / 2) sampleRate Hs Hsr) as Hr.
  pose proof (Z.rem_bound_pos (sampleRate - Z.rem (len / 2) sampleRate) sampleRate
                ltac:(lia) Hsr) as Hm.
  lia.
Qed.

(** C9.  With 16 bits per sample, and a sample rate and a channel count
    between -2^53 and 2^53, an input of odd length is encoded as the
    input without its last byte: the encoder gives exactly what it gives
    for the trimmed input, the same file or the same exception, so that
    the odd length raises none.  For a positive sample rate and a
    non-negative channel count, a file that is returned has as payload
    the trimmed input followed by zero bytes only.  With the default
    parameters (24000 Hz, one channel) a file is returned for every odd
    input, with fewer than 48000 bytes of padding. *)
Theorem bufferToWav_odd_trims
    (combinedChunks : list byte) (sampleRate numChannels : Z)
    (Hodd : (length combinedChunks mod 2 = 1)%nat)
    (Hrate : - 2 ^ 53 < sampleRate < 2 ^ 53)
    (Hchan : - 2 ^ 53 < numChannels < 2 ^ 53) :
  let trimmed := take (length combinedChunks - 1) combinedChunks in
  bufferToWav combinedChunks sampleRate numChannels 16
  = bufferToWav trimmed sampleRate numChannels 16
  ∧ (0 < sampleRate -> 0 <= numChannels ->
     ∀ wav,
       bufferToWav combinedChunks sampleRate numChannels 16 = Some wav ->
       ∃ k, payload wav = trimmed ++ replicate k Byte.x00
            ∧ length wav = (44 + length trimmed + k)%nat)
  ∧ ∃ wav k,
      bufferToWav combinedChunks 24000 1 16 = Some wav
      ∧ payload wav = trimmed ++ replicate k Byte.x00
      ∧ length wav = (44 + length trimmed + k)%nat
      ∧ Z.of_nat k < 48000.
Proof.
  intros trimmed.
  assert (trimToEven combinedChunks = trimmed) as Htrim
    by (apply trimToEven_odd; lia).
  assert (∀ sr ch, 0 < sr -> 0 <= ch ->
            bufferToWav combinedChunks sr ch 16
            = Some (headerBytes
                      (44 + Z.of_nat (length trimmed
                                      + Z.to_nat (paddingSize16
                                                    (Z.of_nat (length trimmed)) sr ch)))
                      ch sr 2 16
                      (Z.of_nat (length trimmed
                                 + Z.to_nat (paddingSize16
                                               (Z.of_nat (length trimmed)) sr ch)))
                    ++ trimmed
                    ++ replicate (Z.to_nat (paddingSize16
                                              (Z.of_nat (length trimmed)) sr ch))
                         Byte.x00)) as Hform.
  { intros sr ch Hsr Hch.
    pose proof (bufferToWav_16 combinedChunks sr ch Hsr Hch) as H.
    cbn zeta in H. by rewrite Htrim in H. }
  split; [|split].
  - unfold bufferToWav. rewrite Htrim.
    rewrite (trimToEven_even trimmed); [done|].
    rewrite <- Htrim. apply trimToEven_length_even.
  - intros Hpos Hnn wav Hwav.
    rewrite Hform in Hwav by lia. apply (inj Some) in Hwav. subst wav.
    eexists. split.
    + unfold payload. by apply drop_app_length'.
    + rewrite !length_app, headerBytes_length, length_replicate. lia.
  - eexists. eexists. split; [apply Hform; lia|].
    split; [unfold payload; by apply drop_app_length'|].
    split; [rewrite !length_app, headerBytes_length, length_replicate; lia|].
    pose proof (paddingSize16_mono_bound (Z.of_nat (length trimmed)) 24000
                  ltac:(lia) ltac:(lia)).
    lia.
Qed.

Lemma bufferToWav_odd_trims_witness :
  bufferToWav [Byte.x01; Byte.x02; Byte.x03] 3 1 16
  = bufferToWav [Byte.x01; Byte.x02] 3 1 16.
Proof.
  apply (bufferToWav_odd_trims [Byte.x01; Byte.x02; Byte.x03] 3 1).
  - reflexivity.
  - lia.
  - lia.
Defined.
End BufferToWavClaims.

(** ** Loops that fill a typed array index by index *)
Section IndexLoops.
Import JS DataView Pcm.

Lemma insert_loop_lookup {A : Type} (g : nat -> A) (out : list A) (n : nat) :
  n ≤ length out ->
  let out' := foldl (λ o i, <[i := g i]> o) out (seq 0 n) in
  length out' = length out
  ∧ ∀ i, (i < n -> out' !! i = Some (g i)) ∧ (n ≤ i -> out' !! i = out !! i).
Proof.
  induction n as [|n IH]; intros Hn; cbn zeta.
  - split; [done|]. intros i. split; [lia|done].
  - rewrite seq_S, foldl_app. cbn [foldl Nat.add].
    destruct IH as [Hlen IH]; [lia|].
    split; [by rewrite length_insert|].
    intros i. split.
    + intros Hi. destruct (decide (i = n)) as [->|Hne].
      * apply list_lookup_insert_eq. lia.
      * rewrite list_lookup_insert_ne by done. apply IH. lia.
    + intros Hi. rewrite list_lookup_insert_ne by lia. apply IH. lia.
Qed.

Lemma decodeLoop_lookup (pcmData : list byte) (g : nat -> float)
    (count i : nat) (float32Array : list float) :
  i + count ≤ length float32Array ->
  (∀ j, i ≤ j < i + count -> decodeSample pcmData j = Some (g j)) ->
  ∃ out,
    decodeLoop pcmData float32Array i count = Some out
    ∧ length out = length float32Array
    ∧ ∀ j, (i ≤ j < i + count -> out !! j = Some (g j))
           ∧ (j < i -> out !! j = float32Array !! j).
Proof.
  revert i float32Array. induction count as [|count IH]; intros i arr Hlen Hg.
  - exists arr. split; [done|]. split; [done|]. intros j. split; [lia|done].
  - cbn [decodeLoop]. rewrite (Hg i) by lia. cbn [mbind option_bind].
    destruct (IH (S i) (<[i := g i]> arr)) as (out & Hout & Hl & Hj).
    { rewrite length_insert. lia. }
    { intros j Hj. apply Hg. lia. }
    exists out. split; [exact Hout|]. split; [by rewrite Hl, length_insert|].
    intros j. split.
    + intros Hij. destruct (decide (j = i)) as [->|Hne].
      * destruct (Hj i) as [_ Hlt]. rewrite Hlt by lia.
        apply list_lookup_insert_eq. lia.
      * apply Hj. lia.
    + intros Hij. destruct (Hj j) as [_ Hlt]. rewrite Hlt by lia.
      apply list_lookup_insert_ne. lia.
Qed.

(** The 16-bit sample at index [i] of a PCM16 byte sequence. *)
Lemma getInt16_sample (pcmData : list byte) (i : nat) :
  2 * i + 2 ≤ length pcmData ->
  getInt16 pcmData (Z.of_nat i * 2)
  = Some (wrap16 (le_combine (take 2 (drop (2 * i) pcmData)))).
Proof.
  intros Hi. unfold getInt16, getUint16.
  rewrite getBytes_in by lia.
  replace (Z.to_nat (Z.of_nat i * 2)) with (2 * i) by lia. done.
Qed.

Lemma wrap16_range (z : Z) : (-32768 <= wrap16 z <= 32767)%Z.
Proof.
  unfold wrap16. pose proof (Z.mod_pos_bound z 65536 eq_refl).
  destruct (Z.leb_spec 32768 (z mod 65536)); lia.
Qed.

Lemma wrap16_small (z : Z) : (-32768 <= z <= 32767)%Z -> wrap16 z = z.
Proof.
  intros Hz. unfold wrap16.
  destruct (Z.leb_spec 32768 (z mod 65536)) as [Hge|Hlt].
  - destruct (Z_lt_le_dec z 0).
    + rewrite <- (Z.mod_add z 1 65536) by lia.
      rewrite Z.mod_small by lia. lia.
    + rewrite Z.mod_small in Hge by lia. lia.
  - destruct (Z_lt_le_dec z 0).
    + rewrite <- (Z.mod_add z 1 65536) in Hlt by lia.
      rewrite Z.mod_small in Hlt by lia. lia.
    + rewrite Z.mod_small by lia. lia.
Qed.
End IndexLoops.

(** ** [convertPCM16ToFloat32] *)
Section Convert.
Import JS DataView Pcm.

(** The samples [convertPCM16ToFloat32] decodes from an even-length
    input, before resampling. *)
Lemma convertPCM16ToFloat32_even (pcmData : list byte) (originalSampleRate targetSampleRate : float) :
  length pcmData mod 2 = 0 ->
  ∃ float32Array,
    convertPCM16ToFloat32 pcmData originalSampleRate targetSampleRate
    = resampleFloat32 float32Array originalSampleRate targetSampleRate
    ∧ length float32Array = length pcmData / 2
    ∧ ∀ i, i < length pcmData / 2 ->
        float32Array !! i
        = Some (fround (of_Z (wrap16 (le_combine (take 2 (drop (2 * i) pcmData))))
                        / 32768)%float).
Proof.
  intros Heven. unfold convertPCM16ToFloat32.
  rewrite decide_False by lia.
  pose proof (Nat.div_mod_eq (length pcmData) 2) as Hdm.
  destruct (decodeLoop_lookup pcmData
              (λ i, fround (of_Z (wrap16 (le_combine (take 2 (drop (2 * i) pcmData))))
                            / 32768)%float)
              (length pcmData / 2) 0
              (replicate (length pcmData / 2) 0%float))
    as (out & Hout & Hlen & Hget).
  { rewrite length_replicate. lia. }
  { intros j Hj. unfold decodeSample.
    rewrite getInt16_sample by lia. done. }
  rewrite Hout. cbn [mbind option_bind].
  exists out. split; [done|]. rewrite length_replicate in Hlen.
  split; [done|]. intros i Hi. apply Hget. lia.
Qed.

(** C8.  An input whose length is not a multiple of 2 gives the empty
    result, without an exception.  An input of even length is never
    answered by this early return: its [length / 2] samples are decoded
    and handed to the resampler, and with equal rates they are the
    result. *)
Theorem convertPCM16ToFloat32_odd_is_empty
    (pcmData : list byte) (originalSampleRate targetSampleRate : float) :
  (length pcmData mod 2 ≠ 0 ->
     convertPCM16ToFloat32 pcmData originalSampleRate targetSampleRate = Some [])
  ∧ (length pcmData mod 2 = 0 ->
     ∃ float32Array,
       length float32Array = length pcmData / 2
       ∧ convertPCM16ToFloat32 pcmData originalSampleRate targetSampleRate
         = resampleFloat32 float32Array originalSampleRate targetSampleRate
       ∧ ((originalSampleRate =? targetSampleRate)%float = true ->
          convertPCM16ToFloat32 pcmData originalSampleRate targetSampleRate
          = Some float32Array)).
Proof.
  split.
  - intros Hodd. unfold convertPCM16ToFloat32. by rewrite decide_True.
  - intros Heven.
    destruct (convertPCM16ToFloat32_even pcmData originalSampleRate
                targetSampleRate Heven) as (arr & Hconv & Hlen & _).
    exists arr. split; [done|]. split; [done|].
    intros Heq. rewrite Hconv. unfold resampleFloat32. by rewrite Heq.
Qed.

Lemma convertPCM16ToFloat32_odd_is_empty_witness :
  convertPCM16ToFloat32 [Byte.x00; Byte.x80; Byte.xff] 24000 44100 = Some [].
Proof.
  apply (convertPCM16ToFloat32_odd_is_empty [Byte.x00; Byte.x80; Byte.xff]
           24000 44100).
  cbn. lia.
Defined.
End Convert.

(** ** Binary64 arithmetic: the rounding of [SFmul]

  The float operations are specified by [SpecFloat] through the axioms of
  [FloatAxioms].  The lemmas below bound the integer part of a rounded
  product from the unrounded mantissa and exponent. *)
Section Rounding.
Local Open Scope Z_scope.

Lemma digits2_pos_size (p : positive) : digits2_pos p = Pos.size p.
Proof. induction p as [p IH|p IH|]; cbn; by rewrite ?IH. Qed.

Lemma digits2_upper (p : positive) : Zpos p < 2 ^ Zpos (digits2_pos p).
Proof.
  rewrite digits2_pos_size. pose proof (Pos.size_gt p) as H.
  apply Pos2Z.pos_lt_pos in H. by rewrite Pos2Z.inj_pow in H.
Qed.

Lemma digits2_le (p : positive) (k : Z) :
  0 <= k -> Zpos p < 2 ^ k -> Zpos (digits2_pos p) <= k.
Proof.
  intros Hk Hp. rewrite digits2_pos_size.
  destruct (Z_le_gt_dec (Zpos (Pos.size p)) k) as [|Hgt]; [done|].
  pose proof (Pos.size_le p) as Hle.
  apply Pos2Z.pos_le_pos in Hle. rewrite Pos2Z.inj_pow in Hle.
  assert (2 ^ (k + 1) <= 2 ^ Zpos (Pos.size p)) by (apply Z.pow_le_mono_r; lia).
  rewrite Z.pow_add_r in * by lia. change (Zpos p~0) with (2 * Zpos p) in Hle. lia.
Qed.

Lemma shr_1_m (mrs : shr_record) :
  0 <= shr_m mrs -> shr_m (shr_1 mrs) = shr_m mrs / 2.
Proof.
  destruct mrs as [m r s]. cbn [shr_m]. intros Hm.
  destruct m as [|[p|p|]|p]; cbn [shr_1 shr_m]; try lia; try done.
  - apply Z.div_unique with 1; lia.
  - apply Z.div_unique with 0; lia.
Qed.

Lemma iter_pos_shr_1_m (p : positive) (mrs : shr_record) :
  0 <= shr_m mrs ->
  shr_m (SpecFloat.iter_pos shr_1 p mrs) = shr_m mrs / 2 ^ Zpos p.
Proof.
  revert mrs. induction p as [p IH|p IH|]; intros mrs Hm; cbn [SpecFloat.iter_pos].
  - assert (0 <= shr_m (shr_1 mrs)) as H1
      by (rewrite shr_1_m by done; apply Z.div_pos; lia).
    assert (0 <= shr_m (SpecFloat.iter_pos shr_1 p (shr_1 mrs))) as H2
      by (rewrite IH by done; apply Z.div_pos; lia).
    rewrite IH, IH, shr_1_m by done.
    rewrite !Z.div_div by lia. f_equal.
    pose proof (Z.pow_twice_r 2 (Zpos p)) as Hpow.
    rewrite Pos2Z.inj_xI, Z.pow_add_r, Hpow by lia. lia.
  - assert (0 <= shr_m (SpecFloat.iter_pos shr_1 p mrs)) as H2
      by (rewrite IH by done; apply Z.div_pos; lia).
    rewrite IH, IH by done.
    rewrite !Z.div_div by lia. f_equal.
    pose proof (Z.pow_twice_r 2 (Zpos p)) as Hpow.
    change (2 * Zpos p) with (Zpos p~0) in Hpow. lia.
  - rewrite shr_1_m by done. done.
Qed.

(** [shr] divides the mantissa by the power of two it adds to the
    exponent. *)
Lemma shr_spec (mrs : shr_record) (e n : Z) :
  0 <= shr_m mrs ->
  let '(mrs', e') := shr mrs e n in
  e' = e + Z.max n 0 ∧ shr_m mrs' = shr_m mrs / 2 ^ Z.max n 0.
Proof.
  intros Hm. unfold shr. destruct n as [|p|p].
  - cbn. rewrite Z.add_0_r, Z.div_1_r. done.
  - rewrite Z.max_l by lia. split; [done|]. by apply iter_pos_shr_1_m.
  - cbn. rewrite Z.add_0_r, Z.div_1_r. done.
Qed.

Lemma shr_exact (m e n : Z) :
  n <= 0 -> shr (shr_record_of_loc m loc_Exact) e n
            = (shr_record_of_loc m loc_Exact, e).
Proof. intros Hn. unfold shr. destruct n; [done|lia|done]. Qed.

Lemma round_nearest_even_bounds (m : Z) (l : location) :
  m <= round_nearest_even m l <= m + 1.
Proof.
  unfold round_nearest_even. destruct l as [|[]]; try lia.
  destruct (Z.even m); lia.
Qed.
End Rounding.

Section RoundAux.
Local Open Scope Z_scope.

Lemma shr_m_of_loc (m : Z) (l : location) : shr_m (shr_record_of_loc m l) = m.
Proof. by destruct l as [|[]]. Qed.

(** The result of rounding the mantissa [M] at exponent [E]: with [n] the
    number of bits the first shift drops, the result is at most the
    truncated mantissa plus one unit in the last place. *)
Lemma binary_round_aux_upper (sx : bool) (M E : Z) (l : location)
    (s' : bool) (m' : positive) (e' : Z) :
  0 <= M ->
  binary_round_aux prec emax sx M E l = S754_finite s' m' e' ->
  let n := Z.max (fexp prec emax (Zdigits2 M + E) - E) 0 in
  s' = sx ∧ E + n <= e'
  ∧ Zpos m' * 2 ^ (e' - (E + n)) <= M / 2 ^ n + 1.
Proof.
  intros HM. unfold binary_round_aux, shr_fexp.
  pose proof (shr_spec (shr_record_of_loc M l) E
                (fexp prec emax (Zdigits2 M + E) - E)) as H1.
  rewrite shr_m_of_loc in H1. specialize (H1 HM).
  destruct (shr (shr_record_of_loc M l) E _) as [mrs1 e1].
  destruct H1 as [He1 Hm1].
  set (n := Z.max (fexp prec emax (Zdigits2 M + E) - E) 0) in *.
  pose proof (round_nearest_even_bounds (shr_m mrs1) (loc_of_shr_record mrs1)) as Hr.
  set (m2 := round_nearest_even (shr_m mrs1) (loc_of_shr_record mrs1)) in *.
  assert (0 <= shr_m mrs1) as Hm1pos by (rewrite Hm1; apply Z.div_pos; lia).
  pose proof (shr_spec (shr_record_of_loc m2 loc_Exact) e1
                (fexp prec emax (Zdigits2 m2 + e1) - e1)) as H2.
  rewrite shr_m_of_loc in H2. specialize (H2 ltac:(lia)).
  destruct (shr (shr_record_of_loc m2 loc_Exact) e1 _) as [mrs2 e2].
  destruct H2 as [He2 Hm2].
  destruct (shr_m mrs2) as [|p|p] eqn:Hp; [done| |done].
  destruct (e2 <=? emax - prec); [|done].
  intros [= -> -> ->]. cbn zeta.
  set (k := Z.max (fexp prec emax (Zdigits2 m2 + e1) - e1) 0) in *.
  split; [done|]. split; [lia|].
  replace (e' - (E + n)) with k by lia.
  rewrite <- Hm1.
  assert (Zpos m' * 2 ^ k <= m2); [|lia].
  rewrite Hm2, Z.mul_comm. apply Z.mul_div_le. lia.
Qed.

(** A product that is at most the integer [B] before rounding has an
    integer part of at most [B] after rounding. *)
Lemma binary_round_aux_floor_le (sx : bool) (M E : Z) (l : location) (B : Z)
    (s' : bool) (m' : positive) (e' : Z) :
  0 <= M -> E < 0 -> 0 < B < 2 ^ 52 ->
  M <= B * 2 ^ (- E) ->
  binary_round_aux prec emax sx M E l = S754_finite s' m' e' ->
  s' = sx ∧ Z.shiftl (Zpos m') e' <= B.
Proof.
  intros HM HE HB HMB Hround.
  destruct (binary_round_aux_upper sx M E l s' m' e' HM Hround) as (Hs & He & Hm).
  split; [done|].
  set (n := Z.max (fexp prec emax (Zdigits2 M + E) - E) 0) in *.
  set (K := - E) in *.
  assert (0 < 2 ^ K) as HK by (apply Z.pow_pos_nonneg; lia).
  assert (n < K) as Hn.
  { assert (Zdigits2 M <= 52 + K) as Hd.
    { destruct M as [|p|p]; [cbn; lia| |lia]. cbn [Zdigits2].
      apply digits2_le; [lia|].
      rewrite Z.pow_add_r by lia. nia. }
    unfold n, fexp, emin, prec, emax. lia. }
  assert (0 <= n) as Hn0 by (unfold n; lia).
  assert (0 < 2 ^ n) as Hpn by (apply Z.pow_pos_nonneg; lia).
  assert (2 ^ n < 2 ^ K) as Hnk by (apply Z.pow_lt_mono_r; lia).
  assert (M / 2 ^ n * 2 ^ n <= M) as Hdiv
    by (rewrite Z.mul_comm; apply Z.mul_div_le; lia).
  assert (Zpos m' * 2 ^ (e' + K) < (B + 1) * 2 ^ K) as Hscaled.
  { replace (e' + K) with (e' - (E + n) + n) by lia.
    rewrite Z.pow_add_r by lia.
    assert (0 < 2 ^ (e' - (E + n))) by (apply Z.pow_pos_nonneg; lia).
    nia. }
  destruct (Z_lt_le_dec e' 0) as [Hneg|Hpos].
  - rewrite <- (Z.opp_involutive e') at 1.
    rewrite Z.shiftl_opp_r, Z.shiftr_div_pow2 by lia.
    assert (0 < 2 ^ (- e')) by (apply Z.pow_pos_nonneg; lia).
    assert (0 < 2 ^ (e' + K)) by (apply Z.pow_pos_nonneg; lia).
    assert (2 ^ K = 2 ^ (e' + K) * 2 ^ (- e')) as HKe
      by (rewrite <- Z.pow_add_r by lia; f_equal; lia).
    assert (Zpos m' < (B + 1) * 2 ^ (- e')) as Hlt by nia.
    assert (Zpos m' / 2 ^ (- e') < B + 1); [|lia].
    apply Z.div_lt_upper_bound; lia.
  - rewrite Z.shiftl_mul_pow2 by lia.
    rewrite Z.pow_add_r in Hscaled by lia.
    assert (0 < 2 ^ e') by (apply Z.pow_pos_nonneg; lia).
    nia.
Qed.
End RoundAux.

(** ** Comparisons of binary64 floats *)
Section Comparisons.
Local Open Scope Z_scope.

Lemma SFcompare_antisym (x y : spec_float) (c : comparison) :
  SFcompare x y = Some c -> SFcompare y x = Some (CompOpp c).
Proof.
  destruct x as [sx|sx| |sx mx ex], y as [sy|sy| |sy my ey]; cbn;
    intros H; try discriminate H; injection H as <-;
    try (by destruct sx); try (by destruct sy); try (by destruct sx, sy).
  destruct sx, sy; try done.
  - rewrite (Z.compare_antisym ex ey).
    destruct (ex ?= ey); cbn; try done.
    by rewrite (Pos.compare_cont_antisym mx my Eq).
  - rewrite (Z.compare_antisym ex ey).
    destruct (ex ?= ey); cbn; try done.
    by rewrite (Pos.compare_cont_antisym mx my Eq).
Qed.

Lemma SFcompare_refl (x : spec_float) : x ≠ S754_nan -> SFcompare x x = Some Eq.
Proof.
  destruct x as [s|s| |s m e]; cbn; try done; intros _.
  - by destruct s.
  - rewrite Z.compare_refl, Pos.compare_cont_refl. by destruct s.
Qed.

Lemma is_nan_false (x : float) : is_nan x = false -> Prim2SF x ≠ S754_nan.
Proof.
  unfold is_nan. rewrite FloatAxioms.eqb_spec. intros H Hnan. rewrite Hnan in H. done.
Qed.

Lemma is_nan_true (x : float) : is_nan x = true -> x = nan.
Proof.
  unfold is_nan. rewrite FloatAxioms.eqb_spec. intros H. apply Prim2SF_inj.
  change (Prim2SF nan) with S754_nan.
  destruct (Prim2SF x) as [s|s| |s m e] eqn:Hx; [exfalso..|done|exfalso].
  - by destruct s.
  - by destruct s.
  - unfold SFeqb in H. rewrite SFcompare_refl in H; done.
Qed.

Lemma compare_defined (x y : float) :
  is_nan x = false -> is_nan y = false ->
  ∃ c, SFcompare (Prim2SF x) (Prim2SF y) = Some c.
Proof.
  intros Hx%is_nan_false Hy%is_nan_false.
  destruct (Prim2SF x), (Prim2SF y); cbn; try done; eauto.
Qed.

Lemma ltb_leb (x y : float) : (x <? y)%float = true -> (x <=? y)%float = true.
Proof.
  rewrite FloatAxioms.ltb_spec, FloatAxioms.leb_spec. unfold SFltb, SFleb.
  by destruct (SFcompare _ _) as [[]|].
Qed.

Lemma not_ltb_leb (x y : float) :
  is_nan x = false -> is_nan y = false ->
  (x <? y)%float = false -> (y <=? x)%float = true.
Proof.
  intros Hx Hy. rewrite FloatAxioms.ltb_spec, FloatAxioms.leb_spec. unfold SFltb, SFleb.
  destruct (compare_defined x y Hx Hy) as [c Hc].
  rewrite Hc, (SFcompare_antisym _ _ _ Hc). by destruct c.
Qed.

Lemma ltb_not_nan (x y : float) :
  (x <? y)%float = true -> is_nan x = false ∧ is_nan y = false.
Proof.
  unfold is_nan. rewrite FloatAxioms.ltb_spec, !FloatAxioms.eqb_spec. unfold SFltb, SFeqb.
  intros H.
  assert (Prim2SF x ≠ S754_nan ∧ Prim2SF y ≠ S754_nan) as [Hx Hy].
  { destruct (Prim2SF x), (Prim2SF y); done. }
  by rewrite !SFcompare_refl.
Qed.

Lemma leb_not_nan (x y : float) :
  (x <=? y)%float = true -> is_nan x = false ∧ is_nan y = false.
Proof.
  unfold is_nan. rewrite FloatAxioms.leb_spec, !FloatAxioms.eqb_spec. unfold SFleb, SFeqb.
  intros H.
  assert (Prim2SF x ≠ S754_nan ∧ Prim2SF y ≠ S754_nan) as [Hx Hy].
  { destruct (Prim2SF x), (Prim2SF y); done. }
  by rewrite !SFcompare_refl.
Qed.

Lemma ltb_asym (x y : float) : (x <? y)%float = true -> (y <? x)%float = false.
Proof.
  rewrite !FloatAxioms.ltb_spec. unfold SFltb.
  destruct (SFcompare (Prim2SF x) (Prim2SF y)) as [c|] eqn:Hc; [|done].
  rewrite (SFcompare_antisym _ _ _ Hc). by destruct c.
Qed.

Lemma eqb_refl_not_nan (x : float) : is_nan x = false -> (x =? x)%float = true.
Proof. unfold is_nan. by destruct (x =? x)%float. Qed.
End Comparisons.

(** ** The clamp of [writeWav] *)
Section Clamp.
Import JS Wav.

Lemma Math_min_nan_r (x y : float) : is_nan y = true -> Math_min x y = nan.
Proof. intros H. unfold Math_min. rewrite H, orb_true_r. done. Qed.

(** [Math.min(1, v)] for a number [v]: at most 1, and [v] itself when [v]
    is below 1. *)
Lemma Math_min_1 (v : float) :
  is_nan v = false ->
  is_nan (Math_min 1 v) = false
  ∧ (Math_min 1 v <=? 1)%float = true
  ∧ ((1 <? v)%float = true -> Math_min 1 v = 1%float)
  ∧ ((1 <? v)%float = false -> Math_min 1 v = v).
Proof.
  intros Hv. unfold Math_min. rewrite Hv.
  change (is_nan 1) with false. cbn [orb].
  change (get_sign 1) with false.
  destruct (1 <? v)%float eqn:H1.
  - repeat split; done.
  - assert ((if (v <? 1)%float then v else v) = v) as -> by by destruct (v <? 1)%float.
    repeat split; try done.
    by apply not_ltb_leb.
Qed.

(** [Math.max(-1, m)] for a number [m]: at least -1, and [m] itself when
    [m] is above -1. *)
Lemma Math_max_m1 (m : float) :
  is_nan m = false ->
  is_nan (Math_max (-1) m) = false
  ∧ (-1 <=? Math_max (-1) m)%float = true
  ∧ ((m <? -1)%float = true -> Math_max (-1) m = (-1)%float)
  ∧ ((m <? -1)%float = false -> Math_max (-1) m = m).
Proof.
  intros Hm. unfold Math_max. rewrite Hm.
  change (is_nan (-1)) with false. cbn [orb].
  change (get_sign (-1)) with true.
  destruct (-1 <? m)%float eqn:H1.
  - split; [done|]. split; [by apply ltb_leb|]. split; [|done].
    intros H2. apply ltb_asym in H1. congruence.
  - destruct (m <? -1)%float eqn:H2.
    + repeat split; done.
    + repeat split; try done. by apply not_ltb_leb.
Qed.
End Clamp.

Section RoundAuxFinite.
Local Open Scope Z_scope.

Lemma Zdigits2_le (m k : Z) : 0 <= m -> 0 <= k -> m < 2 ^ k -> Zdigits2 m <= k.
Proof.
  intros Hm Hk Hlt. destruct m as [|p|p]; [cbn; lia| |lia].
  cbn [Zdigits2]. by apply digits2_le.
Qed.

Lemma Zdigits2_upper (m : Z) : 0 <= m -> m < 2 ^ Zdigits2 m.
Proof.
  intros Hm. destruct m as [|p|p]; [cbn; lia| |lia].
  cbn [Zdigits2]. apply digits2_upper.
Qed.

(** Rounding a mantissa whose magnitude is far from the overflow
    threshold gives a zero or a finite number of the same sign. *)
Lemma binary_round_aux_finite (sx : bool) (M E : Z) (l : location) :
  0 <= M -> Zdigits2 M + E <= 1000 -> E <= 900 ->
  binary_round_aux prec emax sx M E l = S754_zero sx
  ∨ ∃ m' e', binary_round_aux prec emax sx M E l = S754_finite sx m' e'.
Proof.
  intros HM Hd HE. unfold binary_round_aux, shr_fexp.
  pose proof (shr_spec (shr_record_of_loc M l) E
                (fexp prec emax (Zdigits2 M + E) - E)) as H1.
  rewrite shr_m_of_loc in H1. specialize (H1 HM).
  destruct (shr (shr_record_of_loc M l) E _) as [mrs1 e1].
  destruct H1 as [He1 Hm1].
  set (n := Z.max (fexp prec emax (Zdigits2 M + E) - E) 0) in *.
  pose proof (round_nearest_even_bounds (shr_m mrs1) (loc_of_shr_record mrs1)) as Hr.
  set (m2 := round_nearest_even (shr_m mrs1) (loc_of_shr_record mrs1)) in *.
  assert (0 <= n) as Hn by (unfold n; lia).
  assert (0 < 2 ^ n) as Hpn by (apply Z.pow_pos_nonneg; lia).
  assert (0 <= shr_m mrs1) as Hm1pos by (rewrite Hm1; apply Z.div_pos; lia).
  pose proof (shr_spec (shr_record_of_loc m2 loc_Exact) e1
                (fexp prec emax (Zdigits2 m2 + e1) - e1)) as H2.
  rewrite shr_m_of_loc in H2. specialize (H2 ltac:(lia)).
  destruct (shr (shr_record_of_loc m2 loc_Exact) e1 _) as [mrs2 e2].
  destruct H2 as [He2 Hm2].
  assert (0 <= shr_m mrs2) as Hm2pos.
  { rewrite Hm2. apply Z.div_pos; [lia|]. apply Z.pow_pos_nonneg; lia. }
  destruct (shr_m mrs2) as [|p|p] eqn:Hp; [by left| |lia].
  right. exists p, e2.
  assert (e2 <= emax - prec) as Hle; [|by destruct (Z.leb_spec e2 (emax - prec)); [|lia]].
  assert (Zdigits2 m2 <= Z.max (Zdigits2 M - n + 1) 1) as Hd2.
  { pose proof (Zdigits2_upper M HM) as HMd.
    assert (0 <= Zdigits2 M) by (destruct M; cbn; lia).
    destruct (Z_le_gt_dec n (Zdigits2 M)) as [Hnd|Hnd].
    - apply Zdigits2_le; [lia|lia|].
      rewrite Z.max_l by lia.
      assert (M / 2 ^ n < 2 ^ (Zdigits2 M - n)).
      { apply Z.div_lt_upper_bound; [lia|].
        rewrite <- Z.pow_add_r by lia.
        replace (n + (Zdigits2 M - n)) with (Zdigits2 M) by lia. done. }
      rewrite Z.pow_add_r by lia. lia.
    - apply Zdigits2_le; [lia|lia|].
      assert (M / 2 ^ n = 0) as Hz.
      { apply Z.div_small. split; [done|].
        assert (2 ^ Zdigits2 M <= 2 ^ n) by (apply Z.pow_le_mono_r; lia). lia. }
      rewrite Z.max_r by lia. change (2 ^ 1) with 2. lia. }
  unfold fexp, emin, prec, emax in *. lia.
Qed.
End RoundAuxFinite.

(** ** The sample conversion of [writeWav] *)
Section SampleConversion.
Import JS Wav.
Local Open Scope Z_scope.

Lemma compare_cont_Z (p q : positive) :
  PosDef.Pos.compare_cont Eq p q = (Zpos p ?= Zpos q).
Proof. reflexivity. Qed.

(** A valid finite float of magnitude at most 1 has a negative exponent
    and a mantissa of at most [2 ^ (- e)]. *)
Lemma unit_interval_mantissa (sg : bool) (m : positive) (e : Z) :
  SpecFloat.valid_binary prec emax (S754_finite sg m e) = true ->
  SFleb (S754_finite sg m e) (Prim2SF 1) = true ->
  SFleb (Prim2SF (-1)) (S754_finite sg m e) = true ->
  e <= -52 ∧ Zpos m <= 2 ^ (- e).
Proof.
  change (Prim2SF 1) with (S754_finite false 4503599627370496 (-52)).
  change (Prim2SF (-1)) with (S754_finite true 4503599627370496 (-52)).
  cbn [SpecFloat.valid_binary]. unfold SpecFloat.bounded, canonical_mantissa.
  intros [Hcan _]%andb_prop Hle1 Hle2. apply Z.eqb_eq in Hcan.
  assert (Zpos m < 2 ^ 53) as Hm.
  { pose proof (digits2_upper m) as Hu.
    assert (Zpos (digits2_pos m) <= 53)
      by (unfold fexp, emin, prec, emax in Hcan; lia).
    assert (2 ^ Zpos (digits2_pos m) <= 2 ^ 53) by (apply Z.pow_le_mono_r; lia).
    lia. }
  assert (e < -52 ∨ (e = -52 ∧ Zpos m <= 4503599627370496)) as [He|[He Hm52]].
  { destruct sg; unfold SFleb in Hle1, Hle2; cbn [SFcompare] in Hle1, Hle2.
    - rewrite compare_cont_Z in Hle2.
      destruct (Z.compare_spec (-52) e) as [Heq|Hlt|Hgt].
      + right. split; [lia|].
        destruct (Z.compare_spec 4503599627370496 (Zpos m)) as [H|H|H];
          [lia | discriminate Hle2 | lia].
      + discriminate Hle2.
      + left. lia.
    - rewrite compare_cont_Z in Hle1.
      destruct (Z.compare_spec e (-52)) as [Heq|Hlt|Hgt].
      + right. split; [lia|].
        destruct (Z.compare_spec (Zpos m) 4503599627370496) as [H|H|H];
          [lia | lia | discriminate Hle1].
      + left. lia.
      + discriminate Hle1. }
  - split; [lia|].
    assert (2 ^ 53 <= 2 ^ (- e)) by (apply Z.pow_le_mono_r; lia). lia.
  - split; [lia|]. subst e. change (2 ^ (- -52)) with 4503599627370496. lia.
Qed.
End SampleConversion.

Section SampleConversionClaims.
Import JS Wav.
Local Open Scope Z_scope.

(** The scaled value of a sample in [-1, 1] is finite, and its integer
    part is a 16-bit integer. *)
Lemma scaleSample_trunc (s : float) :
  is_nan s = false ->
  (-1 <=? s)%float = true -> (s <=? 1)%float = true ->
  ∃ z, trunc (scaleSample s) = Some z ∧ -32768 <= z <= 32767.
Proof.
  intros Hnan Hlo Hhi. unfold scaleSample, trunc.
  rewrite FloatAxioms.leb_spec in Hlo, Hhi. rewrite FloatAxioms.ltb_spec.
  pose proof (Prim2SF_valid s) as Hvalid.
  apply is_nan_false in Hnan.
  change (Prim2SF 0) with (S754_zero false).
  destruct (Prim2SF s) as [sg|sg| |sg m e] eqn:Hs.
  - cbn [SFltb SFcompare]. rewrite FloatAxioms.mul_spec, Hs.
    change (Prim2SF 32767) with (S754_finite false 9006924376834048 (-38)).
    cbn [SF64mul SFmul trunc_SF]. exists 0. split; [done|lia].
  - exfalso. destruct sg; [by vm_compute in Hlo | by vm_compute in Hhi].
  - done.
  - destruct (unit_interval_mantissa sg m e Hvalid Hhi Hlo) as [He Hm].
    assert (0 < 2 ^ (- e)) as Hpe by (apply Z.pow_pos_nonneg; lia).
    unfold SFltb. cbn [SFcompare]. destruct sg.
    + rewrite FloatAxioms.mul_spec, Hs.
      change (Prim2SF 32768) with (S754_finite false 4503599627370496 (-37)).
      cbn [SF64mul SFmul xorb]. rewrite Pos2Z.inj_mul.
      set (M := Zpos m * 4503599627370496). set (E := e + -37).
      assert (M <= 32768 * 2 ^ (- E)) as HMB.
      { unfold M, E. replace (- (e + -37)) with (37 + - e) by lia.
        rewrite Z.pow_add_r by lia. change (2 ^ 37) with 137438953472. lia. }
      assert (0 < 2 ^ (- E)) by (apply Z.pow_pos_nonneg; lia).
      destruct (binary_round_aux_finite true M E loc_Exact) as [Hz|(m' & e' & Hf)].
      { lia. }
      { assert (Zdigits2 M <= 52 - E); [|lia].
        apply Zdigits2_le; [lia|lia|].
        replace (52 - E) with (- E + 52) by lia.
        rewrite Z.pow_add_r by lia. change (2 ^ 52) with 4503599627370496. lia. }
      { lia. }
      * rewrite Hz. exists 0. split; [done|lia].
      * rewrite Hf. cbn [trunc_SF cond_Zopp].
        destruct (binary_round_aux_floor_le true M E loc_Exact 32768 true m' e')
          as [_ Hle]; [lia|lia|lia|exact HMB|exact Hf|].
        pose proof (proj2 (Z.shiftl_nonneg (Zpos m') e') ltac:(lia)).
        eexists. split; [reflexivity|lia].
    + rewrite FloatAxioms.mul_spec, Hs.
      change (Prim2SF 32767) with (S754_finite false 9006924376834048 (-38)).
      cbn [SF64mul SFmul xorb]. rewrite Pos2Z.inj_mul.
      set (M := Zpos m * 9006924376834048). set (E := e + -38).
      assert (M <= 32767 * 2 ^ (- E)) as HMB.
      { unfold M, E. replace (- (e + -38)) with (38 + - e) by lia.
        rewrite Z.pow_add_r by lia. change (2 ^ 38) with 274877906944. lia. }
      assert (0 < 2 ^ (- E)) by (apply Z.pow_pos_nonneg; lia).
      destruct (binary_round_aux_finite false M E loc_Exact) as [Hz|(m' & e' & Hf)].
      { lia. }
      { assert (Zdigits2 M <= 52 - E); [|lia].
        apply Zdigits2_le; [lia|lia|].
        replace (52 - E) with (- E + 52) by lia.
        rewrite Z.pow_add_r by lia. change (2 ^ 52) with 4503599627370496. lia. }
      { lia. }
      * rewrite Hz. exists 0. split; [done|lia].
      * rewrite Hf. cbn [trunc_SF cond_Zopp].
        destruct (binary_round_aux_floor_le false M E loc_Exact 32767 false m' e')
          as [_ Hle]; [lia|lia|lia|exact HMB|exact Hf|].
        pose proof (proj2 (Z.shiftl_nonneg (Zpos m') e') ltac:(lia)).
        eexists. split; [reflexivity|lia].
Qed.

(** The clamp: what [Math.max(-1, Math.min(1, v))] is for a number [v]. *)
Lemma clampSample_cases (v : float) :
  is_nan v = false ->
  let s := clampSample v in
  is_nan s = false
  ∧ (-1 <=? s)%float = true ∧ (s <=? 1)%float = true
  ∧ ((1 <? v)%float = true -> s = 1%float)
  ∧ ((1 <? v)%float = false -> (v <? -1)%float = true -> s = (-1)%float)
  ∧ ((1 <? v)%float = false -> (v <? -1)%float = false -> s = v).
Proof.
  intros Hv. cbn zeta. unfold clampSample.
  destruct (Math_min_1 v Hv) as (Hmn & Hm1 & Hgt & Hle).
  destruct (Math_max_m1 (Math_min 1 v) Hmn) as (Hsn & Hs1 & Hlt & Hge).
  split; [done|]. split; [done|].
  split.
  { destruct (Math_min 1 v <? -1)%float eqn:Hc.
    - by rewrite Hlt.
    - by rewrite Hge. }
  split; [|split].
  - intros H1. rewrite Hge; rewrite (Hgt H1); done.
  - intros H1 H2. rewrite (Hle H1) in *. by apply Hlt.
  - intros H1 H2. rewrite (Hle H1) in *. by apply Hge.
Qed.

(** C3, as stated, fails: storing into the [Int16Array] truncates toward
    zero, it does not round.  For [v = 0.25] the scaled value is 8191.75;
    rounding gives 8192, the code gives 8191. *)
Lemma floatTo16BitPCM_counterexample :
  (clampSample 0.25 * 32767)%float = 8191.75%float
  ∧ to_integer (Math_round (clampSample 0.25 * 32767)) = Some 8192
  ∧ floatTo16BitPCM 0.25 = 8191.
Proof. repeat split; vm_compute; reflexivity. Qed.

(** C3, amended.  For every sample [v], with [s] the clamp of [v] to
    [-1, 1], the conversion produces the integer part (truncation toward
    zero, not rounding) of [s * 32768] when [s] is negative and of
    [s * 32767] otherwise; a NaN sample gives 0; and the result always
    lies in the signed 16-bit range. *)
Theorem floatTo16BitPCM_truncates (v : float) :
  let s := clampSample v in
  (is_nan v = true -> floatTo16BitPCM v = 0)
  ∧ (is_nan v = false ->
       (-1 <=? s)%float = true ∧ (s <=? 1)%float = true
       ∧ ((1 <? v)%float = true -> s = 1%float)
       ∧ ((1 <? v)%float = false -> (v <? -1)%float = true -> s = (-1)%float)
       ∧ ((1 <? v)%float = false -> (v <? -1)%float = false -> s = v)
       ∧ trunc (if (s <? 0)%float then (s * 32768)%float else (s * 32767)%float)
         = Some (floatTo16BitPCM v))
  ∧ -32768 <= floatTo16BitPCM v <= 32767.
Proof.
  cbn zeta.
  assert (is_nan v = false ->
          ∃ z, trunc (scaleSample (clampSample v)) = Some z
               ∧ -32768 <= z <= 32767 ∧ floatTo16BitPCM v = z) as Hfin.
  { intros Hv. destruct (clampSample_cases v Hv) as (Hn & Hlo & Hhi & _).
    destruct (scaleSample_trunc _ Hn Hlo Hhi) as (z & Hz & Hrange).
    exists z. split; [done|]. split; [done|].
    unfold floatTo16BitPCM, ToInt16. rewrite Hz. by apply wrap16_small. }
  split; [|split].
  - intros Hv. by rewrite (is_nan_true v Hv).
  - intros Hv. destruct (clampSample_cases v Hv) as (Hn & Hlo & Hhi & H1 & H2 & H3).
    destruct (Hfin Hv) as (z & Hz & _ & ->).
    repeat (split; [done|]). exact Hz.
  - destruct (is_nan v) eqn:Hv.
    + rewrite (is_nan_true v Hv). by vm_compute.
    + destruct (Hfin eq_refl) as (z & _ & Hrange & ->). done.
Qed.

Lemma floatTo16BitPCM_truncates_witness :
  trunc (if (clampSample 0.25 <? 0)%float
         then (clampSample 0.25 * 32768)%float
         else (clampSample 0.25 * 32767)%float)
  = Some (floatTo16BitPCM 0.25).
Proof.
  apply (floatTo16BitPCM_truncates 0.25). reflexivity.
Defined.
End SampleConversionClaims.

(** ** [writeWav] on one channel, and the PCM16 round trip *)
Section RoundTrip.
Import JS DataView Wav Pcm RoundTrip.
Local Open Scope Z_scope.

Lemma writeString_from_middle (bs pre old post : list byte) :
  length old = length bs ->
  writeString_from (pre ++ old ++ post) (Z.of_nat (length pre)) bs
  = Some (pre ++ bs ++ post).
Proof.
  revert pre old. induction bs as [|c bs IH]; intros pre old Hlen.
  - destruct old; [done|discriminate Hlen].
  - destruct old as [|o old]; [discriminate Hlen|].
    cbn [writeString_from]. unfold setUint8, setBytes.
    destruct (Z.leb_spec 0 (Z.of_nat (length pre))) as [_|]; [|lia].
    rewrite Nat2Z.id.
    change (le_split 1 (byte.unsigned c)) with [byte.of_Z (byte.unsigned c)].
    rewrite byte.of_Z_unsigned.
    change ((o :: old) ++ post) with ([o] ++ old ++ post).
    rewrite (set_at_middle pre [o] (old ++ post) [c]) by done.
    cbn [mbind option_bind].
    replace (Z.of_nat (length pre) + 1) with (Z.of_nat (length (pre ++ [c])))
      by (rewrite length_app; cbn; lia).
    rewrite (assoc_L (++) pre [c]).
    rewrite (IH (pre ++ [c]) old) by (cbn in Hlen; lia).
    by rewrite <- (assoc_L (++)).
Qed.

Lemma int16Bytes_length (output : list Z) :
  length (int16Bytes output) = (2 * length output)%nat.
Proof.
  unfold int16Bytes. induction output as [|y output IH]; [done|].
  cbn [flat_map]. rewrite length_app, IH, length_le_split. cbn. lia.
Qed.

Lemma int16Bytes_sample (output : list Z) (i : nat) (y : Z) :
  output !! i = Some y ->
  take 2 (drop (2 * i) (int16Bytes output)) = le_split 2 y.
Proof.
  unfold int16Bytes. revert i. induction output as [|y0 output IH]; intros i Hi.
  - done.
  - destruct i as [|i].
    + injection Hi as ->. done.
    + replace (2 * S i)%nat with (2 + 2 * i)%nat by lia.
      cbn [flat_map]. rewrite <- drop_drop.
      rewrite (drop_app_length' (le_split 2 y0)) by done.
      by apply IH.
Qed.

Lemma wrap16_mod (z : Z) : wrap16 (z mod 2 ^ (Z.of_nat 2 * 8)) = wrap16 z.
Proof.
  unfold wrap16. change (2 ^ (Z.of_nat 2 * 8)) with 65536.
  by rewrite Z.mod_mod by lia.
Qed.

(** The file [writeWav] builds for one channel: the header, then the
    converted samples, two bytes each. *)
Lemma writeWav_mono (channel : list float) (sampleRate : Z) :
  let length := Z.of_nat (length channel) * 1 * 2 + 44 in
  writeWav (AudioBuffer.mk [channel] sampleRate 1 (Z.of_nat (List.length channel)))
  = Some (headerBytes length 1 sampleRate 2 16 (length - 44)
          ++ int16Bytes (floatTo16BitPCM <$> channel)).
Proof.
  intros len. unfold writeWav. cbn [AudioBuffer.numberOfChannels
    AudioBuffer.length AudioBuffer.sampleRate AudioBuffer.channelData].
  fold len. rewrite new_Uint8Array_Int by lia. cbn [mbind option_bind].
  replace (Z.to_nat len) with (44 + 2 * List.length channel)%nat by lia.
  rewrite replicate_add.
  rewrite writeHeader_bytes by (rewrite length_app, length_replicate; cbn; lia).
  cbn [mbind option_bind].
  rewrite (drop_app_length' (replicate 44%nat Byte.x00)) by done.
  change (Z.to_nat 1) with 1%nat. cbn [writeChannels lookup list_lookup].
  cbn [mbind option_bind].
  set (hdr := headerBytes _ _ _ _ _ _).
  set (bytes := int16Bytes (floatTo16BitPCM <$> channel)).
  change 44 with (Z.of_nat (List.length hdr)).
  rewrite <- (app_nil_r (replicate _ Byte.x00)).
  rewrite (writeString_from_middle bytes hdr _ [])
    by (subst bytes; rewrite int16Bytes_length, length_fmap, length_replicate; done).
  cbn [mbind option_bind]. by rewrite app_nil_r.
Qed.

Lemma forall_range_spec (p : Z -> bool) (n : nat) (lo z : Z) :
  forall_range p lo n = true -> lo <= z < lo + Z.of_nat n -> p z = true.
Proof.
  revert lo. induction n as [|n IH]; intros lo Hall Hz; [lia|].
  cbn [forall_range] in Hall. apply andb_prop in Hall as [Hlo Hall].
  destruct (decide (z = lo)) as [->|Hne]; [done|].
  apply (IH (lo + 1)); [done|lia].
Qed.

Lemma roundTripSample_all :
  forall_range roundTripSample_ok (-32768) (Z.to_nat 65536) = true.
Proof. vm_compute. reflexivity. Qed.

(** Every negative sample and zero comes back unchanged, every positive
    sample comes back one lower. *)
Lemma roundTripSample_spec (x : Z) :
  -32768 <= x <= 32767 ->
  roundTripSample x = if 0 <? x then x - 1 else x.
Proof.
  intros Hx. apply Z.eqb_eq.
  apply (forall_range_spec roundTripSample_ok (Z.to_nat 65536) (-32768) x
           roundTripSample_all). lia.
Qed.
End RoundTrip.

Section RoundTripClaim.
Import JS DataView Wav Pcm RoundTrip.
Local Open Scope Z_scope.

(** C5.  For every PCM16 byte sequence of even length, decoding it with
    [convertPCM16ToFloat32] at equal rates and encoding the floats with
    [writeWav] gives a payload of the same length in which every 16-bit
    sample is the original one when that is negative or zero and one
    lower when it is positive: within one least-significant bit. *)
Theorem pcm16_round_trip
    (pcmData : list byte) (rate : float) (sampleRate : Z)
    (Heven : (length pcmData mod 2 = 0)%nat)
    (Hrate : (rate =? rate)%float = true) :
  ∃ floats wav,
    convertPCM16ToFloat32 pcmData rate rate = Some floats
    ∧ writeWav (AudioBuffer.mk [floats] sampleRate 1 (Z.of_nat (length floats)))
      = Some wav
    ∧ length (payload wav) = length pcmData
    ∧ ∀ i, (i < length pcmData / 2)%nat ->
        ∃ x y,
          getInt16 pcmData (Z.of_nat i * 2) = Some x
          ∧ getInt16 (payload wav) (Z.of_nat i * 2) = Some y
          ∧ y = (if 0 <? x then x - 1 else x)
          ∧ Z.abs (y - x) <= 1.
Proof.
  destruct (convertPCM16ToFloat32_even pcmData rate rate Heven)
    as (floats & Hconv & Hlen & Hget).
  assert (convertPCM16ToFloat32 pcmData rate rate = Some floats) as Hfloats.
  { rewrite Hconv. unfold resampleFloat32. by rewrite Hrate. }
  exists floats. eexists. split; [exact Hfloats|].
  split; [apply writeWav_mono|].
  pose proof (Nat.div_mod_eq (length pcmData) 2) as Hdm.
  assert (payload
            (headerBytes (Z.of_nat (length floats) * 1 * 2 + 44) 1 sampleRate 2 16
               (Z.of_nat (length floats) * 1 * 2 + 44 - 44)
             ++ int16Bytes (floatTo16BitPCM <$> floats))
          = int16Bytes (floatTo16BitPCM <$> floats)) as ->.
  { unfold payload. by apply drop_app_length'. }
  split.
  { rewrite int16Bytes_length, length_fmap, Hlen. lia. }
  intros i Hi.
  set (x := wrap16 (le_combine (take 2 (drop (2 * i) pcmData)))).
  exists x, (roundTripSample x).
  assert (-32768 <= x <= 32767) as Hx by apply wrap16_range.
  pose proof (roundTripSample_spec x Hx) as Hrt.
  split; [apply getInt16_sample; lia|].
  split.
  - rewrite getInt16_sample
      by (rewrite int16Bytes_length, length_fmap, Hlen; lia).
    rewrite (int16Bytes_sample _ i (roundTripSample x)).
    2:{ rewrite list_lookup_fmap, (Hget i Hi). done. }
    rewrite le_combine_split, wrap16_mod.
    f_equal. apply wrap16_small. rewrite Hrt. destruct (0 <? x) eqn:Hpos; lia.
  - split; [exact Hrt|]. rewrite Hrt. destruct (0 <? x) eqn:Hpos; lia.
Qed.

Lemma pcm16_round_trip_witness :
  ∃ floats wav,
    convertPCM16ToFloat32 [Byte.x00; Byte.x80; Byte.xff; Byte.x7f] 24000 24000
    = Some floats
    ∧ writeWav (AudioBuffer.mk [floats] 24000 1 (Z.of_nat (length floats)))
      = Some wav
    ∧ length (payload wav) = 4%nat.
Proof.
  destruct (pcm16_round_trip [Byte.x00; Byte.x80; Byte.xff; Byte.x7f] 24000 24000)
    as (floats & wav & Hf & Hw & Hl & _).
  - reflexivity.
  - reflexivity.
  - exists floats, wav. split; [exact Hf|]. split; [exact Hw | exact Hl].
Defined.
End RoundTripClaim.

(** ** [resampleFloat32] *)
Section Resample.
Import JS Pcm.

Lemma positive_eqb_refl (r : float) : (0 <? r)%float = true -> (r =? r)%float = true.
Proof. intros [_ Hr]%ltb_not_nan. by apply eqb_refl_not_nan. Qed.

(** The unequal-rates branch: the length of the result and each of its
    elements. *)
Lemma resampleFloat32_elements (inputArray out : list float)
    (originalRate targetRate : float) :
  (originalRate =? targetRate)%float = false ->
  resampleFloat32 inputArray originalRate targetRate = Some out ->
  let ratio := (targetRate / originalRate)%float in
  ToIndex (Math_round (of_nat (length inputArray) * ratio)) = Some (length out)
  ∧ ∀ i, i < length out -> out !! i = Some (interpolate inputArray ratio i).
Proof.
  intros Hne. unfold resampleFloat32, new_Float32Array. rewrite Hne.
  cbn zeta. set (ratio := (targetRate / originalRate)%float).
  destruct (ToIndex _) as [n|]; [|done]. cbn [mbind option_bind].
  rewrite length_replicate. intros [= <-].
  destruct (insert_loop_lookup (interpolate inputArray ratio)
              (replicate n 0%float) n) as [Hlen Hget].
  { by rewrite length_replicate. }
  rewrite Hlen, length_replicate. split; [done|].
  intros i Hi. by apply Hget.
Qed.

(** C6.  With equal positive rates the input is returned unchanged.  With
    unequal rates and [ratio = targetRate / originalRate], the result has
    [Math.round(length * ratio)] elements, and element [i] is the linear
    interpolation, stored as a float32, of the input at [index0 =
    Math.floor(i / ratio)] and [index1 = Math.min(index0 + 1, length - 1)]
    with weight [t = i / ratio - index0].  Resampling the ramp
    [0, 1, ..., 9] / 9 from 10 Hz to 20 Hz gives 20 non-decreasing values,
    the first equal to [input[0]] and the last to [input[9]]. *)
Theorem resampleFloat32_interpolates
    (inputArray : list float) (originalRate targetRate : float) :
  ((0 <? originalRate)%float = true ->
     resampleFloat32 inputArray originalRate originalRate = Some inputArray)
  ∧ ((originalRate =? targetRate)%float = true ->
     resampleFloat32 inputArray originalRate targetRate = Some inputArray)
  ∧ ((originalRate =? targetRate)%float = false ->
     ∀ out, resampleFloat32 inputArray originalRate targetRate = Some out ->
       let ratio := (targetRate / originalRate)%float in
       ToIndex (Math_round (of_nat (length inputArray) * ratio)) = Some (length out)
       ∧ ∀ i, i < length out ->
           let srcIndex := (of_nat i / ratio)%float in
           let index0 := Math_floor srcIndex in
           let index1 :=
             Math_min (index0 + 1)%float (of_nat (length inputArray) - 1)%float in
           let t := (srcIndex - index0)%float in
           out !! i
           = Some (fround ((1 - t) * get inputArray index0
                           + t * get inputArray index1)%float))
  ∧ (∃ out,
       resampleFloat32 ramp 10 20 = Some out
       ∧ length out = 20
       ∧ (∀ i x y, out !! i = Some x -> out !! S i = Some y ->
                   (x <=? y)%float = true)
       ∧ out !! 0 = ramp !! 0
       ∧ out !! 19 = ramp !! 9).
Proof.
  split; [|split; [|split]].
  - intros Hpos. unfold resampleFloat32. by rewrite positive_eqb_refl.
  - intros Heq. unfold resampleFloat32. by rewrite Heq.
  - intros Hne out Hout. exact (resampleFloat32_elements _ _ _ _ Hne Hout).
  - eexists. split; [vm_compute; reflexivity|].
    split; [reflexivity|]. split; [|split; vm_compute; reflexivity].
    intros i x y Hx Hy.
    do 20 (destruct i as [|i]; [cbn in Hx, Hy; simplify_eq; reflexivity|]).
    done.
Qed.

Lemma resampleFloat32_interpolates_witness :
  resampleFloat32 [0.5; 0.25]%float 24000 24000 = Some [0.5; 0.25]%float.
Proof.
  apply (resampleFloat32_interpolates [0.5; 0.25]%float 24000 24000).
  reflexivity.
Defined.
End Resample.

(** ** Integers in binary64: conversion, comparison, addition *)
Section CanonicalIntegers.
Import Binary64.
Local Open Scope Z_scope.

Lemma Zdigits2_log2 (z : Z) : 0 < z -> Zdigits2 z = Z.log2 z + 1.
Proof.
  intros Hz. destruct z as [|p|p]; try lia. cbn [Zdigits2].
  pose proof (digits2_upper p) as Hu.
  assert (2 ^ (Zpos (digits2_pos p) - 1) <= Zpos p) as Hl.
  { rewrite digits2_pos_size. pose proof (Pos.size_le p) as Hle.
    apply Pos2Z.pos_le_pos in Hle. rewrite Pos2Z.inj_pow in Hle.
    replace (Zpos (Pos.size p)) with (Zpos (Pos.size p) - 1 + 1) in Hle by lia.
    rewrite Z.pow_add_r in Hle by lia. change (Zpos p~0) with (2 * Zpos p) in Hle.
    lia. }
  assert (Z.log2 (Zpos p) = Zpos (digits2_pos p) - 1) as ->; [|lia].
  apply Z.log2_unique; [lia|].
  replace (Z.succ (Zpos (digits2_pos p) - 1)) with (Zpos (digits2_pos p)) by lia. lia.
Qed.

Lemma Zdigits2_mul_pow2 (z k : Z) :
  0 < z -> 0 <= k -> Zdigits2 (z * 2 ^ k) = Zdigits2 z + k.
Proof.
  intros Hz Hk. assert (0 < 2 ^ k) by (apply Z.pow_pos_nonneg; lia).
  rewrite !Zdigits2_log2 by nia. rewrite Z.log2_mul_pow2 by lia. lia.
Qed.

Lemma digits2_pos_bound (c : positive) :
  Zpos c < 2 ^ 53 -> 1 <= Zpos (digits2_pos c) <= 53.
Proof. intros Hc. split; [lia|]. by apply digits2_le. Qed.

Lemma iter_xO_Z (m d : positive) : Zpos (Pos.iter xO m d) = Zpos m * 2 ^ Zpos d.
Proof.
  induction d as [|d IH] using Pos.peano_ind.
  - cbn [Pos.iter]. change (2 ^ 1) with 2. lia.
  - rewrite Pos.iter_succ, Pos2Z.inj_xO, IH, Pos2Z.inj_succ, Z.pow_succ_r by lia. lia.
Qed.

(** Shifting out zero bits is exact. *)
Lemma shr_1_even (m : Z) :
  0 <= m ->
  shr_1 (Build_shr_record (2 * m) false false) = Build_shr_record m false false.
Proof. intros Hm. destruct m as [|p|p]; [done|done|lia]. Qed.

Lemma iter_shr_1_pow2 (p : positive) (m : Z) :
  0 <= m ->
  SpecFloat.iter_pos shr_1 p (Build_shr_record (m * 2 ^ Zpos p) false false)
  = Build_shr_record m false false.
Proof.
  revert m. induction p as [p IH|p IH|]; intros m Hm; cbn [SpecFloat.iter_pos].
  - pose proof (Z.pow_twice_r 2 (Zpos p)) as Hpow.
    assert (0 < 2 ^ Zpos p) by (apply Z.pow_pos_nonneg; lia).
    replace (m * 2 ^ Zpos p~1) with (2 * (m * 2 ^ Zpos p * 2 ^ Zpos p))
      by (rewrite Pos2Z.inj_xI, Z.pow_add_r, Hpow by lia; lia).
    rewrite shr_1_even by nia. rewrite IH by nia. by apply IH.
  - pose proof (Z.pow_twice_r 2 (Zpos p)) as Hpow.
    change (2 * Zpos p) with (Zpos p~0) in Hpow.
    assert (0 < 2 ^ Zpos p) by (apply Z.pow_pos_nonneg; lia).
    replace (m * 2 ^ Zpos p~0) with (m * 2 ^ Zpos p * 2 ^ Zpos p)
      by (rewrite Hpow; lia).
    rewrite IH by nia. by apply IH.
  - change (2 ^ 1) with 2. rewrite Z.mul_comm. by apply shr_1_even.
Qed.

Lemma shr_pow2 (m e n : Z) :
  0 <= m -> 0 <= n ->
  shr (Build_shr_record (m * 2 ^ n) false false) e n
  = (Build_shr_record m false false, e + n).
Proof.
  intros Hm Hn. unfold shr. destruct n as [|p|p]; [|by rewrite iter_shr_1_pow2|lia].
  by rewrite Z.mul_1_r, Z.add_0_r.
Qed.

(** Rounding a 53-bit mantissa followed by [n] zero bits. *)
Lemma binary_round_aux_exact (sx : bool) (C : positive) (n e : Z) :
  Zdigits2 (Zpos C) = 53 -> 0 <= n -> -1074 <= e <= 971 ->
  binary_round_aux prec emax sx (Zpos C * 2 ^ n) (e - n) loc_Exact
  = S754_finite sx C e.
Proof.
  intros HC Hn He. unfold binary_round_aux, shr_fexp.
  rewrite Zdigits2_mul_pow2 by lia. rewrite HC.
  replace (fexp prec emax (53 + n + (e - n)) - (e - n)) with n
    by (unfold fexp, emin, prec, emax; lia).
  cbn [shr_record_of_loc]. rewrite shr_pow2 by lia.
  cbn [shr_m loc_of_shr_record round_nearest_even]. rewrite HC.
  replace (e - n + n) with e by lia.
  replace (fexp prec emax (53 + e) - e) with 0
    by (unfold fexp, emin, prec, emax; lia).
  cbn [shr shr_m].
  destruct (Z.leb_spec e (emax - prec)) as [_|Hgt]; [done|].
  unfold emax, prec in Hgt. lia.
Qed.

Lemma canon_mantissa (c : positive) :
  Zpos c < 2 ^ 53 ->
  let d := Zpos (digits2_pos c) in
  Zpos (Z.to_pos (Zpos c * 2 ^ (53 - d))) = Zpos c * 2 ^ (53 - d)
  ∧ Zdigits2 (Zpos c * 2 ^ (53 - d)) = 53.
Proof.
  intros Hc d. pose proof (digits2_pos_bound c Hc) as Hd. fold d in Hd.
  assert (0 < 2 ^ (53 - d)) by (apply Z.pow_pos_nonneg; lia).
  split; [rewrite Z2Pos.id; nia|].
  rewrite Zdigits2_mul_pow2 by lia. cbn [Zdigits2]. fold d. lia.
Qed.

(** [binary_round] of the integer [c], given as [m * 2 ^ e] with [e <= 0]. *)
Lemma binary_round_signed (sx : bool) (c m : positive) (e : Z) :
  Zpos c < 2 ^ 53 -> e <= 0 -> Zpos m = Zpos c * 2 ^ (- e) ->
  binary_round prec emax sx m e
  = S754_finite sx (Z.to_pos (Zpos c * 2 ^ (53 - Zpos (digits2_pos c))))
      (Zpos (digits2_pos c) - 53).
Proof.
  intros Hc He Hm. unfold binary_round.
  destruct (canon_mantissa c Hc) as [HC HdC]. cbn zeta in HC, HdC.
  pose proof (digits2_pos_bound c Hc) as Hd.
  set (d := Zpos (digits2_pos c)) in *.
  set (C := Z.to_pos (Zpos c * 2 ^ (53 - d))) in *.
  assert (0 < 2 ^ (- e)) by (apply Z.pow_pos_nonneg; lia).
  assert (Zpos (digits2_pos m) = d - e) as Hdm.
  { change (Zpos (digits2_pos m)) with (Zdigits2 (Zpos m)).
    rewrite Hm, Zdigits2_mul_pow2 by lia. cbn [Zdigits2]. fold d. lia. }
  rewrite Hdm. replace (d - e + e) with d by lia.
  replace (fexp prec emax d) with (d - 53) by (unfold fexp, emin, prec, emax; lia).
  unfold shl_align.
  destruct (d - 53 - e) as [|p|p] eqn:Hs.
  - replace e with (d - 53 - 0) at 1 by lia.
    replace (Zpos m) with (Zpos C * 2 ^ 0).
    2:{ rewrite HC, Hm, Z.pow_0_r, Z.mul_1_r.
        replace (- e) with (53 - d) by lia. done. }
    apply binary_round_aux_exact; [by rewrite HC|lia|lia].
  - replace e with (d - 53 - Zpos p) at 1 by lia.
    replace (Zpos m) with (Zpos C * 2 ^ Zpos p).
    2:{ rewrite HC, Hm, <- Z.mul_assoc, <- Z.pow_add_r by lia.
        replace (53 - d + Zpos p) with (- e) by lia. done. }
    apply binary_round_aux_exact; [by rewrite HC|lia|lia].
  - replace (d - 53) with (d - 53 - 0) at 1 by lia.
    replace (Zpos (Pos.iter xO m p)) with (Zpos C * 2 ^ 0).
    2:{ rewrite Z.pow_0_r, Z.mul_1_r.
        rewrite iter_xO_Z, HC, Hm, <- Z.mul_assoc, <- Z.pow_add_r by lia.
        replace (- e + Zpos p) with (53 - d) by lia. done. }
    apply binary_round_aux_exact; [by rewrite HC|lia|lia].
Qed.

Lemma binary_round_canon (c m : positive) (e : Z) :
  Zpos c < 2 ^ 53 -> e <= 0 -> Zpos m = Zpos c * 2 ^ (- e) ->
  binary_round prec emax false m e = canon c.
Proof. apply binary_round_signed. Qed.

Lemma binary_normalize_Zcanon (z k : Z) :
  0 <= z < 2 ^ 53 -> 0 <= k ->
  binary_normalize prec emax (z * 2 ^ k) (- k) false = Zcanon z.
Proof.
  intros Hz Hk. assert (0 < 2 ^ k) by (apply Z.pow_pos_nonneg; lia).
  destruct z as [|c|c]; [done| |lia].
  destruct (Zpos c * 2 ^ k) as [|m|m] eqn:Hm; [nia| |nia].
  cbn [binary_normalize Zcanon].
  apply binary_round_canon; [lia|lia|]. by rewrite Z.opp_involutive.
Qed.

Lemma canon_valid (c : positive) :
  Zpos c < 2 ^ 53 -> SpecFloat.valid_binary prec emax (canon c) = true.
Proof.
  intros Hc. destruct (canon_mantissa c Hc) as [HC HdC]. cbn zeta in HC, HdC.
  pose proof (digits2_pos_bound c Hc) as Hd.
  unfold canon. cbn [SpecFloat.valid_binary]. unfold SpecFloat.bounded, canonical_mantissa.
  change (Zpos (digits2_pos ?m)) with (Zdigits2 (Zpos m)) at 1.
  rewrite HC, HdC. apply andb_true_intro. split.
  - apply Z.eqb_eq. unfold fexp, emin, prec, emax. lia.
  - apply Z.leb_le. unfold prec, emax. lia.
Qed.

Lemma Zcanon_valid (z : Z) :
  0 <= z < 2 ^ 53 -> SpecFloat.valid_binary prec emax (Zcanon z) = true.
Proof. intros Hz. destruct z; [done|apply canon_valid; lia|done]. Qed.
End CanonicalIntegers.

Section CanonicalOperations.
Import Binary64 JS.
Local Open Scope Z_scope.

Lemma digits2_lower (p : positive) : 2 ^ (Zpos (digits2_pos p) - 1) <= Zpos p.
Proof.
  pose proof (Zdigits2_log2 (Zpos p) ltac:(lia)) as Hd. cbn [Zdigits2] in Hd.
  rewrite Hd. replace (Z.log2 (Zpos p) + 1 - 1) with (Z.log2 (Zpos p)) by lia.
  apply Z.log2_spec. lia.
Qed.

(** The float of a small non-negative integer. *)
Lemma Prim2SF_of_Z (z : Z) : 0 <= z < 2 ^ 53 -> Prim2SF (of_Z z) = Zcanon z.
Proof.
  intros Hz. unfold of_Z.
  replace (binary_normalize prec emax z 0 false) with (Zcanon z).
  - apply Prim2SF_SF2Prim. by apply Zcanon_valid.
  - symmetry. rewrite <- (binary_normalize_Zcanon z 0) by lia.
    by rewrite Z.pow_0_r, Z.mul_1_r.
Qed.

Lemma canon_value (c : positive) :
  Zpos c < 2 ^ 53 ->
  ∃ m e, canon c = S754_finite false m e
         ∧ e = Zpos (digits2_pos c) - 53 ∧ -52 <= e <= 0
         ∧ Zpos m = Zpos c * 2 ^ (- e).
Proof.
  intros Hc. destruct (canon_mantissa c Hc) as [HC _]. cbn zeta in HC.
  pose proof (digits2_pos_bound c Hc) as Hd.
  eexists. eexists. split; [reflexivity|]. split; [done|]. split; [lia|].
  rewrite HC. do 2 f_equal. lia.
Qed.

Lemma integer_SF_Zcanon (z : Z) :
  0 <= z < 2 ^ 53 -> integer_SF (Zcanon z) = Some z.
Proof.
  intros Hz. destruct z as [|c|c]; [done| |lia]. cbn [Zcanon].
  destruct (canon_value c) as (m & e & -> & _ & He & Hm); [lia|].
  cbn [integer_SF cond_Zopp].
  assert (0 < 2 ^ (- e)) by (apply Z.pow_pos_nonneg; lia).
  rewrite Hm, Z.mod_mul by lia. rewrite Z.eqb_refl, orb_true_r.
  f_equal. rewrite <- (Z.opp_involutive e) at 2.
  rewrite Z.shiftl_opp_r, Z.shiftr_div_pow2 by lia.
  apply Z.div_mul. lia.
Qed.

(** On canonical integers the comparison of floats is that of integers. *)
Lemma SFcompare_Zcanon (x y : Z) :
  0 <= x < 2 ^ 53 -> 0 <= y < 2 ^ 53 ->
  SFcompare (Zcanon x) (Zcanon y) = Some (x ?= y).
Proof.
  intros Hx Hy.
  destruct x as [|cx|cx], y as [|cy|cy]; try lia; cbn [Zcanon]; try done.
  destruct (canon_value cx) as (mx & ex & -> & Hex & Hrx & Hmx); [lia|].
  destruct (canon_value cy) as (my & ey & -> & Hey & Hry & Hmy); [lia|].
  cbn [SFcompare]. f_equal.
  pose proof (digits2_upper cx) as Hux. pose proof (digits2_lower cx) as Hlx.
  pose proof (digits2_upper cy) as Huy. pose proof (digits2_lower cy) as Hly.
  destruct (Z.compare_spec ex ey) as [Heq|Hlt|Hgt].
  - rewrite compare_cont_Z, Hmx, Hmy. rewrite Heq.
    assert (0 < 2 ^ (- ey)) by (apply Z.pow_pos_nonneg; lia).
    symmetry. apply Zmult_compare_compat_r. lia.
  - symmetry. apply Z.compare_lt_iff.
    assert (2 ^ Zpos (digits2_pos cx) <= 2 ^ (Zpos (digits2_pos cy) - 1))
      by (apply Z.pow_le_mono_r; lia).
    lia.
  - symmetry. apply Z.compare_gt_iff.
    assert (2 ^ Zpos (digits2_pos cy) <= 2 ^ (Zpos (digits2_pos cx) - 1))
      by (apply Z.pow_le_mono_r; lia).
    lia.
Qed.

Lemma shl_align_fst (m : positive) (e e' : Z) :
  e' <= e -> Zpos (fst (shl_align m e e')) = Zpos m * 2 ^ (e - e').
Proof.
  intros He. unfold shl_align. destruct (e' - e) as [|p|p] eqn:Hd.
  - cbn [fst]. replace (e - e') with 0 by lia. lia.
  - lia.
  - cbn [fst]. rewrite iter_xO_Z. do 2 f_equal. lia.
Qed.

(** Addition and subtraction of canonical integers are exact. *)
Lemma SFadd_Zcanon (x y : Z) :
  0 <= x -> 0 <= y -> x + y < 2 ^ 53 ->
  SFadd prec emax (Zcanon x) (Zcanon y) = Zcanon (x + y).
Proof.
  intros Hx Hy Hxy.
  destruct x as [|cx|cx], y as [|cy|cy]; try lia; try done.
  cbn [Zcanon] in *.
  destruct (canon_value cx) as (mx & ex & -> & Hex & Hrx & Hmx); [lia|].
  destruct (canon_value cy) as (my & ey & -> & Hey & Hry & Hmy); [lia|].
  cbn [SFadd cond_Zopp].
  rewrite !shl_align_fst by lia. rewrite Hmx, Hmy.
  set (ez := Z.min ex ey).
  rewrite <- !Z.mul_assoc, <- !Z.pow_add_r by lia.
  replace (- ex + (ex - ez)) with (- ez) by lia.
  replace (- ey + (ey - ez)) with (- ez) by lia.
  rewrite <- Z.mul_add_distr_r.
  rewrite <- (Z.opp_involutive ez) at 2.
  change (Zpos (cx + cy)) with (Zpos cx + Zpos cy).
  rewrite binary_normalize_Zcanon by lia. done.
Qed.

Lemma SFsub_Zcanon (x y : Z) :
  0 <= y <= x -> x < 2 ^ 53 ->
  SFsub prec emax (Zcanon x) (Zcanon y) = Zcanon (x - y).
Proof.
  intros Hyx Hx.
  destruct x as [|cx|cx], y as [|cy|cy]; try lia; try done.
  cbn [Zcanon].
  destruct (canon_value cx) as (mx & ex & Hcx & Hex & Hrx & Hmx); [lia|].
  destruct (canon_value cy) as (my & ey & Hcy & Hey & Hry & Hmy); [lia|].
  rewrite Hcx, Hcy. cbn [SFsub cond_Zopp].
  rewrite !shl_align_fst by lia. rewrite Hmx, Hmy.
  set (ez := Z.min ex ey).
  rewrite <- !Z.mul_assoc, <- !Z.pow_add_r by lia.
  replace (- ex + (ex - ez)) with (- ez) by lia.
  replace (- ey + (ey - ez)) with (- ez) by lia.
  rewrite <- Z.mul_sub_distr_r.
  rewrite <- (Z.opp_involutive ez) at 2.
  rewrite binary_normalize_Zcanon by lia. done.
Qed.
End CanonicalOperations.
(** ** Real values of binary64 numbers *)
Section RealValues.
Import Binary64 JS.
Local Open Scope Z_scope.

Lemma pow2_pos (e : Z) : (0 < powerRZ 2 e)%R.
Proof. apply powerRZ_lt. lra. Qed.

Lemma pow2_add (a b : Z) : powerRZ 2 (a + b) = (powerRZ 2 a * powerRZ 2 b)%R.
Proof. apply powerRZ_add. lra. Qed.

Lemma pow2_IZR (k : Z) : 0 <= k -> IZR (2 ^ k) = powerRZ 2 k.
Proof.
  intros Hk. destruct k as [|p|p]; [done| |lia].
  cbn [powerRZ]. rewrite pow_IZR. f_equal.
  by rewrite positive_nat_Z.
Qed.

Lemma pow2_le (a b : Z) : a <= b -> (powerRZ 2 a <= powerRZ 2 b)%R.
Proof.
  intros Hab. replace b with (a + (b - a)) by lia. rewrite pow2_add.
  assert (1 <= powerRZ 2 (b - a))%R as H1.
  { rewrite <- pow2_IZR by lia. apply IZR_le.
    assert (0 < 2 ^ (b - a)) by (apply Z.pow_pos_nonneg; lia). lia. }
  pose proof (pow2_pos a). nra.
Qed.

Lemma pow2_inv (k : Z) : 0 <= k -> (powerRZ 2 (- k) * IZR (2 ^ k) = 1)%R.
Proof.
  intros Hk. rewrite pow2_IZR, <- pow2_add by done.
  replace (- k + k) with 0 by lia. done.
Qed.

Lemma pow2_lt_inv (a b : Z) : (powerRZ 2 a < powerRZ 2 b)%R -> a < b.
Proof.
  intros Hlt. destruct (Z_lt_le_dec a b) as [|Hle]; [done|].
  pose proof (pow2_le b a Hle). lra.
Qed.

Lemma F2R_mul (m1 e1 m2 e2 : Z) :
  F2R (m1 * m2) (e1 + e2) = (F2R m1 e1 * F2R m2 e2)%R.
Proof. unfold F2R. rewrite mult_IZR, pow2_add. ring. Qed.

Lemma F2R_0 (m : Z) : F2R m 0 = IZR m.
Proof. unfold F2R. cbn [powerRZ]. ring. Qed.

Lemma F2R_shift (m e k : Z) : 0 <= k -> F2R (m * 2 ^ k) (e - k) = F2R m e.
Proof.
  intros Hk. unfold F2R. rewrite mult_IZR, pow2_IZR by done.
  replace e with (e - k + k) at 2 by lia. rewrite pow2_add. ring.
Qed.

Lemma F2R_pos (m : positive) (e : Z) : (0 < F2R (Zpos m) e)%R.
Proof.
  unfold F2R. apply Rmult_lt_0_compat; [|apply pow2_pos].
  apply IZR_lt. lia.
Qed.

Lemma F2R_le (m1 m2 e : Z) : m1 <= m2 -> (F2R m1 e <= F2R m2 e)%R.
Proof.
  intros Hm. unfold F2R. apply Rmult_le_compat_r.
  - pose proof (pow2_pos e). lra.
  - by apply IZR_le.
Qed.

(** The value of a canonical integer. *)
Lemma SF2R_Zcanon (z : Z) : 0 <= z < 2 ^ 53 -> SF2R (Zcanon z) = IZR z.
Proof.
  intros Hz. destruct z as [|c|c]; [done| |lia]. cbn [Zcanon].
  destruct (canon_value c) as (m & e & -> & _ & He & Hm); [lia|].
  cbn [SF2R cond_Zopp]. rewrite Hm.
  replace e with (0 - - e) at 2 by lia. rewrite F2R_shift by lia. apply F2R_0.
Qed.

(** The bounds of a valid finite number. *)
Lemma valid_finite_bounds (s : bool) (m : positive) (e : Z) :
  SpecFloat.valid_binary prec emax (S754_finite s m e) = true ->
  Zpos m < 2 ^ 53 ∧ -1074 <= e <= 971 ∧ (2 ^ 52 <= Zpos m ∨ e = -1074).
Proof.
  cbn [SpecFloat.valid_binary]. unfold SpecFloat.bounded, canonical_mantissa.
  intros [Hcan Hle]%andb_prop. apply Z.eqb_eq in Hcan. apply Z.leb_le in Hle.
  pose proof (digits2_upper m) as Hu. pose proof (digits2_lower m) as Hl.
  unfold fexp, emin, prec, emax in Hcan, Hle.
  assert (Zpos (digits2_pos m) <= 53) as Hd by lia.
  assert (2 ^ Zpos (digits2_pos m) <= 2 ^ 53) by (apply Z.pow_le_mono_r; lia).
  split; [lia|]. split; [lia|].
  destruct (Z.eq_dec e (-1074)) as [|Hne]; [by right|left].
  assert (Zpos (digits2_pos m) = 53) as Hd53 by lia.
  rewrite Hd53 in Hl. exact Hl.
Qed.

(** The real form of the upper bound of a rounding: the result exceeds
    the rounded value by at most one unit in the last place. *)
Lemma binary_round_aux_upper_R (sx : bool) (M E : Z) (l : location)
    (s' : bool) (m' : positive) (e' : Z) :
  0 <= M ->
  binary_round_aux prec emax sx M E l = S754_finite s' m' e' ->
  s' = sx ∧ (F2R (Zpos m') e' <= F2R M E + powerRZ 2 e')%R.
Proof.
  intros HM Hround.
  destruct (binary_round_aux_upper sx M E l s' m' e' HM Hround) as (Hs & He & Hm).
  split; [done|].
  set (n := Z.max (fexp prec emax (Zdigits2 M + E) - E) 0) in *.
  assert (0 <= n) as Hn by (unfold n; lia).
  assert (0 < 2 ^ n) as Hpn by (apply Z.pow_pos_nonneg; lia).
  assert (M / 2 ^ n * 2 ^ n <= M) as Hdiv
    by (rewrite Z.mul_comm; apply Z.mul_div_le; lia).
  pose proof (F2R_shift (Zpos m') e' (e' - (E + n)) ltac:(lia)) as HA.
  replace (e' - (e' - (E + n))) with (E + n) in HA by lia.
  pose proof (F2R_le _ _ (E + n) Hm) as HB.
  assert (F2R (M / 2 ^ n + 1) (E + n)
          = F2R (M / 2 ^ n) (E + n) + powerRZ 2 (E + n))%R as HC
    by (unfold F2R; rewrite plus_IZR; ring).
  pose proof (F2R_shift (M / 2 ^ n) (E + n) n Hn) as HD.
  replace (E + n - n) with E in HD by lia.
  pose proof (F2R_le _ _ E Hdiv) as HE.
  pose proof (pow2_le (E + n) e' He) as HF.
  lra.
Qed.
End RealValues.
(** ** The length of the output of [resampleFloat32] *)
Section OutputLength.
Import Binary64 JS.
Local Open Scope Z_scope.

Lemma shiftl_canon (c : positive) (m : positive) (e : Z) :
  -52 <= e <= 0 -> Zpos m = Zpos c * 2 ^ (- e) -> Z.shiftl (Zpos m) e = Zpos c.
Proof.
  intros He Hm. assert (0 < 2 ^ (- e)) by (apply Z.pow_pos_nonneg; lia).
  rewrite <- (Z.opp_involutive e) at 1.
  rewrite Z.shiftl_opp_r, Z.shiftr_div_pow2 by lia.
  rewrite Hm. apply Z.div_mul. lia.
Qed.

Lemma trunc_SF_Zcanon (z : Z) : 0 <= z < 2 ^ 53 -> trunc_SF (Zcanon z) = Some z.
Proof.
  intros Hz. destruct z as [|c|c]; [done| |lia]. cbn [Zcanon].
  destruct (canon_value c) as (m & e & -> & _ & He & Hm); [lia|].
  cbn [trunc_SF cond_Zopp]. f_equal. by apply shiftl_canon.
Qed.

Lemma ToIndex_Zcanon (x : float) (z : Z) :
  Prim2SF x = Zcanon z -> 0 <= z < 2 ^ 53 -> ToIndex x = Some (Z.to_nat z).
Proof.
  intros Hx Hz. unfold ToIndex. rewrite Hx.
  pose proof (trunc_SF_Zcanon z Hz) as Ht.
  destruct (Zcanon z) as [s|s| |s m e] eqn:Hc.
  - rewrite Ht. cbn [mbind option_bind].
    destruct (Z.leb_spec 0 z); [|lia]. destruct (Z.leb_spec z (2 ^ 53 - 1)); [done|lia].
  - done.
  - done.
  - rewrite Ht. cbn [mbind option_bind].
    destruct (Z.leb_spec 0 z); [|lia]. destruct (Z.leb_spec z (2 ^ 53 - 1)); [done|lia].
Qed.

(** The float of a negative integer is negative. *)
Lemma Prim2SF_of_Z_neg (c : positive) :
  Zpos c < 2 ^ 53 -> Prim2SF (of_Z (Zneg c)) = SFopp (canon c).
Proof.
  intros Hc. unfold of_Z. cbn [binary_normalize].
  rewrite (binary_round_signed true c c 0) by (rewrite ?Z.pow_0_r; lia).
  change (S754_finite true ?m ?e) with (SFopp (S754_finite false m e)).
  fold (canon c).
  apply Prim2SF_SF2Prim.
  pose proof (canon_valid c Hc) as Hv.
  unfold canon in *. exact Hv.
Qed.

Lemma ToIndex_of_Z_neg (c : positive) :
  Zpos c < 2 ^ 53 -> ToIndex (of_Z (Zneg c)) = None.
Proof.
  intros Hc. unfold ToIndex. rewrite Prim2SF_of_Z_neg by done.
  destruct (canon_value c) as (m & e & -> & _ & He & Hm); [lia|].
  cbn [SFopp trunc_SF cond_Zopp negb mbind option_bind].
  rewrite (shiftl_canon c) by done. done.
Qed.

(** [new Float32Array(Math.round(x))] has a positive length only for a
    positive finite [x], and the length is within 1/2 of [x]. *)
Lemma ToIndex_Math_round (x : float) (N : nat) :
  ToIndex (Math_round x) = Some N -> (0 < N)%nat ->
  ∃ m e, Prim2SF x = S754_finite false m e
         ∧ (F2R (Zpos m) e - 1 / 2 <= IZR (Z.of_nat N) <= F2R (Zpos m) e + 1 / 2)%R.
Proof.
  intros HN Hpos. pose proof (Prim2SF_valid x) as Hvalid.
  unfold Math_round in HN.
  destruct (Prim2SF x) as [s|s| |s m e] eqn:Hx.
  - unfold ToIndex in HN. rewrite Hx in HN. cbn in HN.
    injection HN as <-. lia.
  - unfold ToIndex in HN. by rewrite Hx in HN.
  - unfold ToIndex in HN. rewrite Hx in HN. injection HN as <-. lia.
  - destruct (valid_finite_bounds s m e Hvalid) as (Hm & He & Hnorm).
    destruct (Z.ltb_spec e 0) as [Hneg|Hnn].
    + set (K := 2 ^ (- e)) in *.
      assert (2 <= K) as HK.
      { unfold K. change 2 with (2 ^ 1) at 1. apply Z.pow_le_mono_r; lia. }
      assert (2 ^ (1 - e) = 2 * K) as HK2.
      { unfold K. replace (1 - e) with (1 + - e) by lia.
        rewrite Z.pow_add_r by lia. done. }
      assert (powerRZ 2 e * IZR K = 1)%R as HKR.
      { unfold K. rewrite pow2_IZR, <- pow2_add by lia.
        replace (e + - e) with 0 by lia. done. }
      pose proof (pow2_pos e) as Hpe.
      assert (2 <= IZR K)%R as HKR2 by (apply IZR_le; done).
      set (a := 2 * cond_Zopp s (Zpos m) + K) in *.
      set (z := Z.shiftl a (e - 1)) in *.
      assert (z = a / (2 * K)) as Hz.
      { unfold z. replace (e - 1) with (- (1 - e)) by lia.
        rewrite Z.shiftl_opp_r, Z.shiftr_div_pow2 by lia. by rewrite HK2. }
      pose proof (Z.mul_div_le a (2 * K) ltac:(lia)) as Hlo.
      pose proof (Z.mul_succ_div_gt a (2 * K) ltac:(lia)) as Hhi.
      rewrite <- Hz in Hlo, Hhi.
      destruct s; cbn [cond_Zopp] in a.
      * assert (- 2 ^ 53 < z <= 0) as Hzr by (unfold a in *; nia).
        destruct (Z.eqb_spec z 0) as [Hz0|Hz0].
        -- unfold ToIndex in HN. cbn in HN. injection HN as <-. lia.
        -- destruct z as [|c|c]; [done|lia|].
           rewrite ToIndex_of_Z_neg in HN by lia. done.
      * assert (0 <= z < 2 ^ 53) as Hzr by (unfold a in *; nia).
        destruct (Z.eqb_spec z 0) as [Hz0|Hz0].
        -- unfold ToIndex in HN. cbn in HN. injection HN as <-. lia.
        -- rewrite (ToIndex_Zcanon (of_Z z) z) in HN
             by (try apply Prim2SF_of_Z; lia).
           injection HN as <-. exists m, e. split; [done|].
           rewrite Z2Nat.id by lia. unfold F2R.
           assert (IZR (2 * K * z) <= IZR (2 * Zpos m + K))%R as H1
             by (apply IZR_le; lia).
           assert (IZR (2 * Zpos m + K) < IZR (2 * K * z + 2 * K))%R as H2
             by (apply IZR_lt; lia).
           repeat rewrite ?plus_IZR, ?mult_IZR in H1.
           repeat rewrite ?plus_IZR, ?mult_IZR in H2.
           generalize dependent (IZR z). generalize dependent (IZR (Zpos m)).
           generalize dependent (IZR K). generalize dependent (powerRZ 2 e).
           intros p Hp k Hpk Hk mr zr H1 H2.
           assert (zr = zr * (p * k))%R as Hzk by (rewrite Hpk; ring).
           assert (2 * zr * (p * k) <= 2 * (mr * p) + p * k)%R by nra.
           assert (2 * (mr * p) + p * k < 2 * zr * (p * k) + 2 * (p * k))%R by nra.
           rewrite Hpk in *. split; lra.
    + unfold ToIndex in HN. rewrite Hx in HN.
      cbn [trunc_SF mbind option_bind] in HN.
      rewrite Z.shiftl_mul_pow2 in HN by lia.
      assert (0 < 2 ^ e) by (apply Z.pow_pos_nonneg; lia).
      destruct s; cbn [cond_Zopp] in HN.
      * destruct (Z.leb_spec 0 (- (Zpos m * 2 ^ e))) as [Hle|_]; [nia|done].
      * destruct ((0 <=? Zpos m * 2 ^ e) && (Zpos m * 2 ^ e <=? 2 ^ 53 - 1));
          [|done].
        injection HN as <-. exists m, e. split; [done|].
        rewrite Z2Nat.id by nia. unfold F2R.
        rewrite mult_IZR, pow2_IZR by lia. lra.
Qed.
End OutputLength.
Section OutputLengthBound.
Import Binary64 JS.
Local Open Scope Z_scope.

Lemma F2R_canon (c m : positive) (e : Z) :
  e <= 0 -> Zpos m = Zpos c * 2 ^ (- e) -> F2R (Zpos m) e = IZR (Zpos c).
Proof.
  intros He ->. replace e with (0 - - e) at 2 by lia.
  rewrite F2R_shift by lia. apply F2R_0.
Qed.

(** The unit in the last place of a valid number below [2 ^ 49]. *)
Lemma ulp_small (s : bool) (m : positive) (e : Z) :
  SpecFloat.valid_binary prec emax (S754_finite s m e) = true ->
  (F2R (Zpos m) e <= 562949953421312)%R ->
  (powerRZ 2 e <= 1 / 8)%R.
Proof.
  intros Hvalid Hle.
  destruct (valid_finite_bounds s m e Hvalid) as (Hm & He & [Hnorm| ->]).
  - unfold F2R in Hle. pose proof (pow2_pos e) as Hp.
    change (2 ^ 52) with 4503599627370496 in Hnorm.
    apply IZR_le in Hnorm. nra.
  - pose proof (pow2_le (-1074) (-3) ltac:(lia)) as H.
    pose proof (pow2_inv 3 ltac:(lia)) as Heq.
    change (2 ^ 3) with 8 in Heq. change (- (3)) with (-3) in Heq. lra.
Qed.

(** A non-empty output: the ratio is a positive finite number, the input
    is not empty, and the output length [N] is at most
    [L * ratio + 5 / 8]. *)
Lemma newLength_bound (L N : nat) (ratio : float) :
  Z.of_nat L < 2 ^ 53 ->
  ToIndex (Math_round (of_nat L * ratio)) = Some N ->
  (0 < N)%nat -> Z.of_nat N <= 2 ^ 48 ->
  ∃ mr er, Prim2SF ratio = S754_finite false mr er
           ∧ (0 < L)%nat
           ∧ (IZR (Z.of_nat N) <= IZR (Z.of_nat L) * F2R (Zpos mr) er + 5 / 8)%R.
Proof.
  intros HL HN Hpos HN48.
  destruct (ToIndex_Math_round _ _ HN Hpos) as (mX & eX & HX & Hlo & Hhi).
  pose proof (Prim2SF_valid (of_nat L * ratio)) as Hvalid. rewrite HX in Hvalid.
  assert (powerRZ 2 eX <= 1 / 8)%R as Hulp.
  { apply (ulp_small false mX eX Hvalid).
    change (2 ^ 48) with 281474976710656 in HN48. apply IZR_le in HN48. lra. }
  rewrite FloatAxioms.mul_spec in HX. unfold of_nat in HX.
  rewrite Prim2SF_of_Z in HX by lia.
  destruct (Z.of_nat L) as [|c|c] eqn:HLc; [|clear HN|lia].
  { cbn [Zcanon] in HX. destruct (Prim2SF ratio); cbn in HX; discriminate. }
  cbn [Zcanon] in HX.
  destruct (canon_value c) as (mL & eL & Hc & _ & HeL & HmL); [lia|].
  rewrite Hc in HX.
  destruct (Prim2SF ratio) as [sr|sr| |sr mr er]; cbn [SF64mul SFmul] in HX;
    try discriminate.
  apply binary_round_aux_upper_R in HX; [|lia]. destruct HX as [Hs Hup].
  destruct sr; [discriminate Hs|].
  exists mr, er. split; [done|]. split; [lia|].
  rewrite Pos2Z.inj_mul, F2R_mul, (F2R_canon c mL eL) in Hup by lia.
  lra.
Qed.
End OutputLengthBound.
(** ** The source position [Math.floor(i / ratio)] *)
Section SourceIndex.
Import Binary64 JS.
Local Open Scope Z_scope.

(** The quotient that [SFdiv] rounds is below the exact quotient. *)
Lemma SFdiv_core_spec (m1 m2 : positive) (e1 e2 : Z) :
  let '(q, e', _) := SFdiv_core_binary prec emax (Zpos m1) e1 (Zpos m2) e2 in
  0 <= q
  ∧ (F2R q e' * F2R (Zpos m2) e2 <= F2R (Zpos m1) e1)%R
  ∧ (q = 0 -> e' <= -1074).
Proof.
  unfold SFdiv_core_binary. cbn [Zdigits2].
  set (d1 := Zpos (digits2_pos m1)). set (d2 := Zpos (digits2_pos m2)).
  set (e' := Z.min (fexp prec emax (d1 + e1 - (d2 + e2))) (e1 - e2)).
  set (s := e1 - e2 - e').
  assert (0 <= s) as Hs by (unfold s, e'; lia).
  assert (0 < 2 ^ s) as Hps by (apply Z.pow_pos_nonneg; lia).
  set (m' := match s with 0 => Zpos m1 | Zpos _ => Z.shiftl (Zpos m1) s | Zneg _ => 0 end).
  assert (m' = Zpos m1 * 2 ^ s) as Hm'.
  { unfold m'. destruct s as [|p|p] eqn:Hsp; [lia| |lia].
    by rewrite Z.shiftl_mul_pow2. }
  pose proof (Z_div_mod m' (Zpos m2) ltac:(lia)) as Hdiv.
  change IntDef.Z.div_eucl with Z.div_eucl.
  destruct (Z.div_eucl m' (Zpos m2)) as [q r]. destruct Hdiv as [Hqr Hr].
  assert (0 <= q) as Hq by nia.
  split; [done|]. split.
  - rewrite <- F2R_mul.
    rewrite <- (F2R_shift (Zpos m1) e1 s) by done.
    replace (e1 - s) with (e' + e2) by (unfold s; lia).
    apply F2R_le. nia.
  - intros ->.
    pose proof (digits2_lower m1) as Hl1. pose proof (digits2_upper m2) as Hu2.
    fold d1 in Hl1. fold d2 in Hu2.
    assert (2 ^ (d1 - 1 + s) < 2 ^ d2) as Hlt.
    { rewrite Z.pow_add_r by (unfold d1; lia). nia. }
    apply Z.pow_lt_mono_r_iff in Hlt; [|lia|unfold d2; lia].
    unfold s, e', fexp, emin, prec, emax in *. lia.
Qed.

Lemma canon_normal (c : positive) :
  2 ^ 52 <= Zpos c < 2 ^ 53 -> canon c = S754_finite false c 0.
Proof.
  intros [Hlo Hhi]. unfold canon.
  assert (Zpos (digits2_pos c) = 53) as ->.
  { pose proof (digits2_le c 53 ltac:(lia) Hhi) as H1.
    pose proof (digits2_upper c) as H2.
    destruct (Z_lt_le_dec (Zpos (digits2_pos c)) 53) as [Hlt|]; [|lia].
    assert (2 ^ Zpos (digits2_pos c) <= 2 ^ 52) by (apply Z.pow_le_mono_r; lia).
    lia. }
  replace (53 - 53) with 0 by lia.
  rewrite Z.pow_0_r, Z.mul_1_r. done.
Qed.

Lemma floor_bound_real (Yv p r ii P : R) :
  (0 < r)%R -> (0 < p)%R ->
  (4503599627370496 * p <= Yv)%R ->
  ((Yv - p) * r <= ii)%R ->
  (ii <= P - 3 / 8)%R -> (ii < 281474976710656)%R ->
  (P <= Yv * r)%R -> False.
Proof.
  intros Hr Hp Hn Hq Hi Hi48 HP.
  assert (4503599627370496 * (p * r) <= Yv * r)%R as H1 by nra.
  assert (Yv * r - p * r <= ii)%R as H2 by nra.
  generalize dependent (Yv * r)%R. generalize dependent (p * r)%R.
  intros pr W. intros. lra.
Qed.

(** For an output index [i] of at most [L * ratio - 3 / 8], the source
    position [Math.floor(i / ratio)] is an integer of [0 .. L - 1]. *)
Lemma srcIndex_floor (L i : nat) (ratio : float) (mr : positive) (er : Z) :
  Prim2SF ratio = S754_finite false mr er ->
  (0 < L)%nat -> Z.of_nat L < 2 ^ 53 -> Z.of_nat i < 2 ^ 48 ->
  (IZR (Z.of_nat i) <= IZR (Z.of_nat L) * F2R (Zpos mr) er - 3 / 8)%R ->
  ∃ z0, Prim2SF (Math_floor (of_nat i / ratio)) = Zcanon z0
        ∧ 0 <= z0 <= Z.of_nat L - 1.
Proof.
  intros Hratio HL0 HL Hi48 Hi.
  set (Y := (of_nat i / ratio)%float).
  pose proof (Prim2SF_valid Y) as Hvalid.
  assert (Prim2SF Y = SFdiv prec emax (Zcanon (Z.of_nat i)) (S754_finite false mr er))
    as HY.
  { unfold Y. rewrite FloatAxioms.div_spec, Hratio. unfold of_nat.
    rewrite Prim2SF_of_Z by lia. done. }
  assert (1 <= IZR (Z.of_nat L))%R as HL1 by (apply IZR_le; lia).
  assert (IZR (Z.of_nat L) < 9007199254740992)%R as HL53
    by (apply IZR_lt; change (2 ^ 53) with 9007199254740992 in HL; done).
  assert (IZR (Z.of_nat i) < 281474976710656)%R as Hi48R
    by (apply IZR_lt; change (2 ^ 48) with 281474976710656 in Hi48; done).
  pose proof (F2R_pos mr er) as Hr.
  unfold Math_floor. clearbody Y.
  destruct (Z.of_nat i) as [|ci|ci] eqn:Hci; [| |lia].
  { cbn in HY. rewrite HY. exists 0. split; [by rewrite HY|lia]. }
  cbn [Zcanon] in HY.
  destruct (canon_value ci) as (mi & ei & Hc & _ & Hei & Hmi); [lia|].
  rewrite Hc in HY. cbn [SFdiv xorb] in HY.
  pose proof (SFdiv_core_spec mi mr ei er) as Hcore.
  destruct (SFdiv_core_binary prec emax (Zpos mi) ei (Zpos mr) er) as [[q e'] l].
  destruct Hcore as (Hq & Hqr & Hq0).
  rewrite (F2R_canon ci mi ei) in Hqr by lia.
  destruct (binary_round_aux_finite false q e' l Hq) as [Hz|(mY & eY & Hfin)].
  { destruct (Z.eq_dec q 0) as [->|Hqne]; [cbn; specialize (Hq0 eq_refl); lia|].
    assert (F2R q e' < 9007199254740992)%R as Hlt by nra.
    pose proof (Zdigits2_log2 q ltac:(lia)) as Hd.
    pose proof (Z.log2_spec q ltac:(lia)) as [Hlog _].
    pose proof (Z.log2_nonneg q) as Hlog0.
    assert (powerRZ 2 (Z.log2 q + e') < powerRZ 2 53)%R as Hpow.
    { rewrite pow2_add, <- pow2_IZR by lia.
      rewrite <- (pow2_IZR 53) by lia. change (2 ^ 53) with 9007199254740992.
      apply IZR_le in Hlog. pose proof (pow2_pos e'). unfold F2R in Hlt. nra. }
    apply pow2_lt_inv in Hpow. lia. }
  { destruct (Z.eq_dec q 0) as [->|Hqne]; [specialize (Hq0 eq_refl); lia|].
    assert (F2R q e' < 9007199254740992)%R as Hlt by nra.
    pose proof (Z.log2_spec q ltac:(lia)) as [Hlog _].
    pose proof (Z.log2_nonneg q) as Hlog0.
    assert (powerRZ 2 (Z.log2 q + e') < powerRZ 2 53)%R as Hpow.
    { rewrite pow2_add, <- pow2_IZR by lia.
      rewrite <- (pow2_IZR 53) by lia. change (2 ^ 53) with 9007199254740992.
      apply IZR_le in Hlog. pose proof (pow2_pos e'). unfold F2R in Hlt. nra. }
    apply pow2_lt_inv in Hpow. lia. }
  - rewrite Hz in HY. rewrite HY. exists 0. split; [by rewrite HY|lia].
  - rewrite Hfin in HY. rewrite HY in Hvalid |- *.
    apply binary_round_aux_upper_R in Hfin; [|done]. destruct Hfin as [_ Hup].
    destruct (valid_finite_bounds false mY eY Hvalid) as (HmY & HeY & Hnorm).
    pose proof (pow2_pos eY) as Hp.
    assert (F2R (Zpos mY) eY < IZR (Z.of_nat L))%R as HYL.
    { apply Rnot_le_lt. intros Hge.
      assert (4503599627370496 * powerRZ 2 eY <= F2R (Zpos mY) eY)%R as Hn.
      { destruct Hnorm as [Hnorm| ->].
        - change (2 ^ 52) with 4503599627370496 in Hnorm.
          apply IZR_le in Hnorm. unfold F2R. nra.
        - exfalso.
          assert (F2R (Zpos mY) (-1074) < 1)%R; [|lra].
          apply IZR_lt in HmY. rewrite (pow2_IZR 53) in HmY by lia.
          unfold F2R.
          assert (powerRZ 2 53 * powerRZ 2 (-1074) <= 1)%R.
          { rewrite <- pow2_add. rewrite <- (powerRZ_O 2). apply pow2_le. lia. }
          pose proof (pow2_pos (-1074)). nra. }
      apply (floor_bound_real (F2R (Zpos mY) eY) (powerRZ 2 eY) (F2R (Zpos mr) er)
               (IZR (Zpos ci)) (IZR (Z.of_nat L) * F2R (Zpos mr) er)%R);
        try done.
      - assert ((F2R (Zpos mY) eY - powerRZ 2 eY) * F2R (Zpos mr) er
                <= F2R q e' * F2R (Zpos mr) er)%R by nra.
        lra.
      - nra. }
    destruct (Z.ltb_spec eY 0) as [Hneg|Hnn].
    + cbn [cond_Zopp].
      set (z0 := Z.shiftl (Zpos mY) eY).
      assert (z0 = Zpos mY / 2 ^ (- eY)) as Hz0.
      { unfold z0. rewrite <- (Z.opp_involutive eY) at 1.
        by rewrite Z.shiftl_opp_r, Z.shiftr_div_pow2 by lia. }
      assert (0 < 2 ^ (- eY)) as HK by (apply Z.pow_pos_nonneg; lia).
      assert (0 <= z0) as Hz0pos by (rewrite Hz0; apply Z.div_pos; lia).
      pose proof (Z.mul_div_le (Zpos mY) (2 ^ (- eY)) HK) as Hle.
      rewrite <- Hz0 in Hle.
      assert (IZR z0 <= F2R (Zpos mY) eY)%R as Hz0R.
      { rewrite <- (F2R_0 z0). rewrite <- (F2R_shift z0 0 (- eY)) by lia.
        replace (0 - - eY) with eY by lia. apply F2R_le. lia. }
      assert (z0 < Z.of_nat L) as Hz0L by (apply lt_IZR; lra).
      exists z0. split; [apply Prim2SF_of_Z; lia|lia].
    + assert (eY = 0 ∧ 2 ^ 52 <= Zpos mY) as [-> Hn].
      { destruct Hnorm as [Hnorm|]; [|lia]. split; [|done].
        destruct (Z.eq_dec eY 0) as [|Hne]; [done|exfalso].
        assert (2 <= powerRZ 2 eY)%R as H2.
        { pose proof (pow2_le 1 eY ltac:(lia)) as H1.
          rewrite <- (pow2_IZR 1) in H1 by lia. exact H1. }
        change (2 ^ 52) with 4503599627370496 in Hnorm.
        apply IZR_le in Hnorm. unfold F2R in HYL. nra. }
      rewrite F2R_0 in HYL. apply lt_IZR in HYL.
      exists (Zpos mY). split; [|lia].
      rewrite HY. cbn [Zcanon]. symmetry. apply canon_normal. lia.
Qed.
End SourceIndex.
(** ** The reads of [resampleFloat32] *)
Section ResampleReads.
Import Binary64 JS Pcm.
Local Open Scope Z_scope.

Lemma Prim2SF_1 : Prim2SF 1 = Zcanon 1.
Proof. vm_compute. reflexivity. Qed.

Lemma is_nan_Zcanon (x : float) (z : Z) :
  Prim2SF x = Zcanon z -> 0 <= z < 2 ^ 53 -> is_nan x = false.
Proof.
  intros Hx Hz. unfold is_nan. rewrite FloatAxioms.eqb_spec, Hx.
  unfold SFeqb. rewrite SFcompare_Zcanon by done. by rewrite Z.compare_refl.
Qed.

Lemma ltb_Zcanon (x y : float) (zx zy : Z) :
  Prim2SF x = Zcanon zx -> Prim2SF y = Zcanon zy ->
  0 <= zx < 2 ^ 53 -> 0 <= zy < 2 ^ 53 ->
  (x <? y)%float = (zx <? zy).
Proof.
  intros Hx Hy Hzx Hzy. rewrite FloatAxioms.ltb_spec, Hx, Hy.
  unfold SFltb. rewrite SFcompare_Zcanon by done.
  unfold Z.ltb. by destruct (zx ?= zy).
Qed.

(** [Math.min] of two integers. *)
Lemma Math_min_Zcanon (x y : float) (zx zy : Z) :
  Prim2SF x = Zcanon zx -> Prim2SF y = Zcanon zy ->
  0 <= zx < 2 ^ 53 -> 0 <= zy < 2 ^ 53 ->
  Prim2SF (Math_min x y) = Zcanon (Z.min zx zy).
Proof.
  intros Hx Hy Hzx Hzy. unfold Math_min.
  rewrite (is_nan_Zcanon x zx), (is_nan_Zcanon y zy) by done. cbn [orb].
  rewrite (ltb_Zcanon x y zx zy), (ltb_Zcanon y x zy zx) by done.
  destruct (Z.ltb_spec zx zy) as [Hlt|Hge].
  - by rewrite Z.min_l by lia.
  - destruct (Z.ltb_spec zy zx) as [Hlt|Hge'].
    + by rewrite Z.min_r by lia.
    + assert (zx = zy) as -> by lia. rewrite Z.min_id.
      by destruct (get_sign x).
Qed.

(** [index1 = Math.min(index0 + 1, inputArray.length - 1)] for an integer
    [index0] of [0 .. length - 1]. *)
Lemma index1_integer (inputArray : list float) (ratio : float) (i : nat) (z0 : Z) :
  Z.of_nat (length inputArray) < 2 ^ 53 ->
  Prim2SF (index0 ratio i) = Zcanon z0 ->
  0 <= z0 <= Z.of_nat (length inputArray) - 1 ->
  Prim2SF (index1 inputArray ratio i)
  = Zcanon (Z.min (z0 + 1) (Z.of_nat (length inputArray) - 1)).
Proof.
  intros HL H0 Hz0. unfold index1.
  apply Math_min_Zcanon; [| |lia|lia].
  - rewrite FloatAxioms.add_spec, H0, Prim2SF_1.
    apply SFadd_Zcanon; lia.
  - rewrite FloatAxioms.sub_spec, Prim2SF_1. unfold of_nat.
    rewrite Prim2SF_of_Z by lia.
    apply SFsub_Zcanon; lia.
Qed.

Lemma in_bounds_Zcanon (a : list float) (index : float) (z : Z) :
  Prim2SF index = Zcanon z -> 0 <= z <= Z.of_nat (length a) - 1 ->
  Z.of_nat (length a) < 2 ^ 53 ->
  to_integer index = Some z ∧ in_bounds a index = true.
Proof.
  intros Hx Hz HL. unfold in_bounds, to_integer. rewrite Hx.
  rewrite integer_SF_Zcanon by lia. split; [done|].
  apply andb_true_intro. split; [apply Z.leb_le|apply Z.ltb_lt]; lia.
Qed.

(** A read at an index in bounds gives the element at that index. *)
Lemma get_in_bounds (a : list float) (index : float) :
  in_bounds a index = true ->
  ∃ z, to_integer index = Some z ∧ a !! Z.to_nat z = Some (get a index).
Proof.
  unfold in_bounds, get. destruct (to_integer index) as [z|]; [|done].
  intros [H0 HL]%andb_prop. apply Z.leb_le in H0. apply Z.ltb_lt in HL.
  exists z. split; [done|]. destruct (Z.leb_spec 0 z); [|lia].
  destruct (lookup_lt_is_Some_2 a (Z.to_nat z)) as [v Hv]; [lia|].
  by rewrite Hv.
Qed.

(** C10, as stated, fails: the allocation of the output throws a
    [RangeError] when [Math.round(length * ratio)] is not a valid array
    length, here with the positive rates 1 and 1e16. *)
Lemma resampleFloat32_not_total :
  (0 <? 1)%float = true ∧ (0 <? 1e16)%float = true
  ∧ resampleFloat32 [0.5%float] 1 1e16 = None.
Proof. repeat split; vm_compute; reflexivity. Qed.

(** C10, amended.  In the unequal-rates branch, whenever
    [resampleFloat32] returns an output (of at most [2 ^ 48] elements, for
    an input of fewer than [2 ^ 53] elements), every read of the
    interpolation loop is in bounds: for each output index [i], [index0 =
    Math.floor(i / ratio)] is an integer with [0 <= index0 <= length - 1],
    [index1] is the integer [min(index0 + 1, length - 1)], and both reads
    give an element of the input. *)
Theorem resampleFloat32_reads_in_bounds
    (inputArray out : list float) (originalRate targetRate : float) (i : nat) :
  (originalRate =? targetRate)%float = false ->
  resampleFloat32 inputArray originalRate targetRate = Some out ->
  Z.of_nat (length inputArray) < 2 ^ 53 ->
  Z.of_nat (length out) <= 2 ^ 48 ->
  (i < length out)%nat ->
  let ratio := (targetRate / originalRate)%float in
  ∃ z0 z1,
    to_integer (index0 ratio i) = Some z0
    ∧ to_integer (index1 inputArray ratio i) = Some z1
    ∧ 0 <= z0 <= Z.of_nat (length inputArray) - 1
    ∧ z1 = Z.min (z0 + 1) (Z.of_nat (length inputArray) - 1)
    ∧ in_bounds inputArray (index0 ratio i) = true
    ∧ in_bounds inputArray (index1 inputArray ratio i) = true
    ∧ inputArray !! Z.to_nat z0 = Some (get inputArray (index0 ratio i))
    ∧ inputArray !! Z.to_nat z1 = Some (get inputArray (index1 inputArray ratio i)).
Proof.
  intros Hne Hout HL HN Hi ratio.
  destruct (resampleFloat32_elements _ _ _ _ Hne Hout) as [Hlen _].
  fold ratio in Hlen.
  destruct (newLength_bound _ _ _ HL Hlen ltac:(lia) HN)
    as (mr & er & Hratio & HL0 & Hbound).
  assert (IZR (Z.of_nat i) <= IZR (Z.of_nat (length out)) - 1)%R as HiR.
  { rewrite <- minus_IZR. apply IZR_le. lia. }
  destruct (srcIndex_floor (length inputArray) i ratio mr er Hratio HL0 HL
              ltac:(lia) ltac:(lra)) as (z0 & H0 & Hz0).
  fold (srcIndex ratio i) in H0. fold (index0 ratio i) in H0.
  pose proof (index1_integer inputArray ratio i z0 HL H0 Hz0) as H1.
  set (z1 := Z.min (z0 + 1) (Z.of_nat (length inputArray) - 1)) in *.
  destruct (in_bounds_Zcanon inputArray _ z0 H0 Hz0 HL) as [Hi0 Hb0].
  destruct (in_bounds_Zcanon inputArray _ z1 H1 ltac:(lia) HL) as [Hi1 Hb1].
  exists z0, z1. repeat split; try done; try lia.
  - destruct (get_in_bounds _ _ Hb0) as (z & Hz & Hget). by simplify_eq.
  - destruct (get_in_bounds _ _ Hb1) as (z & Hz & Hget). by simplify_eq.
Qed.

Lemma resampleFloat32_reads_in_bounds_witness :
  ∃ z0 z1,
    to_integer (index0 (20 / 10) 19) = Some z0
    ∧ to_integer (index1 ramp (20 / 10) 19) = Some z1
    ∧ 0 <= z0 <= Z.of_nat (length ramp) - 1
    ∧ z1 = Z.min (z0 + 1) (Z.of_nat (length ramp) - 1)
    ∧ in_bounds ramp (index0 (20 / 10) 19) = true
    ∧ in_bounds ramp (index1 ramp (20 / 10) 19) = true
    ∧ ramp !! Z.to_nat z0 = Some (get ramp (index0 (20 / 10) 19))
    ∧ ramp !! Z.to_nat z1 = Some (get ramp (index1 ramp (20 / 10) 19)).
Proof.
  apply (resampleFloat32_reads_in_bounds ramp
           (default [] (resampleFloat32 ramp 10 20)) 10 20 19).
  - reflexivity.
  - vm_compute. reflexivity.
  - vm_compute. reflexivity.
  - vm_compute. discriminate.
  - vm_compute. lia.
Defined.
End ResampleReads.
(** * Further properties *)

(** ** The playback buffer over several pulls *)
Section PlaybackRuns.
Import Worklet WorkletSetup.

(** X1.  [k] successive calls of [process] for blocks of [n] samples, with
    no message in between, write what a single pull of [k * n] samples
    would: the first [k * n] buffered samples in push order, followed by
    zeros for the shortfall; the rest stays buffered.  The blocks depend
    on the buffered samples only, not on how they were cut into chunks. *)
Theorem pulls_compose (n k : nat) (st : PCMProcessor) :
  let data := buffered st in
  ∃ st' blocks flags,
    pulls n k st = Some (st', blocks, flags)
    ∧ length blocks = k
    ∧ Forall (λ block, length block = n) blocks
    ∧ concat blocks
      = take (k * n) data ++ replicate (k * n - length data) 0%float
    ∧ buffered st' = drop (k * n) data
    ∧ ∀ st2, buffered st2 = data ->
        ∃ st2' flags2, pulls n k st2 = Some (st2', blocks, flags2).
Proof.
  cbn zeta. revert st. induction k as [|k IH]; intros st.
  - exists st, [], []. cbn. rewrite take_0, drop_0.
    repeat split; try done.
    intros st2 _. by exists st2, [].
  - destruct (process_block st n) as (st1 & c & Hp & Hb & _).
    destruct (IH st1) as (st' & blocks & flags & Hk & Hlen & Hall & Hcat & Hrest & Hsame).
    exists st', (pull_block n (buffered st) :: blocks), (c :: flags).
    cbn [pulls]. rewrite Hp, Hk. cbn [mbind option_bind].
    split; [done|]. split; [cbn; lia|].
    split; [constructor; [apply pull_block_length | done]|].
    split; [|split].
    + cbn [concat]. rewrite Hcat, Hb.
      change (take (k * n) (drop n (buffered st))
              ++ replicate (k * n - length (drop n (buffered st))) 0%float)
        with (pull_block (k * n) (drop n (buffered st))).
      rewrite pull_block_app. done.
    + rewrite Hrest, Hb, drop_drop. f_equal.
    + intros st2 Heq.
      destruct (process_block st2 n) as (st3 & c2 & Hp2 & Hb2 & _).
      destruct (Hsame st3) as (st2' & flags2 & Hk2); [by rewrite Hb2, Heq|].
      exists st2', (c2 :: flags2). rewrite Hp2, Heq, Hk2. done.
Qed.

(** X3.  Whatever messages arrive, in whatever order, every chunk is
    appended to the buffered samples in arrival order and nothing is
    removed: STOP discards no audio, a chunk that arrives after STOP is
    still queued, and once STOP has arrived the processor stays stopped. *)
Theorem messages_accumulate (st : PCMProcessor) (messages : list message) :
  let st' := foldl onmessage st messages in
  buffered st' = buffered st ++ concat (chunkData <$> messages)
  ∧ buffer st' = buffer st
  ∧ shouldStop st' = shouldStop st || existsb isSTOP messages.
Proof.
  cbn zeta. revert st. induction messages as [|m messages IH]; intros st.
  - cbn. by rewrite app_nil_r, orb_false_r.
  - cbn [foldl fmap list_fmap concat existsb].
    destruct (IH (onmessage st m)) as (Hb & Hbuf & Hs).
    rewrite Hb, Hbuf, Hs. destruct m; cbn [chunkData isSTOP].
    + unfold buffered. cbn. split; [done|]. split; [done|].
      by rewrite orb_true_r.
    + rewrite buffered_push. cbn. split; [by rewrite <- (assoc_L (++))|].
      split; [done|]. done.
Qed.

(** X2.  A playback session: chunks are enqueued with
    [enqueueAudioData], [stopAudioWorklet] is called, and the audio thread
    pulls blocks of [n > 0] samples.  The terminal flag is reached after
    at most [total / n + 1] pulls, where [total] counts the samples
    buffered before and the samples enqueued; up to there the blocks are
    these samples, in the order they were enqueued, followed by at most
    [n] zeros, and the processor is left empty.  Without a node,
    [stopAudioWorklet] posts nothing. *)
Theorem playback_session (st : PCMProcessor) (chunks : list (list float)) (n : nat) :
  0 < n ->
  let node := foldl enqueueAudioData st chunks in
  let data := buffered st ++ concat chunks in
  stopAudioWorklet None = None
  ∧ ∃ node' blocks st',
      stopAudioWorklet (Some node) = Some node'
      ∧ drains n node' blocks st'
      ∧ length blocks ≤ length data / n + 1
      ∧ concat blocks = data ++ replicate (length blocks * n - length data) 0%float
      ∧ length blocks * n - length data ≤ n
      ∧ buffered st' = [].
Proof.
  intros Hn node data. split; [done|].
  assert (buffered (onmessage node STOP) = data) as Hdata.
  { subst node data.
    assert (∀ st0, buffered (foldl enqueueAudioData st0 chunks)
                   = buffered st0 ++ concat chunks) as Hall.
    { induction chunks as [|c chunks IH]; intros st0.
      - cbn. by rewrite app_nil_r.
      - cbn [foldl concat]. rewrite IH. unfold enqueueAudioData.
        rewrite buffered_push. by rewrite <- (assoc_L (++)). }
    unfold buffered at 1. cbn [onmessage bufferQueue buffer].
    exact (Hall st). }
  destruct (drains_bounded n (onmessage node STOP) Hn eq_refl)
    as (blocks & st' & Hd & Hlen & Hcat & Hz & Hend).
  rewrite Hdata in *.
  exists (onmessage node STOP), blocks, st'. done.
Qed.

Lemma playback_session_witness :
  ∃ node' blocks st',
    stopAudioWorklet (Some (foldl enqueueAudioData constructor
                              [[1; 2]%float; [3]%float])) = Some node'
    ∧ drains 2 node' blocks st'
    ∧ length blocks ≤ 3 / 2 + 1.
Proof.
  destruct (playback_session constructor [[1; 2]%float; [3]%float] 2) as [_ H]; [lia|].
  destruct H as (node' & blocks & st' & Hs & Hd & Hlen & _).
  exists node', blocks, st'. split; [exact Hs|]. split; [exact Hd | exact Hlen].
Defined.
End PlaybackRuns.
(** ** [writeWav] on any number of channels *)
Section WriteWavChannels.
Import JS DataView Wav.
Local Open Scope Z_scope.

Lemma channelBytes_length (channel : list float) :
  length (WavWorker.channelBytes channel) = (2 * length channel)%nat.
Proof. unfold WavWorker.channelBytes. by rewrite int16Bytes_length, length_fmap. Qed.

Lemma concat_channelBytes_length (channels : list (list float)) :
  length (concat (WavWorker.channelBytes <$> channels))
  = (2 * length (concat channels))%nat.
Proof.
  induction channels as [|ch channels IH]; [done|].
  cbn [fmap list_fmap concat]. rewrite !length_app, IH, channelBytes_length. lia.
Qed.

Lemma writeString_from_length (bs view view' : list byte) (offset : Z) :
  writeString_from view offset bs = Some view' -> length view' = length view.
Proof.
  revert view offset. induction bs as [|c bs IH]; intros view offset; cbn [writeString_from].
  - by intros [= ->].
  - unfold setUint8, setBytes. destruct (0 <=? offset); [|done].
    unfold TypedArray.set_at. case_decide as Hle; [|done].
    cbn [mbind option_bind]. intros Hw. apply IH in Hw. rewrite Hw.
    rewrite !length_app, length_take, length_drop. lia.
Qed.

(** A write that does not fit the buffer fails: [setUint8] throws a
    [RangeError]. *)
Lemma writeString_from_overflow (bs view : list byte) (offset : Z) :
  0 <= offset ->
  Z.of_nat (length view) < offset + Z.of_nat (length bs) ->
  offset <= Z.of_nat (length view) ->
  writeString_from view offset bs = None.
Proof.
  revert view offset. induction bs as [|c bs IH]; intros view offset H0 Hlt Hle.
  - cbn in Hlt. lia.
  - cbn [writeString_from]. unfold setUint8, setBytes.
    destruct (Z.leb_spec 0 offset); [|lia].
    unfold TypedArray.set_at.
    change (le_split 1 (byte.unsigned c)) with [byte.of_Z (byte.unsigned c)].
    cbn [length]. case_decide as Hfit; [|done]. cbn [mbind option_bind].
    apply IH; [lia| |];
      rewrite !length_app, length_take, length_drop; cbn [length] in *; lia.
Qed.

(** The channel loop writes the channels one after the other. *)
Lemma writeChannels_spec (channelData : list (list float)) (count i : nat)
    (pre old post : list byte) :
  (i + count ≤ length channelData)%nat ->
  length old = length (concat (WavWorker.channelBytes <$> take count (drop i channelData))) ->
  writeChannels channelData (pre ++ old ++ post) (Z.of_nat (length pre)) i count
  = Some (pre ++ concat (WavWorker.channelBytes <$> take count (drop i channelData)) ++ post).
Proof.
  revert i pre old. induction count as [|count IH]; intros i pre old Hi Hold.
  - cbn in Hold. destruct old; [|done]. done.
  - destruct (lookup_lt_is_Some_2 channelData i) as [ch Hch]; [lia|].
    cbn [writeChannels]. rewrite Hch. cbn [mbind option_bind].
    rewrite (drop_S _ _ _ Hch) in Hold |- *.
    cbn [take fmap list_fmap concat] in Hold |- *.
    rewrite length_app in Hold.
    change (int16Bytes (floatTo16BitPCM <$> ch)) with (WavWorker.channelBytes ch).
    set (bytes := WavWorker.channelBytes ch) in *.
    rewrite <- (take_drop (length bytes) old).
    rewrite <- (assoc_L (++) (take _ old)).
    rewrite (writeString_from_middle bytes pre (take (length bytes) old))
      by (rewrite length_take; lia).
    cbn [mbind option_bind].
    replace (Z.of_nat (length pre) + Z.of_nat (length bytes))
      with (Z.of_nat (length (pre ++ bytes))) by (rewrite length_app; lia).
    rewrite (assoc_L (++) pre bytes).
    rewrite (IH (S i) (pre ++ bytes) (drop (length bytes) old))
      by (rewrite ?length_drop; lia).
    by rewrite <- !(assoc_L (++)).
Qed.

(** Reading a channel the buffer does not have throws. *)
Lemma writeChannels_missing (channelData : list (list float)) (count i : nat)
    (view : list byte) (offset : Z) :
  (i ≤ length channelData < i + count)%nat ->
  writeChannels channelData view offset i count = None.
Proof.
  revert i view offset. induction count as [|count IH]; intros i view offset Hi.
  - lia.
  - cbn [writeChannels]. destruct (channelData !! i) as [ch|] eqn:Hch; [|done].
    cbn [mbind option_bind]. apply lookup_lt_Some in Hch.
    destruct (writeString_from view offset _) as [view'|]; [|done].
    cbn [mbind option_bind]. apply IH. lia.
Qed.

(** More samples than the buffer has room for make a write fail. *)
Lemma writeChannels_overflow (channelData : list (list float)) (count i : nat)
    (view : list byte) (offset : Z) :
  (i + count ≤ length channelData)%nat ->
  0 <= offset <= Z.of_nat (length view) ->
  Z.of_nat (length view)
  < offset + Z.of_nat (length (concat (WavWorker.channelBytes <$> take count (drop i channelData)))) ->
  writeChannels channelData view offset i count = None.
Proof.
  revert i view offset. induction count as [|count IH]; intros i view offset Hi Hoff Hlt.
  - rewrite take_0 in Hlt. cbn [fmap list_fmap concat length] in Hlt. lia.
  - destruct (lookup_lt_is_Some_2 channelData i) as [ch Hch]; [lia|].
    cbn [writeChannels]. rewrite Hch. cbn [mbind option_bind].
    rewrite (drop_S _ _ _ Hch) in Hlt.
    cbn [take fmap list_fmap concat] in Hlt. rewrite length_app in Hlt.
    change (int16Bytes (floatTo16BitPCM <$> ch)) with (WavWorker.channelBytes ch).
    set (bytes := WavWorker.channelBytes ch) in *.
    destruct (writeString_from view offset bytes) as [view'|] eqn:Hw; [|done].
    cbn [mbind option_bind].
    pose proof (writeString_from_length _ _ _ _ Hw) as Hlen.
    destruct (Z_lt_le_dec (Z.of_nat (length view)) (offset + Z.of_nat (length bytes)))
      as [Hover|Hfit].
    + rewrite writeString_from_overflow in Hw by lia. done.
    + apply IH; [lia|lia|]. rewrite Hlen. lia.
Qed.

(** The file [writeWav] builds when the channels hold no more samples
    than the declared size has room for. *)
Lemma writeWav_channels (channels : list (list float)) (sampleRate len : Z) :
  let numChan := Z.of_nat (length channels) in
  let total := Z.of_nat (length (concat channels)) in
  total <= len * numChan ->
  writeWav (AudioBuffer.mk channels sampleRate numChan len)
  = Some (headerBytes (len * numChan * 2 + 44) numChan sampleRate 2 16
            (len * numChan * 2 + 44 - 44)
          ++ concat (WavWorker.channelBytes <$> channels)
          ++ replicate (Z.to_nat (2 * (len * numChan - total))) Byte.x00).
Proof.
  intros numChan total Hfit. unfold writeWav.
  cbn [AudioBuffer.numberOfChannels AudioBuffer.length AudioBuffer.sampleRate
       AudioBuffer.channelData].
  fold numChan. set (size := len * numChan * 2 + 44).
  assert (0 <= total) by (unfold total; lia).
  rewrite new_Uint8Array_Int by lia. cbn [mbind option_bind].
  replace (Z.to_nat size)
    with (44 + (2 * length (concat channels)
                + Z.to_nat (2 * (len * numChan - total))))%nat
    by (unfold size, total in *; lia).
  rewrite !replicate_add.
  rewrite writeHeader_bytes by (rewrite length_app, length_replicate; lia).
  cbn [mbind option_bind].
  rewrite (drop_app_length' (replicate 44%nat Byte.x00)) by done.
  set (hdr := headerBytes _ _ _ _ _ _).
  change 44 with (Z.of_nat (length hdr)).
  unfold numChan. rewrite Nat2Z.id.
  rewrite (writeChannels_spec channels (length channels) 0 hdr).
  - by rewrite drop_0, firstn_all.
  - lia.
  - rewrite drop_0, firstn_all, concat_channelBytes_length, length_replicate. done.
Qed.

Lemma floatTo16BitPCM_int16 (v : float) : -32768 <= floatTo16BitPCM v <= 32767.
Proof.
  unfold floatTo16BitPCM, ToInt16. destruct (trunc _); [apply wrap16_range | lia].
Qed.

Lemma concat_lookup_block {A : Type} (blocks : list (list A)) (m c : nat) (b : list A) :
  Forall (λ b, length b = m) blocks -> blocks !! c = Some b ->
  drop (c * m) (concat blocks) = b ++ concat (drop (S c) blocks).
Proof.
  intros Hall. revert c. induction Hall as [|b0 blocks Hb0 _ IH]; intros c Hc.
  - done.
  - destruct c as [|c].
    + injection Hc as ->. done.
    + cbn [concat]. replace (S c * m)%nat with (length b0 + c * m)%nat by lia.
      rewrite <- drop_drop, drop_app_length. by apply IH.
Qed.

(** X4.  For an audio buffer whose channels all hold [len] samples,
    [writeWav] returns the 44-byte header followed by the samples of
    channel 0, then those of channel 1, and so on (one channel after the
    other, not interleaved): sample [j] of channel [c] is the 16-bit
    little-endian integer at offset [2 * (c * len + j)] of the payload. *)
Theorem writeWav_planar (channels : list (list float)) (sampleRate : Z) (len : nat) :
  Forall (λ channel, length channel = len) channels ->
  let numChan := Z.of_nat (length channels) in
  ∃ wav,
    writeWav (AudioBuffer.mk channels sampleRate numChan (Z.of_nat len)) = Some wav
    ∧ payload wav = concat (WavWorker.channelBytes <$> channels)
    ∧ length (payload wav) = (2 * len * length channels)%nat
    ∧ ∀ c j channel v,
        channels !! c = Some channel -> channel !! j = Some v ->
        getInt16 (payload wav) (Z.of_nat (2 * (c * len + j)))
        = Some (floatTo16BitPCM v).
Proof.
  intros Hall numChan.
  assert (length (concat channels) = (len * length channels)%nat) as Htotal.
  { clear numChan. induction Hall as [|ch channels Hch _ IH]; [cbn; lia|].
    cbn [concat length]. rewrite length_app, IH, Hch. lia. }
  pose proof (writeWav_channels channels sampleRate (Z.of_nat len)) as Hwav.
  cbn zeta in Hwav. fold numChan in Hwav.
  rewrite Hwav by (unfold numChan; lia).
  replace (Z.to_nat (2 * (Z.of_nat len * numChan - Z.of_nat (length (concat channels)))))
    with 0%nat by (unfold numChan; lia).
  cbn [replicate]. rewrite app_nil_r.
  eexists. split; [reflexivity|].
  assert (payload (headerBytes (Z.of_nat len * numChan * 2 + 44) numChan sampleRate
                     2 16 (Z.of_nat len * numChan * 2 + 44 - 44)
                   ++ concat (WavWorker.channelBytes <$> channels))
          = concat (WavWorker.channelBytes <$> channels)) as ->
    by (unfold payload; by apply drop_app_length').
  split; [done|].
  split; [rewrite concat_channelBytes_length; lia|].
  intros c j channel v Hc Hj.
  assert (Forall (λ b : list byte, length b = (2 * len)%nat) (WavWorker.channelBytes <$> channels))
    as Hblocks.
  { apply Forall_fmap. eapply Forall_impl; [exact Hall|].
    intros ch Hch. cbn. by rewrite channelBytes_length, Hch. }
  pose proof (lookup_lt_Some _ _ _ Hc) as Hclt.
  pose proof (lookup_lt_Some _ _ _ Hj) as Hjlt.
  rewrite (Forall_lookup_1 _ _ _ _ Hall Hc) in Hjlt.
  unfold getInt16, getUint16.
  rewrite getBytes_in.
  2: lia.
  2:{ rewrite concat_channelBytes_length, Htotal. nia. }
  rewrite Nat2Z.id.
  replace (2 * (c * len + j))%nat with (c * (2 * len) + 2 * j)%nat by lia.
  rewrite <- drop_drop.
  rewrite (concat_lookup_block _ (2 * len) c (WavWorker.channelBytes channel) Hblocks)
    by (by rewrite list_lookup_fmap, Hc).
  rewrite drop_app_le by (rewrite channelBytes_length;
                          rewrite (Forall_lookup_1 _ _ _ _ Hall Hc); lia).
  rewrite take_app_le
    by (rewrite length_drop, channelBytes_length,
          (Forall_lookup_1 _ _ _ _ Hall Hc); lia).
  unfold WavWorker.channelBytes at 1.
  rewrite (int16Bytes_sample _ j (floatTo16BitPCM v))
    by (by rewrite list_lookup_fmap, Hj).
  cbn [fmap option_fmap option_map]. rewrite le_combine_split, wrap16_mod.
  f_equal. apply wrap16_small.
  apply floatTo16BitPCM_int16.
Qed.
End WriteWavChannels.
Section WriteWavFile.
Import JS DataView Wav.
Local Open Scope Z_scope.

Lemma writeWav_planar_witness :
  ∃ wav,
    writeWav (AudioBuffer.mk [[0.5; -1]%float; [1; 0]%float] 8000
                (Z.of_nat 2) (Z.of_nat 2)) = Some wav
    ∧ getInt16 (payload wav) (Z.of_nat (2 * (1 * 2 + 0))) = Some (floatTo16BitPCM 1).
Proof.
  destruct (writeWav_planar [[0.5; -1]%float; [1; 0]%float] 8000 2)
    as (wav & Hwav & _ & _ & Hget).
  - repeat constructor.
  - exists wav. split; [exact Hwav|].
    apply (Hget 1%nat 0%nat [1; 0]%float 1%float); reflexivity.
Defined.

(** X6.  [writeWav] throws when the channel arrays do not match the
    declared shape: with fewer arrays than [numberOfChannels] (reading the
    missing one fails), and with more samples in total than
    [length * numberOfChannels] (a write falls outside the buffer). *)
Theorem writeWav_shape_errors (channels : list (list float)) (sampleRate numChan len : Z) :
  (Z.of_nat (length channels) < numChan ->
   writeWav (AudioBuffer.mk channels sampleRate numChan len) = None)
  ∧ (numChan = Z.of_nat (length channels) -> 0 <= len ->
     len * numChan < Z.of_nat (length (concat channels)) ->
     writeWav (AudioBuffer.mk channels sampleRate numChan len) = None).
Proof.
  split.
  - intros Hfew. unfold writeWav.
    cbn [AudioBuffer.numberOfChannels AudioBuffer.length AudioBuffer.sampleRate
         AudioBuffer.channelData].
    destruct (new_Uint8Array _) as [view|]; [|done]. cbn [mbind option_bind].
    destruct (writeHeader _ _ _ _ _ _ _) as [view'|]; [|done].
    cbn [mbind option_bind]. apply writeChannels_missing. lia.
  - intros -> Hlen Hmany. unfold writeWav.
    cbn [AudioBuffer.numberOfChannels AudioBuffer.length AudioBuffer.sampleRate
         AudioBuffer.channelData].
    set (size := len * Z.of_nat (length channels) * 2 + 44).
    assert (44 <= size) by (unfold size; nia).
    rewrite new_Uint8Array_Int by lia. cbn [mbind option_bind].
    rewrite writeHeader_bytes by (rewrite length_replicate; lia).
    cbn [mbind option_bind]. rewrite Nat2Z.id.
    apply writeChannels_overflow.
    + lia.
    + rewrite length_app, headerBytes_length, length_drop, length_replicate. lia.
    + rewrite drop_0, firstn_all, concat_channelBytes_length.
      rewrite length_app, headerBytes_length, length_drop, length_replicate.
      unfold size in *. lia.
Qed.

Lemma writeWav_shape_errors_witness :
  writeWav (AudioBuffer.mk [[0.5]%float] 8000 2 1) = None
  ∧ writeWav (AudioBuffer.mk [[0.5; 1]%float] 8000 1 1) = None.
Proof.
  split.
  - apply (proj1 (writeWav_shape_errors [[0.5]%float] 8000 2 1)). cbn. lia.
  - apply (proj2 (writeWav_shape_errors [[0.5; 1]%float] 8000 1 1));
      [reflexivity|lia|cbn; lia].
Defined.
End WriteWavFile.

(** ** Clipping *)
Section Clipping.
Import JS Wav.
Local Open Scope Z_scope.

Lemma SFcompare_finite_Eq (s : bool) (m : positive) (e : Z) (y : spec_float) :
  SFcompare (S754_finite s m e) y = Some Eq -> y = S754_finite s m e.
Proof.
  destruct y as [sy|sy| |sy my ey]; cbn [SFcompare].
  - by destruct s.
  - by destruct sy.
  - done.
  - rewrite compare_cont_Z.
    destruct s, sy; try done;
      destruct (Z.compare_spec e ey) as [->|Hlt|Hgt]; try done;
      destruct (Z.compare_spec (Zpos m) (Zpos my)) as [Heq|Hlt|Hgt]; try done;
      intros _; by simplify_eq.
Qed.

Lemma leb_not_ltb_eq (x y : float) (s : bool) (m : positive) (e : Z) :
  Prim2SF x = S754_finite s m e ->
  (x <=? y)%float = true -> (x <? y)%float = false -> y = x.
Proof.
  intros Hx. rewrite FloatAxioms.leb_spec, FloatAxioms.ltb_spec, Hx.
  unfold SFleb, SFltb.
  destruct (SFcompare (S754_finite s m e) (Prim2SF y)) as [[]|] eqn:Hc; try done.
  intros _ _. apply SFcompare_finite_Eq in Hc.
  apply Prim2SF_inj. by rewrite Hx.
Qed.

Lemma geb_not_gtb_eq (x y : float) (s : bool) (m : positive) (e : Z) :
  Prim2SF x = S754_finite s m e ->
  (y <=? x)%float = true -> (y <? x)%float = false -> y = x.
Proof.
  intros Hx. rewrite FloatAxioms.leb_spec, FloatAxioms.ltb_spec, Hx.
  unfold SFleb, SFltb.
  destruct (SFcompare (Prim2SF y) (S754_finite s m e)) as [c|] eqn:Hc; [|done].
  apply SFcompare_antisym in Hc.
  destruct c; try done. cbn [CompOpp] in Hc.
  intros _ _. apply SFcompare_finite_Eq in Hc.
  apply Prim2SF_inj. by rewrite Hx.
Qed.

(** A sample of at most -1 is not above 1. *)
Lemma below_m1_not_above_1 (v : float) :
  (v <=? -1)%float = true -> (1 <? v)%float = false.
Proof.
  rewrite FloatAxioms.leb_spec, FloatAxioms.ltb_spec.
  change (Prim2SF 1) with (S754_finite false 4503599627370496 (-52)).
  change (Prim2SF (-1)) with (S754_finite true 4503599627370496 (-52)).
  unfold SFleb, SFltb.
  destruct (Prim2SF v) as [s|s| |s m e]; cbn [SFcompare]; try done.
  - by destruct s.
  - by destruct s.
Qed.

(** X7.  Clipping: every sample of at least 1, [+Infinity] included, is
    written as 32767, and every sample of at most -1, [-Infinity]
    included, as -32768. *)
Theorem floatTo16BitPCM_clips (v : float) :
  ((1 <=? v)%float = true -> floatTo16BitPCM v = 32767)
  ∧ ((v <=? -1)%float = true -> floatTo16BitPCM v = -32768).
Proof.
  split.
  - intros Hle. destruct (leb_not_nan _ _ Hle) as [_ Hv].
    destruct (clampSample_cases v Hv) as (_ & _ & _ & H1 & _ & H3).
    destruct (1 <? v)%float eqn:Hlt.
    + unfold floatTo16BitPCM. rewrite (H1 eq_refl). vm_compute. reflexivity.
    + assert (v = 1%float) as ->
        by (eapply (leb_not_ltb_eq 1 v); [reflexivity|done|done]).
      vm_compute. reflexivity.
  - intros Hle. destruct (leb_not_nan _ _ Hle) as [Hv _].
    destruct (clampSample_cases v Hv) as (_ & _ & _ & _ & H2 & _).
    pose proof (below_m1_not_above_1 v Hle) as H1.
    destruct (v <? -1)%float eqn:Hlt.
    + unfold floatTo16BitPCM. rewrite (H2 H1 eq_refl). vm_compute. reflexivity.
    + assert (v = (-1)%float) as ->
        by (eapply (geb_not_gtb_eq (-1) v); [reflexivity|done|done]).
      vm_compute. reflexivity.
Qed.

Lemma floatTo16BitPCM_clips_witness :
  floatTo16BitPCM infinity = 32767 ∧ floatTo16BitPCM (-2.5) = -32768.
Proof.
  split.
  - apply (proj1 (floatTo16BitPCM_clips infinity)). reflexivity.
  - apply (proj2 (floatTo16BitPCM_clips (-2.5))). reflexivity.
Defined.
End Clipping.

(** ** The worker round trip of [convertToWav] *)
Section ConvertToWav.
Import JS Wav.
Local Open Scope Z_scope.

Lemma mapM_lookup_seq {A : Type} (l : list A) :
  mapM (λ i, l !! i) (seq 0 (length l)) = Some l.
Proof.
  induction l as [|x l IH] using rev_ind; [done|].
  rewrite length_app. cbn [length]. rewrite Nat.add_1_r, seq_S, Nat.add_0_l.
  apply mapM_Some. apply Forall2_app.
  - apply mapM_Some in IH.
    eapply Forall2_impl; [exact IH|]. intros i y Hy. cbn in Hy |- *.
    by apply lookup_app_l_Some.
  - constructor; [|constructor]. cbn. by rewrite list_lookup_middle.
Qed.

(** X8.  [convertToWav] hands the channels of the audio buffer to the
    worker unchanged: it resolves with a blob of type [audio/wav] holding
    exactly the file [writeWav] builds for the buffer, it rejects when
    [writeWav] throws, and it is never left pending.  The worker posts no
    answer to a message whose type is not ['convert']. *)
Theorem convertToWav_resolves (audioBuffer : AudioBuffer.t) :
  AudioBuffer.numberOfChannels audioBuffer
  = Z.of_nat (length (AudioBuffer.channelData audioBuffer)) ->
  WavWorker.convertToWav audioBuffer
  = match writeWav audioBuffer with
    | Some wav => WavWorker.Resolved (WavWorker.mkBlob wav "audio/wav")
    | None => WavWorker.Rejected
    end
  ∧ ∀ data, WavWorker.type data ≠ "convert"%string ->
      WavWorker.onmessage data = Some None.
Proof.
  intros Hn. split.
  - destruct audioBuffer as [channels sampleRate numChan len]. cbn in Hn. subst numChan.
    unfold WavWorker.convertToWav, WavWorker.collectChannels.
    cbn [AudioBuffer.numberOfChannels AudioBuffer.length AudioBuffer.sampleRate
         AudioBuffer.channelData].
    rewrite Nat2Z.id, mapM_lookup_seq.
    unfold WavWorker.onmessage.
    cbn [WavWorker.type WavWorker.channelData WavWorker.sampleRate
         WavWorker.numberOfChannels WavWorker.length].
    change (String.eqb "convert" "convert") with true. cbn match.
    destruct (writeWav _) as [wav|]; [|done]. done.
  - intros data Hne. unfold WavWorker.onmessage.
    destruct (String.eqb_spec (WavWorker.type data) "convert"); done.
Qed.

Lemma convertToWav_resolves_witness :
  ∃ wav,
    WavWorker.convertToWav (AudioBuffer.mk [[0.5; -1]%float] 8000 1 2)
    = WavWorker.Resolved (WavWorker.mkBlob wav "audio/wav")
    ∧ length wav = 48%nat.
Proof.
  destruct (convertToWav_resolves (AudioBuffer.mk [[0.5; -1]%float] 8000 1 2))
    as [H _]; [reflexivity|].
  rewrite H. vm_compute. eexists. split; reflexivity.
Defined.
End ConvertToWav.
(** ** [bufferToWav]: alignment, re-encoding and a zero sample rate *)
Section BufferToWavMore.
Import JS DataView Wav.
Local Open Scope Z_scope.

Lemma even_length_Z (data : list byte) :
  (length data mod 2 = 0)%nat ->
  Z.of_nat (length data) = 2 * (Z.of_nat (length data) / 2).
Proof.
  intros Heven. apply Z.div_exact; [lia|].
  change 2 with (Z.of_nat 2). by rewrite <- Nat2Z.inj_mod, Heven.
Qed.

Lemma set_at_too_long {A : Type} (target source : list A) (offset : nat) :
  (length target < offset + length source)%nat ->
  TypedArray.set_at target source offset = None.
Proof. intros Hlt. unfold TypedArray.set_at. by rewrite decide_False by lia. Qed.

(** X9.  An input that already holds a whole number of seconds
    ([length / 2] a multiple of the sample rate) is not padded, whatever
    the channel count: the payload is the input and the file has
    [44 + length] bytes. *)
Theorem bufferToWav_aligned
    (combinedChunks : list byte) (sampleRate numChannels : Z) :
  (length combinedChunks mod 2 = 0)%nat ->
  0 < sampleRate -> 0 <= numChannels ->
  (sampleRate | Z.of_nat (length combinedChunks) / 2) ->
  ∃ wav,
    bufferToWav combinedChunks sampleRate numChannels 16 = Some wav
    ∧ payload wav = combinedChunks
    ∧ length wav = (44 + length combinedChunks)%nat.
Proof.
  intros Heven Hsr Hch Hdiv.
  pose proof (bufferToWav_16 combinedChunks sampleRate numChannels Hsr Hch) as Hwav.
  cbn zeta in Hwav. rewrite (trimToEven_even _ Heven) in Hwav.
  rewrite paddingSize16_aligned in Hwav by done.
  change (Z.to_nat 0) with 0%nat in Hwav. cbn [replicate] in Hwav.
  rewrite app_nil_r in Hwav.
  eexists. split; [exact Hwav|]. split.
  - unfold payload. by apply drop_app_length'.
  - by rewrite length_app, headerBytes_length.
Qed.

Lemma bufferToWav_aligned_witness :
  ∃ wav,
    bufferToWav [Byte.x01; Byte.x02; Byte.x03; Byte.x04] 2 2 16 = Some wav
    ∧ payload wav = [Byte.x01; Byte.x02; Byte.x03; Byte.x04].
Proof.
  destruct (bufferToWav_aligned [Byte.x01; Byte.x02; Byte.x03; Byte.x04] 2 2)
    as (wav & Hwav & Hpay & _).
  - reflexivity.
  - lia.
  - lia.
  - exists 1. reflexivity.
  - exists wav. split; [exact Hwav | exact Hpay].
Defined.

(** X10.  With one channel and a positive sample rate below 2^53,
    encoding is idempotent on the payload: whenever the encoder returns a file,
    encoding the payload of that file again, at the same sample rate,
    returns the same file. *)
Theorem bufferToWav_mono_idempotent
    (combinedChunks : list byte) (sampleRate : Z) (wav : list byte) :
  0 < sampleRate < 2 ^ 53 ->
  bufferToWav combinedChunks sampleRate 1 16 = Some wav ->
  bufferToWav (payload wav) sampleRate 1 16 = Some wav.
Proof.
  intros [Hsr _] Hfirst.
  set (data := trimToEven combinedChunks).
  assert (bufferToWav combinedChunks sampleRate 1 16
          = bufferToWav data sampleRate 1 16) as Htrim.
  { unfold bufferToWav. fold data.
    by rewrite (trimToEven_even data) by apply trimToEven_length_even. }
  destruct (bufferToWav_mono_padding data sampleRate)
    as (wav' & k & Hwav & Hpay & Hdiv & Hrange);
    [apply trimToEven_length_even | done |].
  assert (wav' = wav) as -> by congruence.
  assert (length (payload wav) mod 2 = 0)%nat as Heven.
  { destruct Hdiv as [q Hq].
    assert (Z.of_nat (length (payload wav)) mod 2 = 0) as Hz.
    { rewrite Hq. replace (q * (sampleRate * 1 * 2)) with (q * sampleRate * 2) by lia.
      apply Z.mod_mul. lia. }
    change 2 with (Z.of_nat 2) in Hz. rewrite <- Nat2Z.inj_mod in Hz. lia. }
  assert (sampleRate | Z.of_nat (length (payload wav)) / 2) as Hsec.
  { destruct Hdiv as [q Hq]. exists q.
    rewrite Hq. replace (q * (sampleRate * 1 * 2)) with (q * sampleRate * 2) by lia.
    by rewrite Z.div_mul by lia. }
  pose proof (bufferToWav_16 data sampleRate 1 Hsr ltac:(lia)) as H1.
  cbn zeta in H1.
  rewrite (trimToEven_even data) in H1 by apply trimToEven_length_even.
  rewrite Hwav in H1. apply (inj Some) in H1.
  set (p := Z.to_nat (paddingSize16 (Z.of_nat (length data)) sampleRate 1)) in *.
  assert (payload wav = data ++ replicate p Byte.x00) as Hp1.
  { rewrite H1. unfold payload. by apply drop_app_length'. }
  rewrite bufferToWav_16 by lia. cbn zeta.
  rewrite (trimToEven_even (payload wav)) by done.
  rewrite paddingSize16_aligned by done.
  change (Z.to_nat 0) with 0%nat. cbn [replicate].
  rewrite Nat.add_0_r, app_nil_r.
  rewrite Hp1, length_app, length_replicate. fold p.
  by rewrite H1.
Qed.

Lemma bufferToWav_mono_idempotent_witness :
  ∃ wav,
    bufferToWav [Byte.x01; Byte.x02; Byte.x03] 3 1 16 = Some wav
    ∧ bufferToWav (payload wav) 3 1 16 = Some wav.
Proof.
  eexists. split; [vm_compute; reflexivity|].
  apply (bufferToWav_mono_idempotent [Byte.x01; Byte.x02; Byte.x03] 3).
  - lia.
  - vm_compute. reflexivity.
Defined.

(** X11.  With a sample rate of 0 the padding size is NaN and the
    padded buffer is allocated with length 0: the encoder returns the
    bare 44-byte header when the input holds no 16-bit sample (fewer
    than 2 bytes), and throws a [RangeError] for any longer input. *)
Theorem bufferToWav_zero_rate (combinedChunks : list byte) (numChannels : Z) :
  bufferToWav combinedChunks 0 numChannels 16
  = if decide (length combinedChunks < 2)%nat
    then Some (headerBytes 44 numChannels 0 2 16 0)
    else None.
Proof.
  unfold bufferToWav.
  pose proof (trimToEven_length_even combinedChunks) as Heven.
  assert (length (trimToEven combinedChunks) = 0%nat
          ↔ (length combinedChunks < 2)%nat) as Hlen.
  { unfold trimToEven in *. case_decide as Hodd.
    - rewrite length_take.
      pose proof (Nat.mod_upper_bound (length combinedChunks) 2 ltac:(done)). lia.
    - split; [lia|]. intros Hlt.
      destruct (length combinedChunks) as [|[|n]]; [done|cbn in Hodd; lia|lia]. }
  set (data := trimToEven combinedChunks) in *.
  change (rem (Int _) (Int 0)) with NaN. cbn [lift2 rem].
  change (new_Uint8Array NaN) with (Some (@nil byte)). cbn [mbind option_bind].
  destruct (decide (length combinedChunks < 2)%nat) as [Hlt|Hge].
  - assert (data = []) as -> by (apply length_zero_iff_nil, Hlen; lia).
    cbn [length].
    change (TypedArray.set_at (@nil byte) [] 0) with (Some (@nil byte)).
    cbn [mbind option_bind length].
    change (TypedArray.set_at (@nil byte) [] 0) with (Some (@nil byte)).
    cbn [mbind option_bind length].
    change (Z.of_nat 0) with 0. change (44 + 0) with 44.
    rewrite (new_Uint8Array_Int 44) by lia. cbn [mbind option_bind].
    rewrite writeHeader_bytes by (rewrite length_replicate; lia).
    cbn [mbind option_bind].
    change (16 / 8) with 2.
    rewrite drop_ge by (rewrite length_replicate; lia). rewrite app_nil_r.
    set (hdr := headerBytes _ _ _ _ _ _).
    assert (length hdr = 44%nat) as Hhdr by reflexivity.
    rewrite <- (app_nil_r (replicate (Z.to_nat 44) Byte.x00)).
    rewrite (set_at_start (replicate (Z.to_nat 44) Byte.x00) [] hdr)
      by (by rewrite length_replicate).
    cbn [mbind option_bind]. rewrite app_nil_r.
    change (Z.to_nat 44) with 44%nat. rewrite <- Hhdr.
    rewrite <- (app_nil_r hdr) at 1.
    change (hdr ++ []) with (hdr ++ [] ++ @nil byte) at 1.
    rewrite (set_at_middle hdr [] [] []) by done.
    by rewrite !app_nil_r.
  - rewrite (set_at_too_long [] data 0); [done|].
    destruct (decide (length data = 0%nat)) as [Hd|Hd]; [|cbn; lia].
    apply Hlen in Hd. lia.
Qed.
End BufferToWavMore.
(** ** [resampleFloat32] on degenerate rates *)
Section DegenerateRates.
Import Binary64 JS DataView Pcm.
Local Open Scope Z_scope.

(** A length that is zero or NaN allocates the empty array. *)
Lemma new_Float32Array_zero_nan (x : float) :
  (∃ s, Prim2SF x = S754_zero s) ∨ Prim2SF x = S754_nan ->
  new_Float32Array (Math_round x) = Some [].
Proof.
  intros Hx. unfold new_Float32Array, Math_round, ToIndex.
  destruct Hx as [[s Hx]|Hx]; rewrite Hx, ?Hx; cbn; done.
Qed.

(** The product of any number with a zero or a NaN is a zero or a NaN. *)
Lemma mul_zero_nan (x r : float) :
  (∃ s, Prim2SF r = S754_zero s) ∨ Prim2SF r = S754_nan ->
  (∃ s, Prim2SF (x * r) = S754_zero s) ∨ Prim2SF (x * r) = S754_nan.
Proof.
  intros Hr. rewrite FloatAxioms.mul_spec.
  destruct Hr as [[s Hr]|Hr]; rewrite Hr; destruct (Prim2SF x); cbn; eauto.
Qed.

Lemma resampleFloat32_degenerate (inputArray : list float) (originalRate targetRate : float) :
  (originalRate =? targetRate)%float = false ->
  (∃ s, Prim2SF (targetRate / originalRate) = S754_zero s)
  ∨ Prim2SF (targetRate / originalRate) = S754_nan ->
  resampleFloat32 inputArray originalRate targetRate = Some [].
Proof.
  intros Hne Hratio. unfold resampleFloat32. rewrite Hne. cbn zeta.
  rewrite (new_Float32Array_zero_nan _ (mul_zero_nan _ _ Hratio)). done.
Qed.

Lemma eqb_zero (t : float) :
  (t =? 0)%float = true -> ∃ s, Prim2SF t = S754_zero s.
Proof.
  rewrite FloatAxioms.eqb_spec. change (Prim2SF 0) with (S754_zero false).
  unfold SFeqb. destruct (Prim2SF t) as [s|s| |s m e]; cbn [SFcompare].
  - eauto.
  - by destruct s.
  - done.
  - by destruct s.
Qed.

(** X12.  A rate that is NaN makes [resampleFloat32] return the empty
    array, whatever the input, and so does a target rate of zero with an
    original rate that is not zero: the audio is dropped without an
    exception.  When both rates are zero they are equal, and the input is
    returned unchanged. *)
Theorem resampleFloat32_invalid_rate_is_empty
    (inputArray : list float) (originalRate targetRate : float) :
  (is_nan originalRate = true ∨ is_nan targetRate = true ->
   resampleFloat32 inputArray originalRate targetRate = Some [])
  ∧ ((targetRate =? 0)%float = true -> (originalRate =? 0)%float = false ->
     resampleFloat32 inputArray originalRate targetRate = Some [])
  ∧ ((targetRate =? 0)%float = true -> (originalRate =? 0)%float = true ->
     resampleFloat32 inputArray originalRate targetRate = Some inputArray).
Proof.
  split; [|split].
  - intros Hbad. apply resampleFloat32_degenerate.
    + rewrite FloatAxioms.eqb_spec.
      destruct Hbad as [H|H]; apply is_nan_true in H; subst;
        change (Prim2SF nan) with S754_nan; [done|].
      by destruct (Prim2SF originalRate).
    + right. rewrite FloatAxioms.div_spec.
      destruct Hbad as [H|H]; apply is_nan_true in H; subst;
        change (Prim2SF nan) with S754_nan; [|done].
      by destruct (Prim2SF targetRate).
  - intros Ht Ho. apply eqb_zero in Ht as [s Ht].
    rewrite FloatAxioms.eqb_spec in Ho.
    change (Prim2SF 0) with (S754_zero false) in Ho. unfold SFeqb in Ho.
    apply resampleFloat32_degenerate.
    + rewrite FloatAxioms.eqb_spec, Ht. unfold SFeqb.
      destruct (Prim2SF originalRate) as [so|so| |so mo eo]; cbn [SFcompare] in *;
        try done; by destruct so.
    + rewrite FloatAxioms.div_spec, Ht.
      destruct (Prim2SF originalRate); cbn in *; eauto; done.
  - intros Ht Ho. apply eqb_zero in Ht as [s Ht]. apply eqb_zero in Ho as [so Ho].
    unfold resampleFloat32.
    replace (originalRate =? targetRate)%float with true; [done|].
    symmetry. rewrite FloatAxioms.eqb_spec, Ht, Ho. done.
Qed.

Lemma resampleFloat32_invalid_rate_is_empty_witness :
  resampleFloat32 [0.5; 0.25]%float nan 44100 = Some []
  ∧ resampleFloat32 [0.5; 0.25]%float 24000 0 = Some []
  ∧ resampleFloat32 [0.5; 0.25]%float (-0) 0 = Some [0.5; 0.25]%float.
Proof.
  destruct (resampleFloat32_invalid_rate_is_empty [0.5; 0.25]%float nan 44100)
    as (H1 & _ & _).
  destruct (resampleFloat32_invalid_rate_is_empty [0.5; 0.25]%float 24000 0)
    as (_ & H2 & _).
  destruct (resampleFloat32_invalid_rate_is_empty [0.5; 0.25]%float (-0) 0)
    as (_ & _ & H3).
  split; [|split].
  - apply H1. left. reflexivity.
  - apply H2; reflexivity.
  - apply H3; reflexivity.
Defined.

(** X13.  The empty input is resampled to the empty output for every
    pair of rates, and [convertPCM16ToFloat32] of no bytes is the empty
    array for every pair of rates: no rate makes them throw. *)
Theorem resampleFloat32_empty (originalRate targetRate : float) :
  resampleFloat32 [] originalRate targetRate = Some []
  ∧ convertPCM16ToFloat32 [] originalRate targetRate = Some [].
Proof.
  assert (resampleFloat32 [] originalRate targetRate = Some []) as Hempty.
  { unfold resampleFloat32.
    destruct (originalRate =? targetRate)%float; [done|]. cbn zeta.
    rewrite new_Float32Array_zero_nan; [done|].
    rewrite FloatAxioms.mul_spec. unfold of_nat. cbn [length].
    change (Z.of_nat 0) with 0.
    rewrite (Prim2SF_of_Z 0) by lia. cbn [Zcanon].
    destruct (Prim2SF (targetRate / originalRate)); cbn; eauto. }
  split; [done|].
  unfold convertPCM16ToFloat32. cbn. exact Hempty.
Qed.

(** An infinite ratio of the rates: the output cannot be allocated. *)
Lemma resampleFloat32_infinite_ratio
    (inputArray : list float) (originalRate targetRate : float) (s : bool) :
  (originalRate =? targetRate)%float = false ->
  inputArray ≠ [] -> Z.of_nat (length inputArray) < 2 ^ 53 ->
  Prim2SF (targetRate / originalRate) = S754_infinity s ->
  resampleFloat32 inputArray originalRate targetRate = None.
Proof.
  intros Hne Hin HL Hratio. unfold resampleFloat32. rewrite Hne. cbn zeta.
  assert (Prim2SF (of_nat (length inputArray) * (targetRate / originalRate))
          = S754_infinity s) as Hx.
  { rewrite FloatAxioms.mul_spec, Hratio. unfold of_nat.
    rewrite Prim2SF_of_Z by lia.
    destruct inputArray as [|x l]; [done|].
    cbn [length] in HL |- *. rewrite Nat2Z.inj_succ in HL |- *.
    destruct (Z.succ (Z.of_nat (length l))) as [|c|c] eqn:Hc; [lia| |lia].
    cbn [Zcanon].
    destruct (canon_value c) as (m & e & -> & _); [lia|]. done. }
  unfold new_Float32Array, Math_round, ToIndex. rewrite Hx, ?Hx. done.
Qed.

(** X14.  An original rate of zero with a target rate that is a number
    other than zero makes [resampleFloat32] throw on every non-empty
    input: the ratio is infinite and the output cannot be allocated. *)
Theorem resampleFloat32_zero_original_rate_throws
    (inputArray : list float) (originalRate targetRate : float) :
  inputArray ≠ [] -> Z.of_nat (length inputArray) < 2 ^ 53 ->
  (originalRate =? 0)%float = true ->
  (targetRate =? 0)%float = false -> is_nan targetRate = false ->
  resampleFloat32 inputArray originalRate targetRate = None.
Proof.
  intros Hin HL Ho Ht Hnan.
  apply eqb_zero in Ho as [so Ho].
  apply is_nan_false in Hnan.
  rewrite FloatAxioms.eqb_spec in Ht. change (Prim2SF 0) with (S754_zero false) in Ht.
  unfold SFeqb in Ht.
  assert (∃ s, Prim2SF (targetRate / originalRate) = S754_infinity s) as [s Hratio].
  { rewrite FloatAxioms.div_spec, Ho.
    destruct (Prim2SF targetRate) as [st|st| |st mt et]; cbn in *; eauto; done. }
  apply (resampleFloat32_infinite_ratio _ _ _ s); try done.
  rewrite FloatAxioms.eqb_spec, Ho. unfold SFeqb.
  destruct (Prim2SF targetRate) as [st|st| |st mt et]; cbn in *; try done.
  - by destruct st.
  - by destruct st.
Qed.

Lemma resampleFloat32_zero_original_rate_throws_witness :
  resampleFloat32 [0.5; 0.25]%float 0 44100 = None.
Proof.
  apply (resampleFloat32_zero_original_rate_throws [0.5; 0.25]%float 0 44100).
  - discriminate.
  - reflexivity.
  - reflexivity.
  - reflexivity.
  - reflexivity.
Defined.
End DegenerateRates.
(** ** Decoding what [bufferToWav] encoded *)
Section DecodeEncoded.
Import JS DataView Wav Pcm.
Local Open Scope Z_scope.

Lemma decode_zero_bytes :
  fround (of_Z (wrap16 (le_combine [Byte.x00; Byte.x00])) / 32768)%float = 0%float.
Proof. vm_compute. reflexivity. Qed.

(** X15.  The padding [bufferToWav] adds is silence.  For an input of
    even length, a positive sample rate and a non-negative channel count,
    both below 2^53: whenever the encoder returns a file, decoding its
    payload with [convertPCM16ToFloat32] (at equal rates, not NaN) gives
    the samples decoded from the input, followed by one zero sample for
    every two padding bytes. *)
Theorem bufferToWav_padding_decodes_to_silence
    (combinedChunks : list byte) (sampleRate numChannels : Z) (rate : float)
    (wav : list byte) :
  (length combinedChunks mod 2 = 0)%nat ->
  0 < sampleRate < 2 ^ 53 -> 0 <= numChannels < 2 ^ 53 ->
  (rate =? rate)%float = true ->
  bufferToWav combinedChunks sampleRate numChannels 16 = Some wav ->
  ∃ floats k,
    convertPCM16ToFloat32 combinedChunks rate rate = Some floats
    ∧ convertPCM16ToFloat32 (payload wav) rate rate
      = Some (floats ++ replicate k 0%float)
    ∧ length (payload wav) = (length combinedChunks + 2 * k)%nat.
Proof.
  intros Heven [Hsr _] [Hch _] Hrate Hfirst.
  destruct (bufferToWav_payload combinedChunks sampleRate numChannels Hsr Hch)
    as (wav' & Hwav & Hpay).
  assert (wav' = wav) as -> by congruence.
  rewrite (trimToEven_even _ Heven) in Hpay.
  set (len := length combinedChunks) in *.
  set (miss := Z.rem (sampleRate - Z.rem (Z.of_nat len / 2) sampleRate) sampleRate).
  assert (0 <= miss) as Hmiss.
  { unfold miss. apply Z.rem_nonneg; [lia|].
    assert (0 <= Z.of_nat len / 2) as Hs by (apply Z.div_pos; lia).
    pose proof (Z.rem_bound_pos (Z.of_nat len / 2) sampleRate Hs Hsr). lia. }
  set (k := Z.to_nat (miss * numChannels)).
  assert (Z.to_nat (paddingSize16 (Z.of_nat len) sampleRate numChannels) = (2 * k)%nat)
    as Hpad by (unfold paddingSize16; fold miss; unfold k; nia).
  rewrite Hpad in Hpay.
  assert (length (payload wav) = (len + 2 * k)%nat) as Hplen
    by (by rewrite Hpay, length_app, length_replicate).
  pose proof (Nat.div_mod_eq len 2) as Hdm.
  assert (length (payload wav) mod 2 = 0)%nat as Heven2.
  { rewrite Hplen. replace (len + 2 * k)%nat with (len + k * 2)%nat by lia.
    by rewrite Nat.Div0.mod_add. }
  assert ((len + 2 * k) / 2 = len / 2 + k)%nat as Hhalf.
  { replace (len + 2 * k)%nat with (len + k * 2)%nat by lia.
    apply Nat.div_add. lia. }
  destruct (convertPCM16ToFloat32_even combinedChunks rate rate Heven)
    as (floats & Hconv & Hlen & Hget).
  destruct (convertPCM16ToFloat32_even (payload wav) rate rate Heven2)
    as (floats2 & Hconv2 & Hlen2 & Hget2).
  unfold resampleFloat32 in Hconv, Hconv2. rewrite Hrate in Hconv, Hconv2.
  fold len in Hlen, Hget. rewrite Hplen, Hhalf in Hlen2, Hget2.
  exists floats, k. split; [done|]. split; [|done].
  rewrite Hconv2. f_equal.
  apply (list_eq_same_length _ _ (len / 2 + k)%nat).
  - rewrite length_app, length_replicate. lia.
  - done.
  - intros i x y Hi Hx Hy. rewrite (Hget2 i Hi) in Hx. injection Hx as <-.
    destruct (decide (i < len / 2)%nat) as [Hlt|Hge].
    + rewrite lookup_app_l in Hy by lia. rewrite (Hget i Hlt) in Hy.
      injection Hy as <-. rewrite Hpay.
      rewrite drop_app_le by (fold len; lia).
      rewrite take_app_le by (rewrite length_drop; fold len; lia). done.
    + rewrite lookup_app_r in Hy by lia.
      apply lookup_replicate in Hy as [-> _].
      rewrite Hpay, drop_app_ge by (fold len; lia). fold len.
      rewrite drop_replicate, take_replicate.
      match goal with
      | |- context [replicate ?n Byte.x00] => replace n with 2%nat by lia
      end.
      apply decode_zero_bytes.
Qed.

Lemma bufferToWav_padding_decodes_to_silence_witness :
  ∃ wav floats k,
    bufferToWav [Byte.x00; Byte.x40] 3 1 16 = Some wav
    ∧ convertPCM16ToFloat32 [Byte.x00; Byte.x40] 24000 24000 = Some floats
    ∧ convertPCM16ToFloat32 (payload wav) 24000 24000
      = Some (floats ++ replicate k 0%float).
Proof.
  eexists.
  assert (bufferToWav [Byte.x00; Byte.x40] 3 1 16 = Some _) as Hwav
    by (vm_compute; reflexivity).
  destruct (bufferToWav_padding_decodes_to_silence [Byte.x00; Byte.x40] 3 1 24000
              _ ltac:(reflexivity) ltac:(lia) ltac:(lia) ltac:(reflexivity) Hwav)
    as (floats & k & H2 & H3 & _).
  exists floats, k. split; [exact Hwav|]. split; [exact H2 | exact H3].
Defined.
End DecodeEncoded.
(** ** Exact operations on binary64 numbers *)
Section ExactOperations.
Import Binary64 JS.
Local Open Scope Z_scope.

(** Rounding a number that is already representable. *)
Lemma binary_round_aux_valid (sx : bool) (m : positive) (e n : Z) :
  SpecFloat.valid_binary prec emax (S754_finite sx m e) = true -> 0 <= n ->
  binary_round_aux prec emax sx (Zpos m * 2 ^ n) (e - n) loc_Exact
  = S754_finite sx m e.
Proof.
  cbn [SpecFloat.valid_binary]. unfold SpecFloat.bounded, canonical_mantissa.
  intros [Hcan Hle]%andb_prop Hn. apply Z.eqb_eq in Hcan.
  change (Zpos (digits2_pos m)) with (Zdigits2 (Zpos m)) in Hcan.
  unfold binary_round_aux, shr_fexp.
  rewrite Zdigits2_mul_pow2 by lia.
  replace (Zdigits2 (Zpos m) + n + (e - n)) with (Zdigits2 (Zpos m) + e) by lia.
  rewrite Hcan. replace (e - (e - n)) with n by lia.
  cbn [shr_record_of_loc]. rewrite shr_pow2 by lia.
  cbn [shr_m loc_of_shr_record round_nearest_even].
  replace (e - n + n) with e by lia.
  rewrite Hcan. replace (e - e) with 0 by lia.
  cbn [shr shr_m]. by rewrite Hle.
Qed.

(** [1 * x] is [x]. *)
Lemma mul_1_l (x : float) : (1 * x)%float = x.
Proof.
  apply Prim2SF_inj. rewrite FloatAxioms.mul_spec.
  pose proof (Prim2SF_valid x) as Hvalid.
  change (Prim2SF 1) with (S754_finite false 4503599627370496 (-52)).
  destruct (Prim2SF x) as [s|s| |s m e]; cbn [SF64mul SFmul xorb]; try done.
  rewrite Pos2Z.inj_mul, Z.mul_comm, Z.add_comm.
  change (Zpos 4503599627370496) with (2 ^ 52).
  change (e + -52) with (e - 52).
  by apply binary_round_aux_valid.
Qed.

(** [0 * y] is a zero when [y] is finite. *)
Lemma mul_0_l_finite (y : float) :
  is_finite y = true -> ∃ s, Prim2SF (0 * y) = S754_zero s.
Proof.
  intros Hfin. rewrite FloatAxioms.mul_spec.
  change (Prim2SF 0) with (S754_zero false).
  unfold is_finite in Hfin. apply negb_true_iff, orb_false_elim in Hfin as [Hnan Hinf].
  apply is_nan_false in Hnan.
  unfold is_infinity in Hinf.
  rewrite FloatAxioms.eqb_spec, FloatAxioms.abs_spec in Hinf.
  change (Prim2SF infinity) with (S754_infinity false) in Hinf.
  destruct (Prim2SF y) as [s|s| |s m e]; cbn [SF64mul SFmul]; eauto; done.
Qed.

(** Adding a zero to a number that is not [-0] changes nothing. *)
Lemma add_zero_r (x z : float) (sz : bool) :
  Prim2SF z = S754_zero sz -> Prim2SF x ≠ S754_zero true ->
  (x + z)%float = x.
Proof.
  intros Hz Hx. apply Prim2SF_inj. rewrite FloatAxioms.add_spec, Hz.
  destruct (Prim2SF x) as [s|s| |s m e]; cbn [SF64add SFadd]; try done.
  destruct s; [done|]. by destruct sz.
Qed.

(** Adding a zero to [-0] gives a zero. *)
Lemma add_zero_zero (x z : float) (sx sz : bool) :
  Prim2SF z = S754_zero sz -> Prim2SF x = S754_zero sx ->
  ∃ s, Prim2SF (x + z) = S754_zero s.
Proof.
  intros Hz Hx. rewrite FloatAxioms.add_spec, Hz, Hx.
  destruct sx, sz; cbn; eauto.
Qed.

Lemma Math_floor_Zcanon (x : float) (j : Z) :
  Prim2SF x = Zcanon j -> 0 <= j < 2 ^ 53 -> Math_floor x = x.
Proof.
  intros Hx Hj. apply Prim2SF_inj. unfold Math_floor. rewrite Hx.
  destruct j as [|c|c]; [exact Hx| |lia]. cbn [Zcanon] in *.
  destruct (canon_value c) as (m & e & Hc & _ & He & Hm); [lia|].
  rewrite Hc in *. destruct (Z.ltb_spec e 0) as [Hneg|Hnn].
  - cbn [cond_Zopp]. rewrite (shiftl_canon c) by done.
    rewrite Prim2SF_of_Z by lia. cbn [Zcanon]. done.
  - exact Hx.
Qed.

Lemma Math_round_Zcanon (x : float) (j : Z) :
  Prim2SF x = Zcanon j -> 0 <= j < 2 ^ 53 -> Math_round x = x.
Proof.
  intros Hx Hj. apply Prim2SF_inj. unfold Math_round. rewrite Hx.
  destruct j as [|c|c]; [exact Hx| |lia]. cbn [Zcanon] in *.
  destruct (canon_value c) as (m & e & Hc & _ & He & Hm); [lia|].
  rewrite Hc in *. destruct (Z.ltb_spec e 0) as [Hneg|Hnn]; [|exact Hx].
  cbn [cond_Zopp].
  set (K := 2 ^ (- e)) in *.
  assert (0 < K) as HK by (apply Z.pow_pos_nonneg; lia).
  assert (Z.shiftl (2 * Zpos m + K) (e - 1) = Zpos c) as ->.
  { replace (e - 1) with (- (1 - e)) by lia.
    rewrite Z.shiftl_opp_r, Z.shiftr_div_pow2 by lia.
    replace (1 - e) with (1 + - e) by lia. rewrite Z.pow_add_r by lia. fold K.
    symmetry. apply (Z.div_unique _ _ _ K); [lia|]. rewrite Hm.
    change (2 ^ 1) with 2. lia. }
  cbn [Z.eqb]. rewrite Prim2SF_of_Z by lia. cbn [Zcanon]. done.
Qed.
End ExactOperations.
(** ** Output samples at integer source positions *)
Section IntegerPositions.
Import Binary64 JS Pcm.
Local Open Scope Z_scope.

(** When the source position of output index [i] is the integer [j], the
    interpolation weight is 0 and the output sample is input sample [j]. *)
Lemma interpolate_at_integer (inputArray : list float) (ratio : float) (i : nat)
    (j : Z) (x : float) :
  Z.of_nat (length inputArray) < 2 ^ 53 ->
  Forall (λ v, is_finite v = true ∧ fround v = v) inputArray ->
  Prim2SF (srcIndex ratio i) = Zcanon j ->
  0 <= j <= Z.of_nat (length inputArray) - 1 ->
  inputArray !! Z.to_nat j = Some x ->
  (interpolate inputArray ratio i =? x)%float = true
  ∧ (Prim2SF x ≠ S754_zero true -> interpolate inputArray ratio i = x).
Proof.
  intros HL Hall Hsrc Hj Hx.
  assert (index0 ratio i = srcIndex ratio i) as H0
    by (unfold index0; apply (Math_floor_Zcanon _ j); [done|lia]).
  assert (Prim2SF (index0 ratio i) = Zcanon j) as H0' by (by rewrite H0).
  pose proof (index1_integer inputArray ratio i j HL H0' Hj) as H1.
  set (j1 := Z.min (j + 1) (Z.of_nat (length inputArray) - 1)) in *.
  destruct (in_bounds_Zcanon inputArray _ j H0' Hj HL) as [Hi0 _].
  destruct (in_bounds_Zcanon inputArray _ j1 H1 ltac:(lia) HL) as [Hi1 Hb1].
  destruct (get_in_bounds _ _ Hb1) as (z & Hz & Hy).
  unfold interpolate. rewrite H0.
  assert ((srcIndex ratio i - srcIndex ratio i)%float = 0%float) as ->.
  { apply Prim2SF_inj. rewrite FloatAxioms.sub_spec, Hsrc.
    change (SF64sub (Zcanon j) (Zcanon j)) with (SFsub prec emax (Zcanon j) (Zcanon j)).
    rewrite SFsub_Zcanon by lia. by rewrite Z.sub_diag. }
  change (1 - 0)%float with 1%float. rewrite mul_1_l.
  assert (get inputArray (srcIndex ratio i) = x) as ->.
  { unfold get. rewrite <- H0, Hi0.
    destruct (Z.leb_spec 0 j); [|lia]. by rewrite Hx. }
  set (y := get inputArray (index1 inputArray ratio i)) in *.
  destruct (Forall_lookup_1 _ _ _ _ Hall Hx) as [Hxfin Hxf32].
  destruct (Forall_lookup_1 _ _ _ _ Hall Hy) as [Hyfin _].
  destruct (mul_0_l_finite y Hyfin) as [sz Hzero].
  assert (Prim2SF x = S754_zero true ∨ Prim2SF x ≠ S754_zero true) as [Hneg|Hpos]
    by (destruct (Prim2SF x) as [[]| | |]; [by left|by right..]).
  - split; [|done].
    destruct (add_zero_zero x (0 * y) true sz Hzero Hneg) as [s Hsum].
    unfold fround. rewrite Hsum.
    rewrite FloatAxioms.eqb_spec, Hsum, Hneg. by destruct s.
  - rewrite (add_zero_r x (0 * y) sz Hzero Hpos), Hxf32.
    split; [|done].
    apply eqb_refl_not_nan.
    unfold is_finite in Hxfin. apply negb_true_iff, orb_false_elim in Hxfin as [Hnan _].
    done.
Qed.

(** A non-empty output: the ratio is a positive finite number and the
    input is not empty. *)
Lemma newLength_positive (L N : nat) (ratio : float) :
  Z.of_nat L < 2 ^ 53 ->
  ToIndex (Math_round (of_nat L * ratio)) = Some N -> (0 < N)%nat ->
  ∃ mr er, Prim2SF ratio = S754_finite false mr er ∧ (0 < L)%nat.
Proof.
  intros HL HN Hpos.
  destruct (ToIndex_Math_round _ _ HN Hpos) as (mX & eX & HX & _).
  rewrite FloatAxioms.mul_spec in HX. unfold of_nat in HX.
  rewrite Prim2SF_of_Z in HX by lia.
  destruct (Z.of_nat L) as [|c|c] eqn:HLc; [| |lia].
  { cbn [Zcanon] in HX. destruct (Prim2SF ratio); cbn in HX; discriminate. }
  cbn [Zcanon] in HX.
  destruct (canon_value c) as (mL & eL & Hc & _); [lia|].
  rewrite Hc in HX.
  destruct (Prim2SF ratio) as [sr|sr| |sr mr er]; cbn [SF64mul SFmul] in HX;
    try discriminate.
  apply binary_round_aux_upper in HX; [|lia]. destruct HX as [Hs _].
  destruct sr; [discriminate Hs|].
  exists mr, er. split; [done|lia].
Qed.

(** X16.  Resampling keeps the first sample: for an input of finite
    float32 values, whenever the output is not empty its first element
    is the first element of the input (equal as numbers; identical
    unless the input starts with [-0]). *)
Theorem resampleFloat32_first_sample
    (inputArray out : list float) (originalRate targetRate : float) :
  (originalRate =? targetRate)%float = false ->
  resampleFloat32 inputArray originalRate targetRate = Some out ->
  Z.of_nat (length inputArray) < 2 ^ 53 ->
  Forall (λ v, is_finite v = true ∧ fround v = v) inputArray ->
  out ≠ [] ->
  ∃ x y,
    inputArray !! 0%nat = Some x ∧ out !! 0%nat = Some y
    ∧ (y =? x)%float = true
    ∧ (Prim2SF x ≠ S754_zero true -> y = x).
Proof.
  intros Hne Hout HL Hall Hnonempty.
  destruct (resampleFloat32_elements _ _ _ _ Hne Hout) as [Hlen Hget].
  cbn zeta in Hlen, Hget.
  set (ratio := (targetRate / originalRate)%float) in *.
  assert (0 < length out)%nat as Hpos by (destruct out; [done|cbn; lia]).
  destruct (newLength_positive _ _ _ HL Hlen Hpos) as (mr & er & Hratio & HL0).
  destruct (lookup_lt_is_Some_2 inputArray 0) as [x Hx]; [lia|].
  exists x, (interpolate inputArray ratio 0).
  split; [done|]. split; [by apply Hget|].
  apply (interpolate_at_integer inputArray ratio 0 0 x); try done; [|lia].
  unfold srcIndex, of_nat. rewrite FloatAxioms.div_spec, Hratio.
  change (Z.of_nat 0) with 0. rewrite (Prim2SF_of_Z 0) by lia. done.
Qed.

Lemma resampleFloat32_first_sample_witness :
  ∃ x y,
    [0.5; 0.25]%float !! 0%nat = Some x
    ∧ default [] (resampleFloat32 [0.5; 0.25]%float 1 2) !! 0%nat = Some y
    ∧ (y =? x)%float = true.
Proof.
  destruct (resampleFloat32_first_sample [0.5; 0.25]%float
              (default [] (resampleFloat32 [0.5; 0.25]%float 1 2)) 1 2)
    as (x & y & Hx & Hy & Heq & _).
  - reflexivity.
  - vm_compute. reflexivity.
  - vm_compute. reflexivity.
  - repeat (constructor; [split; vm_compute; reflexivity|]). constructor.
  - vm_compute. discriminate.
  - exists x, y. split; [exact Hx|]. split; [exact Hy | exact Heq].
Defined.
End IntegerPositions.
(** ** Upsampling by an integer factor *)
Section IntegerFactor.
Import Binary64 JS Pcm.
Local Open Scope Z_scope.

Lemma digits2_mul_bounds (a b : positive) :
  Zpos (digits2_pos a) + Zpos (digits2_pos b) - 1
  <= Zpos (digits2_pos (a * b))
  <= Zpos (digits2_pos a) + Zpos (digits2_pos b).
Proof.
  pose proof (digits2_upper a) as Hua. pose proof (digits2_lower a) as Hla.
  pose proof (digits2_upper b) as Hub. pose proof (digits2_lower b) as Hlb.
  pose proof (digits2_upper (a * b)) as Hu. rewrite Pos2Z.inj_mul in Hu.
  set (da := Zpos (digits2_pos a)) in *. set (db := Zpos (digits2_pos b)) in *.
  assert (0 < da) by (unfold da; lia). assert (0 < db) by (unfold db; lia).
  assert (0 < 2 ^ (da - 1)) by (apply Z.pow_pos_nonneg; lia).
  assert (0 < 2 ^ (db - 1)) by (apply Z.pow_pos_nonneg; lia).
  split.
  - assert (2 ^ (da - 1 + (db - 1)) < 2 ^ Zpos (digits2_pos (a * b))) as Hlt.
    { rewrite Z.pow_add_r by lia. nia. }
    apply Z.pow_lt_mono_r_iff in Hlt; lia.
  - apply digits2_le; [lia|]. rewrite Pos2Z.inj_mul, Z.pow_add_r by lia. nia.
Qed.

(** The product of two integers is exact. *)
Lemma SFmul_Zcanon (a b : Z) :
  0 <= a -> 0 <= b -> a * b < 2 ^ 53 ->
  SFmul prec emax (Zcanon a) (Zcanon b) = Zcanon (a * b).
Proof.
  intros Ha Hb Hab.
  destruct a as [|ca|ca], b as [|cb|cb]; try lia; cbn [Zcanon Z.mul].
  - done.
  - done.
  - done.
  - assert (Zpos ca < 2 ^ 53 ∧ Zpos cb < 2 ^ 53) as [Hca Hcb] by nia.
    destruct (canon_value ca) as (ma & ea & -> & Hea & Hra & Hma); [done|].
    destruct (canon_value cb) as (mb & eb & -> & Heb & Hrb & Hmb); [done|].
    cbn [SFmul xorb]. unfold canon.
    destruct (canon_mantissa (ca * cb) Hab) as [HC HdC]. cbn zeta in HC, HdC.
    pose proof (digits2_mul_bounds ca cb) as Hd.
    pose proof (digits2_pos_bound (ca * cb) Hab) as Hdab.
    set (d := Zpos (digits2_pos (ca * cb))) in *.
    set (C := Z.to_pos (Zpos (ca * cb) * 2 ^ (53 - d))) in *.
    set (n := d - 53 - ea - eb).
    assert (0 <= n) as Hn by (unfold n; lia).
    replace (ea + eb) with (d - 53 - n) by (unfold n; lia).
    replace (Zpos (ma * mb)) with (Zpos C * 2 ^ n).
    + apply binary_round_aux_exact; [by rewrite HC|done|lia].
    + rewrite HC, (Pos2Z.inj_mul ma mb), Hma, Hmb, (Pos2Z.inj_mul ca cb).
      rewrite <- Z.mul_assoc, <- Z.pow_add_r by lia.
      replace (53 - d + n) with (- ea + - eb) by (unfold n; lia).
      rewrite Z.pow_add_r by lia. lia.
Qed.

(** The quotient of a multiple of [k] by [k] is exact. *)
Lemma SFdiv_Zcanon (k j : Z) :
  1 <= k -> 0 <= j -> k * j < 2 ^ 53 ->
  SFdiv prec emax (Zcanon (k * j)) (Zcanon k) = Zcanon j.
Proof.
  intros Hk Hj Hkj.
  destruct k as [|ck|ck]; [lia| |lia].
  destruct j as [|cj|cj]; [|clear Hj|lia].
  { rewrite Z.mul_0_r. cbn [Zcanon]. done. }
  change (Zpos ck * Zpos cj) with (Zpos (ck * cj)) in *. cbn [Zcanon].
  assert (Zpos ck < 2 ^ 53 ∧ Zpos cj < 2 ^ 53) as [Hck Hcj]
    by (rewrite Pos2Z.inj_mul in Hkj; nia).
  destruct (canon_value (ck * cj)) as (m1 & e1 & -> & He1 & Hr1 & Hm1); [done|].
  destruct (canon_value ck) as (m2 & e2 & -> & He2 & Hr2 & Hm2); [done|].
  cbn [SFdiv xorb]. unfold SFdiv_core_binary. cbn [Zdigits2].
  destruct (canon_mantissa (ck * cj) Hkj) as [HC1 HdC1]. cbn zeta in HC1, HdC1.
  destruct (canon_mantissa ck Hck) as [HC2 HdC2]. cbn zeta in HC2, HdC2.
  assert (Zpos (digits2_pos m1) = 53) as ->.
  { change (Zpos (digits2_pos m1)) with (Zdigits2 (Zpos m1)).
    rewrite Hm1. replace (- e1) with (53 - Zpos (digits2_pos (ck * cj))) by lia.
    exact HdC1. }
  assert (Zpos (digits2_pos m2) = 53) as ->.
  { change (Zpos (digits2_pos m2)) with (Zdigits2 (Zpos m2)).
    rewrite Hm2. replace (- e2) with (53 - Zpos (digits2_pos ck)) by lia.
    exact HdC2. }
  replace (Z.min (fexp prec emax (53 + e1 - (53 + e2))) (e1 - e2))
    with (e1 - e2 - 53) by (unfold fexp, emin, prec, emax; lia).
  replace (e1 - e2 - (e1 - e2 - 53)) with 53 by lia.
  rewrite Z.shiftl_mul_pow2 by lia.
  pose proof (digits2_mul_bounds ck cj) as Hd.
  pose proof (digits2_pos_bound cj Hcj) as Hdj.
  set (n := - e1 + 53 + e2).
  assert (0 <= n) as Hn by (unfold n; lia).
  assert (Zpos m1 * 2 ^ 53 = Zpos m2 * (Zpos cj * 2 ^ n)) as Hq.
  { rewrite Hm1, Hm2, Pos2Z.inj_mul.
    assert (2 ^ (- e1) * 2 ^ 53 = 2 ^ (- e2) * 2 ^ n) as Hp.
    { rewrite <- !Z.pow_add_r by lia. f_equal. unfold n. lia. }
    transitivity (Zpos ck * Zpos cj * (2 ^ (- e1) * 2 ^ 53)); [ring|].
    rewrite Hp. ring. }
  change IntDef.Z.div_eucl with Z.div_eucl.
  pose proof (Z_div_mod (Zpos m1 * 2 ^ 53) (Zpos m2) ltac:(lia)) as Hdiv.
  destruct (Z.div_eucl (Zpos m1 * 2 ^ 53) (Zpos m2)) as [q r].
  destruct Hdiv as [Hqr Hr].
  assert (0 < 2 ^ n) by (apply Z.pow_pos_nonneg; lia).
  assert (q = Zpos cj * 2 ^ n) as Hqv.
  { rewrite (Z.div_unique _ _ q r (or_introl Hr) Hqr), Hq.
    rewrite Z.mul_comm. apply Z.div_mul. lia. }
  assert (r = 0) as -> by (rewrite Hq, Hqv in Hqr; lia).
  subst q.
  assert (new_location (Zpos m2) 0 = loc_Exact) as ->
    by (unfold new_location, new_location_even, new_location_odd;
        by destruct (IntDef.Z.even _)).
  unfold canon.
  destruct (canon_mantissa cj Hcj) as [HCj HdCj]. cbn zeta in HCj, HdCj.
  set (dj := Zpos (digits2_pos cj)) in *.
  set (Cj := Z.to_pos (Zpos cj * 2 ^ (53 - dj))) in *.
  set (n' := n - (53 - dj)).
  assert (0 <= n') as Hn' by (unfold n', n; lia).
  replace (e1 - e2 - 53) with (dj - 53 - n') by (unfold n', n; lia).
  replace (Zpos cj * 2 ^ n) with (Zpos Cj * 2 ^ n').
  - apply binary_round_aux_exact; [by rewrite HCj|done|lia].
  - rewrite HCj, <- Z.mul_assoc, <- Z.pow_add_r by lia.
    do 2 f_equal. unfold n'. lia.
Qed.

(** X17.  Upsampling by an integer factor [k] (the rates differ, their
    ratio is exactly [k], and [length * k < 2^53]): whenever
    [resampleFloat32] returns an output, it has exactly [k] times as
    many samples as the input, and for an input of finite float32 values
    the output sample at index [k * j] is input sample [j] (equal as
    numbers; identical unless that sample is [-0]). *)
Theorem resampleFloat32_integer_factor
    (inputArray : list float) (originalRate targetRate : float) (k : nat)
    (out : list float) :
  (originalRate =? targetRate)%float = false ->
  Prim2SF (targetRate / originalRate) = Zcanon (Z.of_nat k) ->
  (1 ≤ k)%nat ->
  Z.of_nat (length inputArray * k) < 2 ^ 53 ->
  Forall (λ v, is_finite v = true ∧ fround v = v) inputArray ->
  resampleFloat32 inputArray originalRate targetRate = Some out ->
  length out = (length inputArray * k)%nat
  ∧ ∀ j x, inputArray !! j = Some x ->
      ∃ y, out !! (k * j)%nat = Some y
           ∧ (y =? x)%float = true
           ∧ (Prim2SF x ≠ S754_zero true -> y = x).
Proof.
  intros Hne Hratio Hk HLk Hall Hout.
  set (ratio := (targetRate / originalRate)%float) in *.
  set (L := length inputArray) in *.
  assert (Z.of_nat L < 2 ^ 53) as HL by nia.
  assert (Prim2SF (of_nat L * ratio) = Zcanon (Z.of_nat (L * k))) as HX.
  { rewrite FloatAxioms.mul_spec, Hratio. unfold of_nat.
    rewrite Prim2SF_of_Z by lia.
    change (SF64mul ?a ?b) with (SFmul prec emax a b).
    rewrite SFmul_Zcanon by lia. f_equal. lia. }
  destruct (resampleFloat32_elements _ _ _ _ Hne Hout) as [Hlen Hget].
  cbn zeta in Hlen, Hget. fold ratio L in Hlen, Hget.
  rewrite (Math_round_Zcanon _ _ HX), (ToIndex_Zcanon _ _ HX) in Hlen by lia.
  injection Hlen as Hlen. rewrite Nat2Z.id in Hlen.
  split; [done|].
  intros j x Hx. pose proof (lookup_lt_Some _ _ _ Hx) as Hj. fold L in Hj.
  exists (interpolate inputArray ratio (k * j)).
  split; [apply Hget; nia|].
  apply (interpolate_at_integer inputArray ratio (k * j) (Z.of_nat j) x);
    try done; [|fold L; lia|by rewrite Nat2Z.id].
  unfold srcIndex, of_nat. fold ratio. rewrite FloatAxioms.div_spec, Hratio.
  rewrite Prim2SF_of_Z by nia.
  change (SF64div ?a ?b) with (SFdiv prec emax a b).
  rewrite Nat2Z.inj_mul. apply SFdiv_Zcanon; nia.
Qed.

Lemma resampleFloat32_integer_factor_witness :
  ∃ out,
    resampleFloat32 [0.5; 0.25]%float 24000 48000 = Some out
    ∧ length out = (length [0.5; 0.25]%float * 2)%nat.
Proof.
  eexists.
  assert (resampleFloat32 [0.5; 0.25]%float 24000 48000 = Some _) as Hout
    by (vm_compute; reflexivity).
  split; [exact Hout|].
  apply (resampleFloat32_integer_factor [0.5; 0.25]%float 24000 48000 2 _).
  - reflexivity.
  - vm_compute. reflexivity.
  - lia.
  - vm_compute. reflexivity.
  - repeat (constructor; [split; vm_compute; reflexivity|]). constructor.
  - exact Hout.
Defined.
End IntegerFactor.
(** ** The range and exactness of decoded samples *)
Section DecodedSamples.
Import Binary64 JS DataView Pcm RoundTrip DecodedSample.
Local Open Scope Z_scope.

(** A number equal to the float of an integer is that integer. *)
Lemma to_integer_eqb_of_Z (y : float) (x : Z) :
  - 2 ^ 53 < x < 2 ^ 53 -> (y =? of_Z x)%float = true -> to_integer y = Some x.
Proof.
  intros Hx Heq. rewrite FloatAxioms.eqb_spec in Heq. unfold SFeqb in Heq.
  destruct (SFcompare (Prim2SF y) (Prim2SF (of_Z x))) as [[]|] eqn:Hc; try done.
  apply SFcompare_antisym in Hc. cbn [CompOpp] in Hc.
  unfold to_integer. destruct x as [|c|c].
  - rewrite (Prim2SF_of_Z 0) in Hc by lia. cbn [Zcanon] in Hc.
    by destruct (Prim2SF y) as [s|[]| |[] m e]; cbn [SFcompare] in Hc.
  - rewrite Prim2SF_of_Z in Hc by lia. cbn [Zcanon] in Hc.
    destruct (canon_value c) as (m & e & Hcan & _ & He & Hm); [lia|].
    rewrite Hcan in Hc. apply SFcompare_finite_Eq in Hc. rewrite Hc, <- Hcan.
    apply (integer_SF_Zcanon (Zpos c)). lia.
  - rewrite Prim2SF_of_Z_neg in Hc by lia.
    destruct (canon_value c) as (m & e & Hcan & _ & He & Hm); [lia|].
    rewrite Hcan in Hc. cbn [SFopp negb] in Hc.
    apply SFcompare_finite_Eq in Hc. rewrite Hc.
    cbn [integer_SF cond_Zopp].
    assert (0 < 2 ^ (- e)) by (apply Z.pow_pos_nonneg; lia).
    rewrite Hm, Z.mod_mul by lia. rewrite Z.eqb_refl, orb_true_r.
    rewrite <- Hm, (shiftl_canon c) by done. done.
Qed.

Lemma decodedSample_all :
  forall_range decodedSample_ok (-32768) (Z.to_nat 65536) = true.
Proof. vm_compute. reflexivity. Qed.

(** X18.  Decoding is normalised and exact: every sample
    [convertPCM16ToFloat32] decodes (at equal rates) from an even-length
    input lies in [-1, 1), and multiplying it by 32768 gives back the
    16-bit integer it was decoded from, so that different integers
    decode to different values. *)
Theorem convertPCM16ToFloat32_normalised
    (pcmData : list byte) (rate : float)
    (Heven : (length pcmData mod 2 = 0)%nat)
    (Hrate : (rate =? rate)%float = true) :
  ∃ floats,
    convertPCM16ToFloat32 pcmData rate rate = Some floats
    ∧ length floats = (length pcmData / 2)%nat
    ∧ ∀ i, (i < length pcmData / 2)%nat ->
        ∃ x v,
          getInt16 pcmData (Z.of_nat i * 2) = Some x
          ∧ floats !! i = Some v
          ∧ (-1 <=? v)%float = true ∧ (v <? 1)%float = true
          ∧ to_integer (v * 32768)%float = Some x.
Proof.
  destruct (convertPCM16ToFloat32_even pcmData rate rate Heven)
    as (floats & Hconv & Hlen & Hget).
  exists floats. split; [|split; [done|]].
  { rewrite Hconv. unfold resampleFloat32. by rewrite Hrate. }
  intros i Hi.
  pose proof (Nat.div_mod_eq (length pcmData) 2) as Hdm.
  set (x := wrap16 (le_combine (take 2 (drop (2 * i) pcmData)))).
  exists x, (decodedSample x).
  split; [apply getInt16_sample; lia|]. split; [by apply Hget|].
  pose proof (forall_range_spec decodedSample_ok (Z.to_nat 65536) (-32768) x
                decodedSample_all) as Hok.
  pose proof (wrap16_range (le_combine (take 2 (drop (2 * i) pcmData)))) as Hx.
  fold x in Hx. specialize (Hok ltac:(lia)).
  unfold decodedSample_ok in Hok. cbn zeta in Hok.
  apply andb_prop in Hok as [Hok Hint]. apply andb_prop in Hok as [Hlo Hhi].
  split; [done|]. split; [done|].
  apply to_integer_eqb_of_Z; [|done].
  change (2 ^ 53) with 9007199254740992. lia.
Qed.

Lemma convertPCM16ToFloat32_normalised_witness :
  ∃ floats,
    convertPCM16ToFloat32 [Byte.x00; Byte.x80; Byte.xff; Byte.x7f] 24000 24000
    = Some floats
    ∧ length floats = 2%nat.
Proof.
  destruct (convertPCM16ToFloat32_normalised
              [Byte.x00; Byte.x80; Byte.xff; Byte.x7f] 24000)
    as (floats & Hf & Hl & _).
  - reflexivity.
  - reflexivity.
  - exists floats. split; [exact Hf | exact Hl].
Defined.
End DecodedSamples.
(** ** [writeString] *)
Section WriteString.
Import JS DataView.
Local Open Scope Z_scope.

Lemma writeString_from_outside (bs view : list byte) (offset : Z) :
  bs ≠ [] ->
  offset < 0 ∨ Z.of_nat (length view) < offset + Z.of_nat (length bs) ->
  writeString_from view offset bs = None.
Proof.
  intros Hne Hout. destruct bs as [|c bs]; [done|].
  destruct (Z_lt_le_dec offset 0) as [Hneg|Hnn].
  - cbn [writeString_from]. unfold setUint8, setBytes.
    by destruct (Z.leb_spec 0 offset); [lia|].
  - destruct Hout as [|Hout]; [lia|].
    destruct (Z_lt_le_dec (Z.of_nat (length view)) offset) as [Hfar|Hnear].
    + cbn [writeString_from]. unfold setUint8, setBytes.
      destruct (Z.leb_spec 0 offset); [|lia].
      unfold TypedArray.set_at.
      change (le_split 1 (byte.unsigned c)) with [byte.of_Z (byte.unsigned c)].
      cbn [length]. by rewrite decide_False by lia.
    + by apply writeString_from_overflow.
Qed.

(** X19.  [writeString(view, offset, str)] replaces the [str.length]
    bytes of the buffer from [offset] on by the character codes of
    [str] and leaves every other byte unchanged; it throws a
    [RangeError] exactly when a non-empty [str] does not lie inside the
    buffer. *)
Theorem writeString_writes (view : list byte) (offset : Z) (str : string) :
  let codes := list_byte_of_string str in
  (0 <= offset -> offset + Z.of_nat (length codes) <= Z.of_nat (length view) ->
   writeString view offset str
   = Some (take (Z.to_nat offset) view ++ codes
           ++ drop (Z.to_nat offset + length codes) view))
  ∧ (codes ≠ [] ->
     offset < 0 ∨ Z.of_nat (length view) < offset + Z.of_nat (length codes) ->
     writeString view offset str = None).
Proof.
  intros codes. unfold writeString. fold codes. split.
  - intros H0 Hfit.
    set (pre := take (Z.to_nat offset) view).
    set (old := take (length codes) (drop (Z.to_nat offset) view)).
    set (post := drop (length codes) (drop (Z.to_nat offset) view)).
    assert (view = pre ++ old ++ post) as Hview
      by (unfold pre, old, post; by rewrite !take_drop).
    assert (offset = Z.of_nat (length pre)) as Hoff
      by (unfold pre; rewrite length_take; lia).
    pose proof (writeString_from_middle codes pre old post) as Hw.
    rewrite <- Hview, <- Hoff in Hw. rewrite Hw.
    + unfold post. by rewrite drop_drop.
    + unfold old. rewrite length_take, length_drop. lia.
  - intros Hne Hout. by apply writeString_from_outside.
Qed.

Lemma writeString_writes_witness :
  writeString (replicate 6 Byte.x00) 1 "RIFF"
  = Some (take (Z.to_nat 1) (replicate 6 Byte.x00) ++ list_byte_of_string "RIFF"
          ++ drop (Z.to_nat 1 + length (list_byte_of_string "RIFF"))
               (replicate 6 Byte.x00))
  ∧ writeString (replicate 6 Byte.x00) 3 "RIFF" = None.
Proof.
  split.
  - apply (proj1 (writeString_writes (replicate 6 Byte.x00) 1 "RIFF")); cbn; lia.
  - apply (proj2 (writeString_writes (replicate 6 Byte.x00) 3 "RIFF")).
    + discriminate.
    + right. cbn. lia.
Defined.
End WriteString.
(** ** The header fields computed on numbers *)
Section HeaderFields.
Import Binary64 JS DataView Wav.
Local Open Scope Z_scope.

(** A product of non-negative integers that stays below 2^53 is computed
    exactly. *)
Lemma of_Z_mul (x : float) (a b : Z) :
  Prim2SF x = Zcanon a -> 0 <= a -> 0 <= b < 2 ^ 53 -> a * b < 2 ^ 53 ->
  Prim2SF (x * of_Z b) = Zcanon (a * b).
Proof.
  intros Hx Ha Hb Hab. rewrite FloatAxioms.mul_spec, Hx, Prim2SF_of_Z by lia.
  change (SF64mul ?u ?v) with (SFmul prec emax u v).
  apply SFmul_Zcanon; lia.
Qed.

Lemma ToUint32_Zcanon (x : float) (z : Z) :
  Prim2SF x = Zcanon z -> 0 <= z < 2 ^ 53 -> ToUint32 x = z mod 2 ^ 32.
Proof.
  intros Hx Hz. unfold ToUint32, trunc. by rewrite Hx, trunc_SF_Zcanon.
Qed.

Lemma ToUint16_Zcanon (x : float) (z : Z) :
  Prim2SF x = Zcanon z -> 0 <= z < 2 ^ 53 -> ToUint16 x = z mod 2 ^ 16.
Proof.
  intros Hx Hz. unfold ToUint16, trunc. by rewrite Hx, trunc_SF_Zcanon.
Qed.

(** The ByteRate and BlockAlign fields of a header for 2 bytes per
    sample, when the byte rate is below 2^53. *)
Lemma byteRate_exact (sampleRate numChannels : Z) :
  0 <= sampleRate < 2 ^ 53 -> 0 <= numChannels ->
  numChannels * 2 < 2 ^ 53 -> sampleRate * numChannels * 2 < 2 ^ 53 ->
  ToUint32 (of_Z sampleRate * of_Z numChannels * of_Z 2)%float
  = (sampleRate * numChannels * 2) mod 2 ^ 32
  ∧ ToUint16 (of_Z numChannels * of_Z 2)%float = (numChannels * 2) mod 2 ^ 16.
Proof.
  intros Hsr Hch Hba Hbr. split.
  - apply ToUint32_Zcanon; [|nia].
    apply of_Z_mul; [|nia|lia|lia].
    apply of_Z_mul; [|lia|lia|nia].
    apply Prim2SF_of_Z. lia.
  - apply ToUint16_Zcanon; [|lia].
    apply of_Z_mul; [|lia|lia|lia].
    apply Prim2SF_of_Z. lia.
Qed.

(** C2, amended.  For every even-length input, sample rate and channel
    count with [0 < sampleRate < 2^53], [0 <= numChannels] and
    [sampleRate * numChannels * 2 < 2^53], and 16 bits per sample:
    whenever [bufferToWav] returns a file, the file has
    [44 + paddedDataLength] bytes and its header holds each value reduced
    modulo the width of its field: 2^32 for ChunkSize, SampleRate,
    ByteRate and Subchunk2Size, 2^16 for NumChannels and BlockAlign.  When
    the values fit their fields, the header holds them exactly and parsing
    it recovers the sample rate, channel count and bits per sample.  A
    file is returned when the padding is no longer than the input. *)
Theorem bufferToWav_header
    (combinedChunks : list byte) (sampleRate numChannels : Z)
    (Heven : (length combinedChunks mod 2 = 0)%nat)
    (Hrate : 0 < sampleRate < 2 ^ 53) (Hchan : 0 <= numChannels)
    (Hbyte : sampleRate * numChannels * 2 < 2 ^ 53) :
  let paddingSize :=
    paddingSize16 (Z.of_nat (length combinedChunks)) sampleRate numChannels in
  let dataLength := Z.of_nat (length combinedChunks) + paddingSize in
  let totalLength := 44 + dataLength in
  (∀ wav,
     bufferToWav combinedChunks sampleRate numChannels 16 = Some wav ->
     Z.of_nat (length wav) = totalLength
     ∧ Z.of_nat (length (payload wav)) = dataLength
     ∧ parseHeader wav
       = Some {| ChunkSize := (totalLength - 8) mod 2 ^ 32;
                 Subchunk1Size := 16;
                 AudioFormat := 1;
                 NumChannels := numChannels mod 2 ^ 16;
                 SampleRate := sampleRate mod 2 ^ 32;
                 ByteRate := (sampleRate * numChannels * 2) mod 2 ^ 32;
                 BlockAlign := (numChannels * 2) mod 2 ^ 16;
                 BitsPerSample := 16;
                 Subchunk2Size := dataLength mod 2 ^ 32 |}
     ∧ (sampleRate < 2 ^ 32 -> numChannels * 2 < 2 ^ 16 ->
        sampleRate * numChannels * 2 < 2 ^ 32 -> totalLength - 8 < 2 ^ 32 ->
        parseHeader wav
        = Some {| ChunkSize := totalLength - 8;
                  Subchunk1Size := 16;
                  AudioFormat := 1;
                  NumChannels := numChannels;
                  SampleRate := sampleRate;
                  ByteRate := sampleRate * numChannels * 2;
                  BlockAlign := numChannels * 2;
                  BitsPerSample := 16;
                  Subchunk2Size := dataLength |}))
  ∧ (paddingSize <= Z.of_nat (length combinedChunks) ->
     ∃ wav, bufferToWav combinedChunks sampleRate numChannels 16 = Some wav).
Proof.
  intros paddingSize dataLength totalLength.
  pose proof (bufferToWav_16 combinedChunks sampleRate numChannels
                ltac:(lia) Hchan) as Hform.
  cbn zeta in Hform. rewrite (trimToEven_even _ Heven) in Hform.
  fold paddingSize in Hform.
  split; [|intros _; eexists; exact Hform].
  intros wav Hwav.
  pose proof (paddingSize16_nonneg (Z.of_nat (length combinedChunks)) sampleRate
                numChannels ltac:(lia) ltac:(lia) Hchan) as Hpad.
  fold paddingSize in Hpad.
  replace (Z.of_nat (length combinedChunks + Z.to_nat paddingSize))
    with dataLength in Hform by (subst dataLength; lia).
  fold totalLength in Hform.
  rewrite Hform in Hwav. apply (inj Some) in Hwav. subst wav.
  destruct (byteRate_exact sampleRate numChannels) as [Hbr Hba]; [lia|lia|nia|lia|].
  assert (parseHeader
            (headerBytes totalLength numChannels sampleRate 2 16 dataLength
             ++ combinedChunks ++ replicate (Z.to_nat paddingSize) Byte.x00)
          = Some {| ChunkSize := (totalLength - 8) mod 2 ^ 32;
                    Subchunk1Size := 16;
                    AudioFormat := 1;
                    NumChannels := numChannels mod 2 ^ 16;
                    SampleRate := sampleRate mod 2 ^ 32;
                    ByteRate := (sampleRate * numChannels * 2) mod 2 ^ 32;
                    BlockAlign := (numChannels * 2) mod 2 ^ 16;
                    BitsPerSample := 16;
                    Subchunk2Size := dataLength mod 2 ^ 32 |}) as Hparse
    by (by rewrite parseHeader_headerBytes, Hbr, Hba).
  split; [|split; [|split; [exact Hparse|]]].
  - rewrite !length_app, headerBytes_length, length_replicate.
    subst totalLength dataLength. lia.
  - unfold payload. rewrite drop_app_length' by done.
    rewrite length_app, length_replicate. subst dataLength. lia.
  - intros Hsr Hblock Hfit Hcs. rewrite Hparse.
    rewrite !Z.mod_small by (subst totalLength dataLength; lia). reflexivity.
Qed.

Lemma bufferToWav_header_witness :
  ∃ wav,
    bufferToWav [Byte.x01; Byte.x02; Byte.x03; Byte.x04] 3 1 16 = Some wav
    ∧ Z.of_nat (length wav) = 50.
Proof.
  destruct (bufferToWav_header [Byte.x01; Byte.x02; Byte.x03; Byte.x04] 3 1)
    as [Hfile Hsome].
  - reflexivity.
  - lia.
  - lia.
  - lia.
  - destruct Hsome as [wav Hwav]; [vm_compute; discriminate|].
    exists wav. split; [exact Hwav|].
    apply (Hfile wav Hwav).
Defined.

(** X5.  For an audio buffer of fewer than 2^52 channels that all hold
    [len] samples, and a sample rate with [0 <= sampleRate < 2^53] and
    [sampleRate * channels * 2 < 2^53], the file of [writeWav] has
    [44 + len * channels * 2] bytes and its header holds each value
    reduced modulo the width of its field; when the values fit, parsing
    the header recovers the sample rate, the channel count, 16 bits per
    sample and the data length. *)
Theorem writeWav_header (channels : list (list float)) (sampleRate : Z) (len : nat) :
  Forall (λ channel, length channel = len) channels ->
  let numChan := Z.of_nat (length channels) in
  let dataLength := Z.of_nat len * numChan * 2 in
  0 <= sampleRate < 2 ^ 53 ->
  numChan * 2 < 2 ^ 53 ->
  sampleRate * numChan * 2 < 2 ^ 53 ->
  ∃ wav,
    writeWav (AudioBuffer.mk channels sampleRate numChan (Z.of_nat len)) = Some wav
    ∧ Z.of_nat (length wav) = 44 + dataLength
    ∧ parseHeader wav
      = Some {| ChunkSize := (dataLength + 36) mod 2 ^ 32;
                Subchunk1Size := 16;
                AudioFormat := 1;
                NumChannels := numChan mod 2 ^ 16;
                SampleRate := sampleRate mod 2 ^ 32;
                ByteRate := (sampleRate * numChan * 2) mod 2 ^ 32;
                BlockAlign := (numChan * 2) mod 2 ^ 16;
                BitsPerSample := 16;
                Subchunk2Size := dataLength mod 2 ^ 32 |}
    ∧ (sampleRate < 2 ^ 32 -> numChan * 2 < 2 ^ 16 ->
       sampleRate * numChan * 2 < 2 ^ 32 -> dataLength + 36 < 2 ^ 32 ->
       parseHeader wav
       = Some {| ChunkSize := dataLength + 36;
                 Subchunk1Size := 16;
                 AudioFormat := 1;
                 NumChannels := numChan;
                 SampleRate := sampleRate;
                 ByteRate := sampleRate * numChan * 2;
                 BlockAlign := numChan * 2;
                 BitsPerSample := 16;
                 Subchunk2Size := dataLength |}).
Proof.
  intros Hall numChan dataLength Hrate Hblock Hbyte.
  assert (length (concat channels) = (len * length channels)%nat) as Htotal.
  { clear -Hall. induction Hall as [|ch channels Hch _ IH]; [cbn; lia|].
    cbn [concat length]. rewrite length_app, IH, Hch. lia. }
  pose proof (writeWav_channels channels sampleRate (Z.of_nat len)) as Hwav.
  cbn zeta in Hwav. fold numChan in Hwav.
  rewrite Hwav by (unfold numChan; lia).
  eexists. split; [reflexivity|].
  replace (Z.of_nat len * numChan * 2 + 44 - 44) with dataLength
    by (unfold dataLength; lia).
  replace (Z.of_nat len * numChan * 2 + 44) with (dataLength + 44)
    by (unfold dataLength; lia).
  split.
  { rewrite !length_app, headerBytes_length, concat_channelBytes_length,
      length_replicate, Htotal. unfold dataLength, numChan. lia. }
  destruct (byteRate_exact sampleRate numChan) as [Hbr Hba];
    [lia|unfold numChan; lia|lia|lia|].
  rewrite parseHeader_headerBytes, Hbr, Hba.
  replace (dataLength + 44 - 8) with (dataLength + 36) by lia.
  split; [done|].
  intros Hsr Hba16 Hbr32 Hcs.
  rewrite !Z.mod_small by (unfold dataLength, numChan in *; lia). done.
Qed.

Lemma writeWav_header_witness :
  ∃ wav,
    writeWav (AudioBuffer.mk [[0.5; -1]%float; [1; 0]%float] 8000
                (Z.of_nat 2) (Z.of_nat 2)) = Some wav
    ∧ Z.of_nat (length wav) = 44 + Z.of_nat 2 * Z.of_nat 2 * 2.
Proof.
  destruct (writeWav_header [[0.5; -1]%float; [1; 0]%float] 8000 2)
    as (wav & Hwav & Hlen & _).
  - repeat constructor.
  - lia.
  - cbn. lia.
  - cbn. lia.
  - exists wav. split; [exact Hwav | exact Hlen].
Defined.
End HeaderFields.
